(** * mod_log_rotate: time-windowed rotation of transfer logs

    A shallow embedding of [src/mod_log_rotate.c] and the properties its
    specification states about it.

    Conventions of the embedding:
    - [apr_time_t] (signed 64-bit microseconds) is a [Z]; every arithmetic
      operation of the C text goes through [wrap64], the two's-complement
      wrap-around of the targets the module is built for, and [/] is C's
      truncating division ([Z.quot]).
    - [apr_status_t] is a [Z]; [APR_SUCCESS] is 0.
    - pointers that may be [NULL] are [option]s.
    - the APR and libc calls the module makes (locks, pools, files, clock
      conversion, [strftime]) are collaborators: their outcomes come from
      a [host] record, indexed by the history of calls made so far, and
      every call is recorded in a trace of [event]s. *)

From Stdlib Require Import ZArith Lia List String Ascii Bool DecimalString.
From Stdlib Require Import Permutation.
From Stdlib Require DecimalZ DecimalPos.
Import ListNotations.
Open Scope Z_scope.

(** ** Machine integers and APR constants *)

Module Apr.

Definition wrap64 (z : Z) : Z := (z + 2 ^ 63) mod 2 ^ 64 - 2 ^ 63.

Definition in_int64 (z : Z) : Prop := - 2 ^ 63 <= z < 2 ^ 63.

Definition time_add (a b : Z) : Z := wrap64 (a + b).
Definition time_sub (a b : Z) : Z := wrap64 (a - b).
Definition time_mul (a b : Z) : Z := wrap64 (a * b).
(** C's [a / b]: the quotient truncated toward zero. *)
Definition time_div (a b : Z) : Z := wrap64 (Z.quot a b).

Definition APR_USEC_PER_SEC : Z := 1000000.
(** [apr_time_sec(t)] is the macro [(t) / APR_USEC_PER_SEC]. *)
Definition apr_time_sec (t : Z) : Z := time_div t APR_USEC_PER_SEC.

Definition apr_status_t := Z.
Definition APR_SUCCESS : apr_status_t := 0.
(** [ENOENT] of the C library. *)
Definition APR_ENOENT : apr_status_t := 2.
(** [APR_OS_START_ERROR + 14]. *)
Definition APR_EGENERAL : apr_status_t := 20014.

Definition is_success (rv : apr_status_t) : bool := rv =? APR_SUCCESS.

End Apr.
Import Apr.

(** ** Configuration: [rl_enabled], [log_options] *)

Inductive rl_enabled : Type :=
| RL_DISABLED
| RL_ENABLED
| RL_SUBSTITUTIONS.

Record log_options : Type := mk_log_options {
  enabled : rl_enabled;
  interval : Z;
  offset : Z;
  localt : Z
}.

Definition INTERVAL_DEFAULT : Z :=
  time_mul (time_mul APR_USEC_PER_SEC 3600) 24.
Definition INTERVAL_MIN : Z := time_mul APR_USEC_PER_SEC 60.

Definition make_log_options : log_options :=
  {| enabled := RL_ENABLED;
     interval := INTERVAL_DEFAULT;
     offset := 0;
     localt := 0 |}.

Definition set_rotated_logs (ls : log_options) (flag : Z) : log_options :=
  {| enabled := if flag =? 0 then RL_DISABLED else RL_ENABLED;
     interval := interval ls;
     offset := offset ls;
     localt := localt ls |}.

Definition set_localtime (ls : log_options) (flag : Z) : log_options :=
  {| enabled := enabled ls;
     interval := interval ls;
     offset := offset ls;
     localt := flag |}.

(** [set_interval]: [inte] and [offs] are the values [atol] returns for the
    directive's arguments, [None] for an argument that is absent. *)
Definition set_interval (ls : log_options) (inte offs : option Z)
  : log_options :=
  let ls1 :=
    match inte with
    | Some n =>
        let i := time_mul APR_USEC_PER_SEC (wrap64 n) in
        {| enabled := enabled ls;
           interval := if i <? INTERVAL_MIN then INTERVAL_MIN else i;
           offset := offset ls;
           localt := localt ls |}
    | None => ls
    end in
  match offs with
  | Some m =>
      {| enabled := enabled ls1;
         interval := interval ls1;
         offset := time_mul (time_mul APR_USEC_PER_SEC 60) (wrap64 m);
         localt := localt ls1 |}
  | None => ls1
  end.

(** ** The time quantizer: [ap_get_quantized_time]

    [local_gmtoff] is the collaborator [apr_time_exp_lt]: the signed offset
    of local time from UTC, in seconds, in effect at the given instant. *)

Section Quantizer.

Variable local_gmtoff : Z -> Z.

Definition ap_get_quantized_time (ls : log_options) (tm : Z) : Z :=
  let localadj :=
    if localt ls =? 0 then 0
    else time_mul (local_gmtoff tm) APR_USEC_PER_SEC in
  time_mul
    (time_div (time_add (time_add tm (offset ls)) localadj) (interval ls))
    (interval ls).

End Quantizer.


(** ** Log names: [ap_pstrftime] and the name synthesis of [ap_open_log] *)

(** [apr_time_exp_t], the broken-down time [apr_time_exp_gmt] fills in. *)
Record apr_time_exp_t : Type := mk_time_exp {
  tm_usec : Z;
  tm_sec : Z;
  tm_min : Z;
  tm_hour : Z;
  tm_mday : Z;
  tm_mon : Z;
  tm_year : Z;
  tm_wday : Z;
  tm_yday : Z;
  tm_isdst : Z;
  tm_gmtoff : Z
}.

(** [strchr(s, c)] for a character [c] other than NUL: the suffix of [s]
    that starts at the first [c], or [None] for [NULL]. *)
Fixpoint strchr (s : string) (c : ascii) : option string :=
  match s with
  | EmptyString => None
  | String a s' => if Ascii.eqb a c then Some s else strchr s' c
  end.

(** [fp + 1] *)
Definition str_next (s : string) : string :=
  match s with
  | EmptyString => EmptyString
  | String _ s' => s'
  end.

(** The sizing loop of [ap_pstrftime]:
    [while (NULL != fp) { len += 10; fp = strchr(fp + 1, '%'); }].
    [fuel] bounds the number of iterations. *)
Fixpoint pstrftime_scan (fuel : nat) (fp : option string) (len : nat) : nat :=
  match fp with
  | None => len
  | Some s =>
      match fuel with
      | O => len
      | S k => pstrftime_scan k (strchr (str_next s) "%"%char) (len + 10)
      end
  end.

(** [len] as [ap_pstrftime] has it when it allocates the buffer; a format
    has no more markers than characters, which is the fuel given. *)
Definition pstrftime_len (format : string) : nat :=
  pstrftime_scan (String.length format) (strchr format "%"%char)
    (String.length format + 1).

(** The number of ['%'] characters of a format. *)
Fixpoint count_markers (s : string) : nat :=
  match s with
  | EmptyString => 0
  | String a s' =>
      if Ascii.eqb a "%"%char then S (count_markers s') else count_markers s'
  end.

(** The C library behind [apr_strftime]: [strftime_full] is the complete
    expansion of a format, [strftime_overflow] what is found in a buffer
    of the given size when the expansion does not fit (the C standard
    leaves it indeterminate). *)
Record libc_strftime : Type := mk_libc_strftime {
  strftime_full : string -> apr_time_exp_t -> string;
  strftime_overflow : nat -> string -> apr_time_exp_t -> string
}.

(** The decimal rendering of an integer, as [printf] gives it. *)
Definition decimal (z : Z) : string := NilZero.string_of_int (Z.to_int z).

Section Names.

Variable libc : libc_strftime.
Variable apr_time_exp_gmt : Z -> apr_time_exp_t.

(** [apr_strftime(buf, &got, max, format, tm)]: the buffer and [got].
    The expansion fits when it and its terminator take at most [max]
    bytes; otherwise [strftime] returns 0. The status is always
    [APR_SUCCESS] and is left out. *)
Definition apr_strftime (max : nat) (format : string) (tm : apr_time_exp_t)
  : string * nat :=
  let full := strftime_full libc format tm in
  if (String.length full + 1 <=? max)%nat
  then (full, String.length full)
  else (strftime_overflow libc max format tm, 0%nat).

Definition ap_pstrftime (format : string) (tm : apr_time_exp_t) : string :=
  let len := pstrftime_len format in
  let '(buf, got) := apr_strftime len format tm in
  buf.

(** [apr_psprintf(p, "%s.%" APR_TIME_T_FMT, name, secs)] *)
Definition suffix_name (name : string) (secs : Z) : string :=
  (name ++ "." ++ decimal secs)%string.

(** The name [ap_open_log] hands to [apr_file_open]. *)
Definition log_name (name : string) (ls : log_options) (tm : Z) : string :=
  let log_time := time_sub tm (offset ls) in
  match enabled ls with
  | RL_SUBSTITUTIONS => ap_pstrftime name (apr_time_exp_gmt log_time)
  | _ => suffix_name name (apr_time_sec log_time)
  end.

End Names.

(** ** The rotated log and its collaborators *)

(** An allocation scope ([apr_pool_t]): its identity and its parent's. *)
Record apr_pool : Type := mk_pool {
  pool_id : nat;
  pool_parent : nat
}.

(** An open file ([apr_file_t *], not [NULL]). *)
Definition apr_file : Type := nat.

(** The kinds of [apr_anylock_t] the module stores in a [rotated_log]. *)
Inductive apr_anylock_type : Type :=
| apr_anylock_none
| apr_anylock_readlock
| apr_anylock_writelock.

Record rotated_log : Type := mk_rotated_log {
  pool : apr_pool;
  fname : string;
  fd : option apr_file;
  logtime : Z;
  read_lock : apr_anylock_type;
  write_lock : apr_anylock_type;
  st : log_options
}.

Definition with_fd (rl : rotated_log) (f : option apr_file) : rotated_log :=
  mk_rotated_log (pool rl) (fname rl) f (logtime rl)
    (read_lock rl) (write_lock rl) (st rl).

Definition with_logtime (rl : rotated_log) (t : Z) : rotated_log :=
  mk_rotated_log (pool rl) (fname rl) (fd rl) t
    (read_lock rl) (write_lock rl) (st rl).

Definition with_pool (rl : rotated_log) (p : apr_pool) : rotated_log :=
  mk_rotated_log p (fname rl) (fd rl) (logtime rl)
    (read_lock rl) (write_lock rl) (st rl).

(** How a thread holds the reader-writer lock. *)
Inductive lock_mode : Type :=
| Shared
| Exclusive.

Inductive loglevel : Type :=
| APLOG_CRIT
| APLOG_ERR
| APLOG_WARNING
| APLOG_DEBUG.

(** The calls the module makes to its collaborators, with their outcome. *)
Inductive event : Type :=
| EvLock (m : lock_mode) (rv : apr_status_t)
| EvUnlock (rv : apr_status_t)
| EvPoolCreate (parent : nat) (rv : apr_status_t) (np : apr_pool)
| EvPoolDestroy (p : apr_pool)
| EvFileOpen (name : string) (p : apr_pool) (rv : apr_status_t) (f : apr_file)
| EvFileClose (f : option apr_file) (rv : apr_status_t)
| EvFileWrite (f : option apr_file) (buf : string) (rv : apr_status_t)
| EvLog (level : loglevel) (status : apr_status_t) (msg : string).

(** The two places where a thread holds no lock and others may run. *)
Inductive yield_point : Type :=
| BeforeLock
| AfterUnlock.

(** The host: the outcome of every collaborator call, given the calls
    made so far. [h_others] is what the other threads do to the shared
    [rotated_log] while this thread holds no lock. *)
Record host : Type := mk_host {
  h_gmtoff : Z -> Z;
  h_time_exp_gmt : Z -> apr_time_exp_t;
  h_libc : libc_strftime;
  h_lock : list event -> lock_mode -> apr_status_t;
  h_unlock : list event -> apr_status_t;
  h_pool_create : list event -> nat -> apr_status_t * nat;
  h_file_open : list event -> string -> apr_status_t * apr_file;
  h_file_close : list event -> option apr_file -> apr_status_t;
  h_file_write : list event -> option apr_file -> string -> apr_status_t;
  h_others : list event -> yield_point -> rotated_log -> rotated_log
}.

(** What one thread sees: the shared log, the locks it holds (latest
    first) and the calls made so far (oldest first). *)
Record world : Type := mk_world {
  w_rl : rotated_log;
  w_held : list lock_mode;
  w_trace : list event
}.

(** *** A state monad over [world] *)

Definition M (A : Type) : Type := world -> A * world.

Definition ret {A : Type} (a : A) : M A := fun w => (a, w).

Definition bind {A B : Type} (c : M A) (k : A -> M B) : M B :=
  fun w => let (a, w') := c w in k a w'.

Declare Scope rot_scope.
Delimit Scope rot_scope with rot.
Notation "x <- c ;; k" := (bind c (fun x => k))
  (at level 61, c at next level, right associativity) : rot_scope.
Notation "c ;; k" := (bind c (fun _ => k))
  (at level 61, right associativity) : rot_scope.
Open Scope rot_scope.

Definition get_rl : M rotated_log := fun w => (w_rl w, w).

Definition put_rl (rl : rotated_log) : M unit :=
  fun w => (tt, mk_world rl (w_held w) (w_trace w)).

Definition modify_rl (f : rotated_log -> rotated_log) : M unit :=
  fun w => (tt, mk_world (f (w_rl w)) (w_held w) (w_trace w)).

Definition emit (e : event) : M unit :=
  fun w => (tt, mk_world (w_rl w) (w_held w) (w_trace w ++ [e])).

(** [APR_SUCCESS != rv] guards every early return of the module. *)
Definition failed (rv : apr_status_t) : bool := negb (is_success rv).

Definition is_null {A : Type} (o : option A) : bool :=
  match o with
  | Some _ => false
  | None => true
  end.

Section Coordinator.

Variable h : host.

(** Other threads run only while this one holds no lock. *)
Definition yield (pt : yield_point) : M unit :=
  fun w =>
    match w_held w with
    | [] => (tt, mk_world (h_others h (w_trace w) pt (w_rl w)) [] (w_trace w))
    | _ :: _ => (tt, w)
    end.

(** [apr_thread_rwlock_rdlock] and [apr_thread_rwlock_wrlock] *)
Definition rwlock_acquire (m : lock_mode) : M apr_status_t :=
  yield BeforeLock ;;
  fun w =>
    let rv := h_lock h (w_trace w) m in
    (rv, mk_world (w_rl w)
           (if is_success rv then m :: w_held w else w_held w)
           (w_trace w ++ [EvLock m rv])).

(** [apr_thread_rwlock_unlock]: gives up the lock taken last. *)
Definition rwlock_release : M apr_status_t :=
  rv <- (fun w =>
           let rv := h_unlock h (w_trace w) in
           (rv, mk_world (w_rl w)
                  (if is_success rv then tl (w_held w) else w_held w)
                  (w_trace w ++ [EvUnlock rv]))) ;;
  yield AfterUnlock ;;
  ret rv.

(** The macro [APR_ANYLOCK_LOCK]. *)
Definition APR_ANYLOCK_LOCK (lck : apr_anylock_type) : M apr_status_t :=
  match lck with
  | apr_anylock_none => ret APR_SUCCESS
  | apr_anylock_readlock => rwlock_acquire Shared
  | apr_anylock_writelock => rwlock_acquire Exclusive
  end.

(** The macro [APR_ANYLOCK_UNLOCK]. *)
Definition APR_ANYLOCK_UNLOCK (lck : apr_anylock_type) : M apr_status_t :=
  match lck with
  | apr_anylock_none => ret APR_SUCCESS
  | apr_anylock_readlock => rwlock_release
  | apr_anylock_writelock => rwlock_release
  end.

Definition apr_pool_create (parent : nat) : M (apr_status_t * apr_pool) :=
  fun w =>
    let (rv, id) := h_pool_create h (w_trace w) parent in
    let np := mk_pool id parent in
    ((rv, np),
     mk_world (w_rl w) (w_held w) (w_trace w ++ [EvPoolCreate parent rv np])).

Definition apr_pool_destroy (p : apr_pool) : M unit :=
  emit (EvPoolDestroy p).

Definition apr_file_open (name : string) (p : apr_pool)
  : M (apr_status_t * apr_file) :=
  fun w =>
    let (rv, f) := h_file_open h (w_trace w) name in
    ((rv, f),
     mk_world (w_rl w) (w_held w) (w_trace w ++ [EvFileOpen name p rv f])).

Definition apr_file_close (f : option apr_file) : M apr_status_t :=
  fun w =>
    let rv := h_file_close h (w_trace w) f in
    (rv, mk_world (w_rl w) (w_held w) (w_trace w ++ [EvFileClose f rv])).

Definition apr_file_write (f : option apr_file) (buf : string)
  : M apr_status_t :=
  fun w =>
    let rv := h_file_write h (w_trace w) f buf in
    (rv, mk_world (w_rl w) (w_held w) (w_trace w ++ [EvFileWrite f buf rv])).

Definition ap_log_error (level : loglevel) (status : apr_status_t)
  (msg : string) : M unit :=
  emit (EvLog level status msg).

(** *** [ap_open_log] and [ap_close_log] *)

Definition ap_open_log (p : apr_pool) (name : string) (ls : log_options)
  (tm : Z) : M (option apr_file) :=
  let name' := log_name (h_libc h) (h_time_exp_gmt h) name ls tm in
  r <- apr_file_open name' p ;;
  let (rv, f) := r : apr_status_t * apr_file in
  if failed rv then
    ap_log_error APLOG_ERR rv
      ("could not open transfer log file " ++ name' ++ ".")%string ;;
    ret None
  else ret (Some f).

Definition ap_close_log (f : option apr_file) : M apr_status_t :=
  rv <- apr_file_close f ;;
  if failed rv then
    ap_log_error APLOG_ERR rv "error closing transfer log file."%string ;;
    ret rv
  else ret rv.

(** *** [ap_lock_log], [ap_unlock_log] *)

(** What the module reads of a [request_rec]. *)
Record request_rec : Type := mk_request {
  request_time : Z
}.

(** The message of the debug line at the head of [ap_lock_log]; both
    times go through [(unsigned long)], 64 bits wide. *)
Definition lock_debug_msg (logt old : Z) : string :=
  ("New: " ++ decimal (logt mod 2 ^ 64) ++ ", old: "
   ++ decimal (old mod 2 ^ 64))%string.

(** Lines 210-234, run with the write lock held: the window is advanced,
    a new pool is created and the new file replaces the current one. The
    value is the status of [apr_pool_create], the one early exit. *)
Definition swap_log (logt : Z) : M apr_status_t :=
  rl <- get_rl ;;
  let ofd := fd rl in
  modify_rl (fun rl => with_logtime rl logt) ;;
  let par := pool_parent (pool rl) in
  c <- apr_pool_create par ;;
  let (rv, np) := c : apr_status_t * apr_pool in
  if failed rv then ret rv
  else
    nfd <- ap_open_log np (fname rl) (st rl) logt ;;
    modify_rl (fun rl => with_fd rl nfd) ;;
    (if is_null nfd then
       modify_rl (fun rl => with_fd rl ofd) ;;
       apr_pool_destroy np
     else
       ap_close_log ofd ;;
       apr_pool_destroy (pool rl) ;;
       modify_rl (fun rl => with_pool rl np)) ;;
    ret APR_SUCCESS.

(** Lines 210-247: the rotation and the way back to the read lock. *)
Definition rotate (logt : Z) : M apr_status_t :=
  rv <- swap_log logt ;;
  rl <- get_rl ;;
  if failed rv then
    APR_ANYLOCK_UNLOCK (write_lock rl) ;;
    ret rv
  else
    rv <- APR_ANYLOCK_UNLOCK (write_lock rl) ;;
    if failed rv then ret rv
    else
      rl <- get_rl ;;
      if is_null (fd rl) then ret APR_ENOENT
      else APR_ANYLOCK_LOCK (read_lock rl).

Definition ap_lock_log (r : request_rec) : M apr_status_t :=
  rl <- get_rl ;;
  let logt := ap_get_quantized_time (h_gmtoff h) (st rl) (request_time r) in
  ap_log_error APLOG_DEBUG 0 (lock_debug_msg logt (logtime rl)) ;;
  rv <- APR_ANYLOCK_LOCK (read_lock rl) ;;
  if failed rv then ret rv
  else
    rl <- get_rl ;;
    if (logt =? logtime rl) && negb (is_null (fd rl)) then ret APR_SUCCESS
    else
      rv <- APR_ANYLOCK_UNLOCK (read_lock rl) ;;
      if failed rv then ret rv
      else
        rv <- APR_ANYLOCK_LOCK (write_lock rl) ;;
        if failed rv then ret rv
        else
          rl <- get_rl ;;
          if (logt =? logtime rl) && negb (is_null (fd rl)) then
            rv <- APR_ANYLOCK_UNLOCK (write_lock rl) ;;
            if failed rv then ret rv
            else APR_ANYLOCK_LOCK (write_lock rl)
          else rotate logt.

Definition ap_unlock_log (r : request_rec) : M apr_status_t :=
  rl <- get_rl ;;
  APR_ANYLOCK_UNLOCK (read_lock rl).

(** *** [ap_rotated_log_writer] *)

(** The [handle] mod_log_config passes: [NULL] or the rotated log. *)
Inductive log_handle : Type :=
| NullHandle
| RotatedLog.

(** [strs] holds the pieces of the line, [strl[i]] being the length of
    [strs[i]] and [len] their sum: the buffer written is their
    concatenation. *)
Definition ap_rotated_log_writer (r : request_rec) (handle : log_handle)
  (strs : list string) : M apr_status_t :=
  match handle with
  | NullHandle =>
      ap_log_error APLOG_CRIT APR_EGENERAL
        "log rotation information not found."%string ;;
      ret APR_EGENERAL
  | RotatedLog =>
      let str := String.concat "" strs in
      rl <- get_rl ;;
      match enabled (st rl) with
      | RL_DISABLED => apr_file_write (fd rl) str
      | _ =>
          rv <- ap_lock_log r ;;
          if failed rv then ret rv
          else
            rl <- get_rl ;;
            rv <- apr_file_write (fd rl) str ;;
            if failed rv then ret rv
            else ap_unlock_log r
      end
  end.

(** A thread that logs one line after the other. *)
Fixpoint run_writes (reqs : list (request_rec * list string))
  : M (list apr_status_t) :=
  match reqs with
  | [] => ret []
  | (r, strs) :: rest =>
      rv <- ap_rotated_log_writer r RotatedLog strs ;;
      rvs <- run_writes rest ;;
      ret (rv :: rvs)
  end.

End Coordinator.

(** ** A reference host for concrete runs

    A C-locale [strftime] over the common directives, the proleptic
    Gregorian [apr_time_exp_gmt], and a host whose calls all succeed and
    in which no other thread runs. *)

Module Reference.

Fixpoint pad_left (c : ascii) (width : nat) (s : string) : string :=
  match width with
  | O => s
  | S k =>
      if (String.length s <=? k)%nat then String c (pad_left c k s)
      else s
  end.

Definition num (width : nat) (c : ascii) (z : Z) : string :=
  pad_left c width (decimal z).

Definition is_leap (y : Z) : bool :=
  ((y mod 4 =? 0) && negb (y mod 100 =? 0)) || (y mod 400 =? 0).

(** Days since 1970-01-01 to (year, month 1-12, day 1-31). *)
Definition civil_from_days (days : Z) : Z * Z * Z :=
  let z := days + 719468 in
  let era := z / 146097 in
  let doe := z - era * 146097 in
  let yoe := (doe - doe / 1460 + doe / 36524 - doe / 146096) / 365 in
  let y := yoe + era * 400 in
  let doy := doe - (365 * yoe + yoe / 4 - yoe / 100) in
  let mp := (5 * doy + 2) / 153 in
  let d := doy - (153 * mp + 2) / 5 + 1 in
  let m := if mp <? 10 then mp + 3 else mp - 9 in
  (if m <=? 2 then y + 1 else y, m, d).

Definition days_before_month (leap : bool) (m : Z) : Z :=
  let base := nth (Z.to_nat (m - 1))
                [0; 31; 59; 90; 120; 151; 181; 212; 243; 273; 304; 334] 0 in
  if leap && (2 <? m) then base + 1 else base.

Definition time_exp_gmt (t : Z) : apr_time_exp_t :=
  let secs := Z.quot t APR_USEC_PER_SEC in
  let days := secs / 86400 in
  let sod := secs mod 86400 in
  let '(y, m, d) := civil_from_days days in
  {| tm_usec := Z.rem t APR_USEC_PER_SEC;
     tm_sec := sod mod 60;
     tm_min := (sod / 60) mod 60;
     tm_hour := sod / 3600;
     tm_mday := d;
     tm_mon := m - 1;
     tm_year := y - 1900;
     tm_wday := (days + 4) mod 7;
     tm_yday := days_before_month (is_leap y) m + d - 1;
     tm_isdst := 0;
     tm_gmtoff := 0 |}.

Definition wday_abbr (d : Z) : string :=
  nth (Z.to_nat d) ["Sun"; "Mon"; "Tue"; "Wed"; "Thu"; "Fri"; "Sat"]%string
    "?"%string.

Definition mon_abbr (m : Z) : string :=
  nth (Z.to_nat m)
    ["Jan"; "Feb"; "Mar"; "Apr"; "May"; "Jun";
     "Jul"; "Aug"; "Sep"; "Oct"; "Nov"; "Dec"]%string "?"%string.

Definition hms (tm : apr_time_exp_t) : string :=
  (num 2 "0" (tm_hour tm) ++ ":" ++ num 2 "0" (tm_min tm) ++ ":"
   ++ num 2 "0" (tm_sec tm))%string.

Definition directive (d : ascii) (tm : apr_time_exp_t) : string :=
  let year := tm_year tm + 1900 in
  if Ascii.eqb d "Y" then decimal year
  else if Ascii.eqb d "y" then num 2 "0" (year mod 100)
  else if Ascii.eqb d "m" then num 2 "0" (tm_mon tm + 1)
  else if Ascii.eqb d "d" then num 2 "0" (tm_mday tm)
  else if Ascii.eqb d "e" then num 2 " " (tm_mday tm)
  else if Ascii.eqb d "H" then num 2 "0" (tm_hour tm)
  else if Ascii.eqb d "M" then num 2 "0" (tm_min tm)
  else if Ascii.eqb d "S" then num 2 "0" (tm_sec tm)
  else if Ascii.eqb d "j" then num 3 "0" (tm_yday tm + 1)
  else if Ascii.eqb d "a" then wday_abbr (tm_wday tm)
  else if Ascii.eqb d "b" then mon_abbr (tm_mon tm)
  else if Ascii.eqb d "T" then hms tm
  else if Ascii.eqb d "F" then
    (decimal year ++ "-" ++ num 2 "0" (tm_mon tm + 1) ++ "-"
     ++ num 2 "0" (tm_mday tm))%string
  else if Ascii.eqb d "c" then
    (wday_abbr (tm_wday tm) ++ " " ++ mon_abbr (tm_mon tm) ++ " "
     ++ num 2 " " (tm_mday tm) ++ " " ++ hms tm ++ " " ++ decimal year)%string
  else if Ascii.eqb d "%" then "%"%string
  else String "%" (String d EmptyString).

Fixpoint strftime_c (format : string) (tm : apr_time_exp_t) : string :=
  match format with
  | EmptyString => EmptyString
  | String a rest =>
      if Ascii.eqb a "%" then
        match rest with
        | EmptyString => String a EmptyString
        | String d rest' => (directive d tm ++ strftime_c rest' tm)%string
        end
      else String a (strftime_c rest tm)
  end.

(** On overflow the buffer is taken to hold the part that fitted. *)
Definition libc_c : libc_strftime :=
  {| strftime_full := strftime_c;
     strftime_overflow :=
       fun max format tm => substring 0 (max - 1) (strftime_c format tm) |}.

(** Every call succeeds; handles and pools are numbered by the length of
    the history; no other thread runs. *)
Definition quiet_host : host :=
  {| h_gmtoff := fun _ => 0;
     h_time_exp_gmt := time_exp_gmt;
     h_libc := libc_c;
     h_lock := fun _ _ => APR_SUCCESS;
     h_unlock := fun _ => APR_SUCCESS;
     h_pool_create := fun tr _ => (APR_SUCCESS, List.length tr);
     h_file_open := fun tr _ => (APR_SUCCESS, List.length tr);
     h_file_close := fun _ _ => APR_SUCCESS;
     h_file_write := fun _ _ _ => APR_SUCCESS;
     h_others := fun _ _ rl => rl |}.

(** The quiet host in a time zone [off] seconds ahead of UTC. *)
Definition zone_host (off : Z) : host :=
  {| h_gmtoff := fun _ => off;
     h_time_exp_gmt := time_exp_gmt;
     h_libc := libc_c;
     h_lock := fun _ _ => APR_SUCCESS;
     h_unlock := fun _ => APR_SUCCESS;
     h_pool_create := fun tr _ => (APR_SUCCESS, List.length tr);
     h_file_open := fun tr _ => (APR_SUCCESS, List.length tr);
     h_file_close := fun _ _ => APR_SUCCESS;
     h_file_write := fun _ _ _ => APR_SUCCESS;
     h_others := fun _ _ rl => rl |}.

(** The quiet host on a file system that refuses every open with
    [EACCES]. *)
Definition no_open_host : host :=
  {| h_gmtoff := fun _ => 0;
     h_time_exp_gmt := time_exp_gmt;
     h_libc := libc_c;
     h_lock := fun _ _ => APR_SUCCESS;
     h_unlock := fun _ => APR_SUCCESS;
     h_pool_create := fun tr _ => (APR_SUCCESS, List.length tr);
     h_file_open := fun tr _ => (13, 0%nat);
     h_file_close := fun _ _ => APR_SUCCESS;
     h_file_write := fun _ _ _ => APR_SUCCESS;
     h_others := fun _ _ rl => rl |}.

(** The quiet host on a full disk: every write fails with [ENOSPC]. *)
Definition full_disk_host : host :=
  {| h_gmtoff := fun _ => 0;
     h_time_exp_gmt := time_exp_gmt;
     h_libc := libc_c;
     h_lock := fun _ _ => APR_SUCCESS;
     h_unlock := fun _ => APR_SUCCESS;
     h_pool_create := fun tr _ => (APR_SUCCESS, List.length tr);
     h_file_open := fun tr _ => (APR_SUCCESS, List.length tr);
     h_file_close := fun _ _ => APR_SUCCESS;
     h_file_write := fun _ _ _ => 28;
     h_others := fun _ _ rl => rl |}.

(** A host in which, whenever this thread has released a lock, another
    thread has rotated the log to the window that starts at [t]: file [f]
    in pool [q] is current. *)
Definition racing_host (t : Z) (f : apr_file) (q : apr_pool) : host :=
  {| h_gmtoff := fun _ => 0;
     h_time_exp_gmt := time_exp_gmt;
     h_libc := libc_c;
     h_lock := fun _ _ => APR_SUCCESS;
     h_unlock := fun _ => APR_SUCCESS;
     h_pool_create := fun tr _ => (APR_SUCCESS, List.length tr);
     h_file_open := fun tr _ => (APR_SUCCESS, List.length tr);
     h_file_close := fun _ _ => APR_SUCCESS;
     h_file_write := fun _ _ _ => APR_SUCCESS;
     h_others :=
       fun _ pt rl =>
         match pt with
         | BeforeLock => rl
         | AfterUnlock => with_pool (with_fd (with_logtime rl t) (Some f)) q
         end |}.

(** A log of the threaded server, open on handle 1 in pool 1 of parent 0,
    for the window that starts at [t]. *)
Definition threaded_log (ls : log_options) (base : string) (t : Z)
  : rotated_log :=
  {| pool := mk_pool 1 0;
     fname := base;
     fd := Some 1%nat;
     logtime := t;
     read_lock := apr_anylock_readlock;
     write_lock := apr_anylock_writelock;
     st := ls |}.

Definition start (rl : rotated_log) : world :=
  {| w_rl := rl; w_held := []; w_trace := [] |}.

End Reference.

(** ** Threads: an interleaving model of the writer

    [ap_rotated_log_writer] with rotation enabled, [ap_lock_log] inlined,
    cut into atomic steps: one step for every lock call and for every
    access to the shared [rotated_log]. The server is threaded:
    [read_lock] and [write_lock] are the two sides of one reader-writer
    lock. A thread blocks on a lock it cannot have; the lock, pool, close
    and write calls succeed; [apr_file_open] succeeds on the names
    [can_open] accepts. Files are opened for append: a write adds the line
    at the end of the file the handle is open on. *)

Module Concurrent.

Inductive label : Type :=
| L_start              (* line 175: the window of the request *)
| L_rdlock1            (* line 180 *)
| L_check1             (* line 185 *)
| L_unlock1            (* line 188 *)
| L_wrlock             (* line 193 *)
| L_check2             (* line 200 *)
| L_unlock2            (* line 202 *)
| L_relock             (* line 207 *)
| L_swap               (* lines 210-211 *)
| L_pool               (* lines 216-217 *)
| L_open               (* line 223 *)
| L_restore            (* lines 225-227 *)
| L_close              (* lines 230-233 *)
| L_unlock3            (* line 237 *)
| L_checkfd            (* line 242 *)
| L_rdlock2            (* line 247 *)
| L_write              (* line 287 *)
| L_unlock4            (* line 291 *)
| L_done (rv : apr_status_t).

Record thread : Type := mk_thread {
  t_pc : label;
  t_req : request_rec;
  t_line : string;
  t_logt : Z;
  t_ofd : option apr_file;
  t_np : apr_pool;
  t_holds : option lock_mode
}.

(** What the threads share: the log, the lock (its writer and its
    readers, by thread number), the files by name, the open handles with
    the name each is open on, the next fresh handle or pool number, and
    the names opened so far. *)
Record shared : Type := mk_shared {
  s_rl : rotated_log;
  s_writer : option nat;
  s_readers : list nat;
  s_files : string -> string;
  s_handles : list (apr_file * string);
  s_next : nat;
  s_opened : list string
}.

Definition config : Type := (shared * list thread)%type.

Definition goto (t : thread) (l : label) : thread :=
  mk_thread l (t_req t) (t_line t) (t_logt t) (t_ofd t) (t_np t) (t_holds t).

Definition holding (t : thread) (m : option lock_mode) : thread :=
  mk_thread (t_pc t) (t_req t) (t_line t) (t_logt t) (t_ofd t) (t_np t) m.

Definition set_rl (s : shared) (rl : rotated_log) : shared :=
  mk_shared rl (s_writer s) (s_readers s) (s_files s) (s_handles s)
    (s_next s) (s_opened s).

Definition rdlock (i : nat) (s : shared) : option shared :=
  match s_writer s with
  | None =>
      Some (mk_shared (s_rl s) None (i :: s_readers s) (s_files s)
              (s_handles s) (s_next s) (s_opened s))
  | Some _ => None
  end.

Definition wrlock (i : nat) (s : shared) : option shared :=
  match s_writer s, s_readers s with
  | None, [] =>
      Some (mk_shared (s_rl s) (Some i) [] (s_files s)
              (s_handles s) (s_next s) (s_opened s))
  | _, _ => None
  end.

Definition unlock (i : nat) (m : option lock_mode) (s : shared) : shared :=
  match m with
  | Some Exclusive =>
      mk_shared (s_rl s) None (s_readers s) (s_files s)
        (s_handles s) (s_next s) (s_opened s)
  | Some Shared =>
      mk_shared (s_rl s) (s_writer s) (remove Nat.eq_dec i (s_readers s))
        (s_files s) (s_handles s) (s_next s) (s_opened s)
  | None => s
  end.

Definition lookup_handle (hd : apr_file) (hs : list (apr_file * string))
  : option string :=
  match find (fun p => (fst p =? hd)%nat) hs with
  | Some p => Some (snd p)
  | None => None
  end.

Definition close_handle (f : option apr_file) (hs : list (apr_file * string))
  : list (apr_file * string) :=
  match f with
  | Some hd => filter (fun p => negb (fst p =? hd)%nat) hs
  | None => hs
  end.

Definition append_file (name line : string) (fs : string -> string)
  : string -> string :=
  fun n => if String.eqb n name then (fs n ++ line)%string else fs n.

(** [logt == rl->logtime && NULL != rl->fd] *)
Definition current (logt : Z) (rl : rotated_log) : bool :=
  (logt =? logtime rl) && negb (is_null (fd rl)).

Section Steps.

Variable gmtoff : Z -> Z.
Variable libc : libc_strftime.
Variable time_exp_gmt : Z -> apr_time_exp_t.
Variable can_open : string -> bool.

(** One step of thread [i], or [None] when it is blocked or done. *)
Definition thread_step (i : nat) (s : shared) (t : thread)
  : option (shared * thread) :=
  let rl := s_rl s in
  match t_pc t with
  | L_start =>
      Some (s,
            mk_thread L_rdlock1 (t_req t) (t_line t)
              (ap_get_quantized_time gmtoff (st rl) (request_time (t_req t)))
              (t_ofd t) (t_np t) (t_holds t))
  | L_rdlock1 =>
      match rdlock i s with
      | Some s' => Some (s', holding (goto t L_check1) (Some Shared))
      | None => None
      end
  | L_check1 =>
      if current (t_logt t) rl then Some (s, goto t L_write)
      else Some (s, goto t L_unlock1)
  | L_unlock1 =>
      Some (unlock i (t_holds t) s, holding (goto t L_wrlock) None)
  | L_wrlock =>
      match wrlock i s with
      | Some s' => Some (s', holding (goto t L_check2) (Some Exclusive))
      | None => None
      end
  | L_check2 =>
      if current (t_logt t) rl then Some (s, goto t L_unlock2)
      else Some (s, goto t L_swap)
  | L_unlock2 =>
      Some (unlock i (t_holds t) s, holding (goto t L_relock) None)
  | L_relock =>
      match wrlock i s with
      | Some s' => Some (s', holding (goto t L_write) (Some Exclusive))
      | None => None
      end
  | L_swap =>
      Some (set_rl s (with_logtime rl (t_logt t)),
            mk_thread L_pool (t_req t) (t_line t) (t_logt t)
              (fd rl) (t_np t) (t_holds t))
  | L_pool =>
      Some (mk_shared rl (s_writer s) (s_readers s) (s_files s)
              (s_handles s) (S (s_next s)) (s_opened s),
            mk_thread L_open (t_req t) (t_line t) (t_logt t) (t_ofd t)
              (mk_pool (s_next s) (pool_parent (pool rl))) (t_holds t))
  | L_open =>
      let name := log_name libc time_exp_gmt (fname rl) (st rl) (t_logt t) in
      if can_open name then
        Some (mk_shared (with_fd rl (Some (s_next s)))
                (s_writer s) (s_readers s) (s_files s)
                ((s_next s, name) :: s_handles s) (S (s_next s))
                (s_opened s ++ [name]),
              goto t L_close)
      else
        Some (mk_shared (with_fd rl None)
                (s_writer s) (s_readers s) (s_files s)
                (s_handles s) (s_next s) (s_opened s ++ [name]),
              goto t L_restore)
  | L_restore =>
      Some (set_rl s (with_fd rl (t_ofd t)), goto t L_unlock3)
  | L_close =>
      Some (mk_shared (with_pool rl (t_np t))
              (s_writer s) (s_readers s) (s_files s)
              (close_handle (t_ofd t) (s_handles s)) (s_next s) (s_opened s),
            goto t L_unlock3)
  | L_unlock3 =>
      Some (unlock i (t_holds t) s, holding (goto t L_checkfd) None)
  | L_checkfd =>
      if is_null (fd rl) then Some (s, goto t (L_done APR_ENOENT))
      else Some (s, goto t L_rdlock2)
  | L_rdlock2 =>
      match rdlock i s with
      | Some s' => Some (s', holding (goto t L_write) (Some Shared))
      | None => None
      end
  | L_write =>
      match fd rl with
      | Some hd =>
          match lookup_handle hd (s_handles s) with
          | Some name =>
              Some (mk_shared rl (s_writer s) (s_readers s)
                      (append_file name (t_line t) (s_files s))
                      (s_handles s) (s_next s) (s_opened s),
                    goto t L_unlock4)
          | None => Some (s, goto t (L_done 9))
          end
      | None => Some (s, goto t (L_done 9))
      end
  | L_unlock4 =>
      Some (unlock i (t_holds t) s, holding (goto t (L_done APR_SUCCESS)) None)
  | L_done _ => None
  end.

Fixpoint set_nth {A : Type} (i : nat) (x : A) (l : list A) : list A :=
  match l with
  | [] => []
  | y :: l' =>
      match i with
      | O => x :: l'
      | S k => y :: set_nth k x l'
      end
  end.

(** The step of the configuration in which thread [i] is scheduled. *)
Definition step_at (i : nat) (c : config) : option config :=
  match nth_error (snd c) i with
  | Some t =>
      match thread_step i (fst c) t with
      | Some (s', t') => Some (s', set_nth i t' (snd c))
      | None => None
      end
  | None => None
  end.

Inductive reachable (c0 : config) : config -> Prop :=
| reach_here : reachable c0 c0
| reach_step c i c' :
    reachable c0 c -> step_at i c = Some c' -> reachable c0 c'.

(** A schedule, run from a configuration: a thread that cannot step when
    its turn comes is passed over. *)
Fixpoint run (sched : list nat) (c : config) : config :=
  match sched with
  | [] => c
  | i :: sched' =>
      match step_at i c with
      | Some c' => run sched' c'
      | None => run sched' c
      end
  end.

End Steps.

Definition is_done (t : thread) : bool :=
  match t_pc t with
  | L_done _ => true
  | _ => false
  end.

Definition finished (c : config) : Prop :=
  forall t, In t (snd c) -> is_done t = true.

(** A thread that waits for the lock, or has returned. *)
Definition blocked (s : shared) (t : thread) : bool :=
  match t_pc t with
  | L_rdlock1 | L_rdlock2 => negb (is_null (s_writer s))
  | L_wrlock | L_relock =>
      negb (is_null (s_writer s))
      || match s_readers s with [] => false | _ :: _ => true end
  | L_done _ => true
  | _ => false
  end.

(** The threads that log the lines of [reqs], each for a request received
    at the instant paired with it. *)
Definition spawn_all (reqs : list (Z * string)) : list thread :=
  map (fun q => mk_thread L_start (mk_request (fst q)) (snd q) 0 None
                  (mk_pool 0 0) None) reqs.

(** A thread about to log [line] for a request received at [tm]. *)
Definition spawn (tm : Z) (line : string) : thread :=
  mk_thread L_start (mk_request tm) line 0 None (mk_pool 0 0) None.

(** The shared state in which [rl] is the log, its file (when it has one)
    is open on [name0], nobody holds the lock, and the files are [fs]. *)
Definition boot (rl : rotated_log) (name0 : string) (fs : string -> string)
  : shared :=
  mk_shared rl None [] fs
    (match fd rl with
     | Some hd => [(hd, name0)]
     | None => []
     end)
    (match fd rl with
     | Some hd => S (Nat.max hd (pool_id (pool rl)))
     | None => S (pool_id (pool rl))
     end)
    [].

(** The steps a thread has left, at most. *)
Definition rank (l : label) : nat :=
  match l with
  | L_start => 18
  | L_rdlock1 => 17
  | L_check1 => 16
  | L_unlock1 => 15
  | L_wrlock => 14
  | L_check2 => 13
  | L_unlock2 => 12
  | L_relock => 11
  | L_swap => 12
  | L_pool => 11
  | L_open => 10
  | L_restore => 9
  | L_close => 9
  | L_unlock3 => 8
  | L_checkfd => 7
  | L_rdlock2 => 6
  | L_write => 5
  | L_unlock4 => 4
  | L_done _ => 0
  end.

Definition steps_left (c : config) : nat :=
  list_sum (map (fun t => rank (t_pc t)) (snd c)).

End Concurrent.

(** ** Vocabulary of the properties *)

(** The local adjustment and the adjusted instant of the quantizer, as
    mathematical integers. *)
Definition local_adjustment (gmtoff : Z -> Z) (ls : log_options) (now : Z) : Z :=
  if localt ls =? 0 then 0 else gmtoff now * APR_USEC_PER_SEC.

Definition adjusted_instant (gmtoff : Z -> Z) (ls : log_options) (now : Z) : Z :=
  now + offset ls + local_adjustment gmtoff ls now.

(** The names handed to [apr_file_open], in order. *)
Fixpoint opened_names (tr : list event) : list string :=
  match tr with
  | [] => []
  | EvFileOpen name _ _ _ :: tr' => name :: opened_names tr'
  | _ :: tr' => opened_names tr'
  end.

(** The handles and buffers handed to [apr_file_write], in order. *)
Fixpoint written (tr : list event) : list (option apr_file * string) :=
  match tr with
  | [] => []
  | EvFileWrite f buf _ :: tr' => (f, buf) :: written tr'
  | _ :: tr' => written tr'
  end.

(** The messages sent to the error log at a level. *)
Fixpoint logged (lvl : loglevel) (tr : list event) : list string :=
  match tr with
  | [] => []
  | EvLog l _ msg :: tr' =>
      match l, lvl with
      | APLOG_CRIT, APLOG_CRIT | APLOG_ERR, APLOG_ERR
      | APLOG_WARNING, APLOG_WARNING | APLOG_DEBUG, APLOG_DEBUG =>
          msg :: logged lvl tr'
      | _, _ => logged lvl tr'
      end
  | _ :: tr' => logged lvl tr'
  end.

(** The allocation scopes alive after a run of events, from those alive
    before: a successful [apr_pool_create] adds one, [apr_pool_destroy]
    removes one. *)
Definition pool_eqb (p q : apr_pool) : bool :=
  (pool_id p =? pool_id q)%nat && (pool_parent p =? pool_parent q)%nat.

Fixpoint live_pools (alive : list apr_pool) (tr : list event) : list apr_pool :=
  match tr with
  | [] => alive
  | EvPoolCreate _ rv np :: tr' =>
      live_pools (if is_success rv then alive ++ [np] else alive) tr'
  | EvPoolDestroy p :: tr' =>
      live_pools (filter (fun q => negb (pool_eqb p q)) alive) tr'
  | _ :: tr' => live_pools alive tr'
  end.

(** No other thread touches the log. *)
Definition quiet (h : host) : Prop :=
  forall tr pt rl, h_others h tr pt rl = rl.

(** Other threads never take the current file away: they only run the
    module's own code, which replaces a handle or keeps it. *)
Definition fd_stable (h : host) : Prop :=
  forall tr pt rl, fd rl <> None -> fd (h_others h tr pt rl) <> None.

Definition locks_succeed (h : host) : Prop :=
  (forall tr m, h_lock h tr m = APR_SUCCESS)
  /\ (forall tr, h_unlock h tr = APR_SUCCESS).

Definition writes_succeed (h : host) : Prop :=
  forall tr f buf, h_file_write h tr f buf = APR_SUCCESS.

Definition pools_succeed (h : host) : Prop :=
  forall tr par, fst (h_pool_create h tr par) = APR_SUCCESS.

Definition opens_fail (h : host) : Prop :=
  forall tr name, fst (h_file_open h tr name) <> APR_SUCCESS.

Definition opens_succeed (h : host) : Prop :=
  forall tr name, fst (h_file_open h tr name) = APR_SUCCESS.

(** The window a request falls in. *)
Definition window_of (h : host) (rl : rotated_log) (r : request_rec) : Z :=
  ap_get_quantized_time (h_gmtoff h) (st rl) (request_time r).

(** What a successful [APR_ANYLOCK_LOCK] and [APR_ANYLOCK_UNLOCK] leave in
    the trace and in the list of held locks, by kind of lock. *)
Definition lock_events (lck : apr_anylock_type) : list event :=
  match lck with
  | apr_anylock_none => []
  | apr_anylock_readlock => [EvLock Shared APR_SUCCESS]
  | apr_anylock_writelock => [EvLock Exclusive APR_SUCCESS]
  end.

Definition lock_push (lck : apr_anylock_type) (held : list lock_mode)
  : list lock_mode :=
  match lck with
  | apr_anylock_none => held
  | apr_anylock_readlock => Shared :: held
  | apr_anylock_writelock => Exclusive :: held
  end.

Definition unlock_events (lck : apr_anylock_type) : list event :=
  match lck with
  | apr_anylock_none => []
  | _ => [EvUnlock APR_SUCCESS]
  end.

Definition unlock_pop (lck : apr_anylock_type) (held : list lock_mode)
  : list lock_mode :=
  match lck with
  | apr_anylock_none => held
  | _ => tl held
  end.

(** A status and world in which success comes with a current file. *)
Definition success_has_file (res : apr_status_t * world) : Prop :=
  fst res = APR_SUCCESS -> fd (w_rl (snd res)) <> None.

(** ** Vocabulary of the race across a window boundary

    The log [rl0] has file [f0] open on [name0] for an old window; the
    files are [fs0]; the requests all fall in the window that starts at
    [T], a window the log is not on. *)

Module Race.
Import Concurrent.

(** How a lock call of thread [i] moves the lock and what the thread
    holds. *)
Inductive lock_move (i : nat) (s : shared) (m : option lock_mode)
  (s' : shared) (m' : option lock_mode) : Prop :=
| take_shared :
    s_writer s = None -> m = None ->
    s_writer s' = None -> s_readers s' = i :: s_readers s ->
    m' = Some Shared -> lock_move i s m s' m'
| take_exclusive :
    s_writer s = None -> s_readers s = [] -> m = None ->
    s_writer s' = Some i -> s_readers s' = [] ->
    m' = Some Exclusive -> lock_move i s m s' m'
| drop_exclusive :
    m = Some Exclusive ->
    s_writer s' = None -> s_readers s' = s_readers s ->
    m' = None -> lock_move i s m s' m'
| drop_shared :
    m = Some Shared ->
    s_writer s' = s_writer s ->
    s_readers s' = remove Nat.eq_dec i (s_readers s) ->
    m' = None -> lock_move i s m s' m'.

Section Shapes.

Variable libc : libc_strftime.
Variable time_exp_gmt : Z -> apr_time_exp_t.
Variable rl0 : rotated_log.
Variable f0 : apr_file.
Variable name0 : string.
Variable fs0 : string -> string.
Variable T : Z.

Definition s0 : shared := boot rl0 name0 fs0.
Definition n0 : nat := s_next s0.
Definition hdT : apr_file := S n0.
Definition npT : apr_pool := mk_pool n0 (pool_parent (pool rl0)).
Definition nameT : string :=
  log_name libc time_exp_gmt (fname rl0) (st rl0) T.
Definition rlS : rotated_log := with_logtime rl0 T.
Definition rlO : rotated_log := with_fd rlS (Some hdT).
Definition rlT : rotated_log := with_pool rlO npT.

(** How far the one rotation has come. *)
Inductive stage : Type :=
| Pre
| Swapped
| Pooled
| Opened
| Post.

(** The log, the handles, the next fresh number and the names opened, at
    each stage. *)
Definition shape (g : stage) (s : shared) : Prop :=
  match g with
  | Pre =>
      s_rl s = rl0 /\ s_handles s = [(f0, name0)]
      /\ s_next s = n0 /\ s_opened s = []
  | Swapped =>
      s_rl s = rlS /\ s_handles s = [(f0, name0)]
      /\ s_next s = n0 /\ s_opened s = []
  | Pooled =>
      s_rl s = rlS /\ s_handles s = [(f0, name0)]
      /\ s_next s = S n0 /\ s_opened s = []
  | Opened =>
      s_rl s = rlO /\ s_handles s = [(hdT, nameT); (f0, name0)]
      /\ s_next s = S hdT /\ s_opened s = [nameT]
  | Post =>
      s_rl s = rlT /\ s_handles s = [(hdT, nameT)]
      /\ s_next s = S hdT /\ s_opened s = [nameT]
  end.

(** The label of the rotating thread, at the stages that have one. *)
Definition rotating (g : stage) : option label :=
  match g with
  | Pre => None
  | Swapped => Some L_pool
  | Pooled => Some L_open
  | Opened => Some L_close
  | Post => None
  end.

Definition before_rotation (l : label) : bool :=
  match l with
  | L_start | L_rdlock1 | L_check1 | L_unlock1 | L_wrlock | L_check2 => true
  | _ => false
  end.

Definition after_rotation (l : label) : bool :=
  match l with
  | L_unlock2 | L_relock | L_unlock3 | L_checkfd | L_rdlock2
  | L_write | L_unlock4 => true
  | L_done rv => rv =? APR_SUCCESS
  | _ => false
  end.

(** Where a thread may be at a stage. *)
Definition allowed (g : stage) (l : label) : bool :=
  before_rotation l
  || match g, l with
     | Pre, L_swap => true
     | Swapped, L_pool => true
     | Pooled, L_open => true
     | Opened, L_close => true
     | Post, _ => after_rotation l
     | _, _ => false
     end.

(** The lock a thread holds at a label. *)
Definition holds_ok (l : label) (m : option lock_mode) : bool :=
  match l with
  | L_start | L_rdlock1 | L_wrlock | L_relock | L_checkfd | L_rdlock2 =>
      match m with None => true | _ => false end
  | L_check1 | L_unlock1 =>
      match m with Some Shared => true | _ => false end
  | L_check2 | L_unlock2 | L_swap | L_pool | L_open | L_restore | L_close
  | L_unlock3 =>
      match m with Some Exclusive => true | _ => false end
  | L_write | L_unlock4 =>
      match m with Some _ => true | None => false end
  | L_done rv =>
      if rv =? APR_SUCCESS then match m with None => true | _ => false end
      else true
  end.

Definition wrote (t : thread) : bool :=
  match t_pc t with
  | L_unlock4 | L_done _ => true
  | _ => false
  end.

Definition lines_written (ts : list thread) : list string :=
  map t_line (filter wrote ts).

Variable gmtoff : Z -> Z.

(** What holds of thread [i] at stage [g]. *)
Record thread_inv (g : stage) (s : shared) (i : nat) (t : thread) : Prop := {
  ti_holds : holds_ok (t_pc t) (t_holds t) = true;
  ti_writer : t_holds t = Some Exclusive -> s_writer s = Some i;
  ti_reader : t_holds t = Some Shared -> In i (s_readers s);
  ti_window :
    ap_get_quantized_time gmtoff (st rl0) (request_time (t_req t)) = T;
  ti_logt : t_pc t <> L_start -> t_logt t = T;
  ti_allowed : allowed g (t_pc t) = true;
  ti_ofd :
    t_pc t = L_pool \/ t_pc t = L_open \/ t_pc t = L_close ->
    t_ofd t = Some f0;
  ti_np : t_pc t = L_open \/ t_pc t = L_close -> t_np t = npT
}.

(** What holds of a configuration at stage [g]. *)
Record inv_at (lines : list string) (g : stage) (c : config) : Prop := {
  inv_excl : forall i, s_writer (fst c) = Some i -> s_readers (fst c) = [];
  inv_writer :
    forall i, s_writer (fst c) = Some i ->
              exists t, nth_error (snd c) i = Some t
                        /\ t_holds t = Some Exclusive;
  inv_reader :
    forall i, In i (s_readers (fst c)) ->
              exists t, nth_error (snd c) i = Some t
                        /\ t_holds t = Some Shared;
  inv_shape : shape g (fst c);
  inv_rotating :
    forall l, rotating g = Some l ->
              exists i t, nth_error (snd c) i = Some t /\ t_pc t = l;
  inv_files :
    exists ws,
      Permutation ws (lines_written (snd c))
      /\ forall n,
           s_files (fst c) n
           = if String.eqb n nameT
             then (fs0 n ++ String.concat "" ws)%string
             else fs0 n;
  inv_lines : map t_line (snd c) = lines;
  inv_threads :
    forall i t, nth_error (snd c) i = Some t -> thread_inv g (fst c) i t
}.

Definition inv (lines : list string) (c : config) : Prop :=
  exists g, inv_at lines g c.

End Shapes.

(** A race to run: the threaded log of the reference host on window 0,
    its file with one line in it, and three requests of the next day. *)
Definition demo_log : rotated_log :=
  Reference.threaded_log make_log_options "access.log" 0.

Definition demo_files : string -> string :=
  fun n => if String.eqb n "access.log.0" then "old;"%string else ""%string.

Definition demo_reqs : list (Z * string) :=
  [(90000000000, "a;"%string); (90000000001, "b;"%string);
   (90000000002, "c;"%string)].

(** The same three lines, the second for a request of the day before
    that ends late. *)
Definition late_reqs : list (Z * string) :=
  [(90000000000, "a;"%string); (80000000001, "b;"%string);
   (90000000002, "c;"%string)].

(** Schedules: the threads in turn, one step each, [rounds] times; and
    the threads one after the other, [steps] steps each. *)
Definition round_robin (n rounds : nat) : list nat :=
  List.concat (repeat (seq 0 n) rounds).

Definition one_by_one (n steps : nat) : list nat :=
  flat_map (fun i => repeat i steps) (seq 0 n).

Definition demo_run (sched : list nat) (reqs : list (Z * string)) : config :=
  run (fun _ => 0) Reference.libc_c Reference.time_exp_gmt (fun _ => true)
    sched (boot demo_log "access.log.0" demo_files, spawn_all reqs).

End Race.

(** ** Building the configuration and the log

    The directive handlers applied in sequence, [merge_log_options], and
    [ap_rotated_log_writer_init]. *)

(** [*add = *base; return add;] *)
Definition merge_log_options (base add : log_options) : log_options := base.

(** One directive of the configuration file, with the values its handler
    receives. *)
Inductive directive : Type :=
| RotateLogs (flag : Z)
| RotateLogsLocalTime (flag : Z)
| RotateInterval (inte offs : option Z).

Definition apply_directive (ls : log_options) (d : directive) : log_options :=
  match d with
  | RotateLogs flag => set_rotated_logs ls flag
  | RotateLogsLocalTime flag => set_localtime ls flag
  | RotateInterval inte offs => set_interval ls inte offs
  end.

(** The options of a server after its directives, from the defaults. *)
Definition configure (ds : list directive) : log_options :=
  fold_left apply_directive ds make_log_options.

(** [APR_OS_START_ERROR + 24]. *)
Definition APR_EBADPATH : apr_status_t := 20024.

(** What [ap_rotated_log_writer_init] asks of the server besides pools,
    files and the error log: the piped-log calls, the thread limit of the
    MPM, the creation of the lock, the clock, the server root and the
    environment variable [AP_PARENT_PID]. *)
Record init_env : Type := mk_init_env {
  e_open_piped_log : string -> option nat;
  e_piped_log_write_fd : nat -> option apr_file;
  e_max_threads : Z;
  e_rwlock_create : apr_status_t;
  e_time_now : Z;
  e_server_root_relative : string -> option string;
  e_parent_pid : option string
}.

(** The value of [ap_rotated_log_writer_init]: [NULL]; or the log of a
    pipe, whose pool and name are [NULL], whose locks are of kind none and
    whose window is 0; or a log on a file. *)
Inductive init_result : Type :=
| InitNull
| InitPiped (f : apr_file) (ls : log_options)
| InitLog (rl : rotated_log).

Definition with_enabled (ls : log_options) (e : rl_enabled) : log_options :=
  mk_log_options e (interval ls) (offset ls) (localt ls).

Section Init.

Variable h : host.
Variable e : init_env.

(** Lines 337-354: the kinds of the read and the write lock. *)
Definition init_locks : M (apr_anylock_type * apr_anylock_type) :=
  if 1 <? e_max_threads e then
    if failed (e_rwlock_create e) then
      ap_log_error APLOG_CRIT (e_rwlock_create e)
        ("could not initialize log rotation write lock, "
         ++ "transfer log may become corrupted")%string ;;
      ret (apr_anylock_none, apr_anylock_none)
    else ret (apr_anylock_readlock, apr_anylock_writelock)
  else ret (apr_anylock_none, apr_anylock_none).

(** [*name == c] *)
Definition starts_with (name : string) (c : ascii) : bool :=
  match name with
  | EmptyString => false
  | String a _ => Ascii.eqb a c
  end.

(** Lines 315-334: the log of a pipe; the program is [name + 1]. *)
Definition init_piped (ls : log_options) (name : string) : M init_result :=
  ap_log_error APLOG_WARNING APR_SUCCESS
    ("disabled log rotation for piped log " ++ name ++ ".")%string ;;
  match e_open_piped_log e (str_next name) with
  | None =>
      ap_log_error APLOG_CRIT APR_EGENERAL
        "piped log file not loaded."%string ;;
      ret InitNull
  | Some pl =>
      match e_piped_log_write_fd e pl with
      | None =>
          ap_log_error APLOG_CRIT APR_EGENERAL
            "piped log file handle not loaded."%string ;;
          ret InitNull
      | Some f => ret (InitPiped f (with_enabled ls RL_DISABLED))
      end
  end.

(** Lines 337-386: the log of a file. *)
Definition init_file (p : nat) (ls : log_options) (name : string)
  : M init_result :=
  locks <- init_locks ;;
  let (rd, wr) := locks : apr_anylock_type * apr_anylock_type in
  let logt := ap_get_quantized_time (h_gmtoff h) ls (e_time_now e) in
  let st1 :=
    if is_null (strchr name "%"%char) then ls
    else with_enabled ls RL_SUBSTITUTIONS in
  match e_server_root_relative e name with
  | None =>
      ap_log_error APLOG_ERR APR_EBADPATH
        ("invalid transfer log path " ++ name ++ ".")%string ;;
      ret InitNull
  | Some path =>
      c <- apr_pool_create h p ;;
      let (rv, np) := c : apr_status_t * apr_pool in
      if failed rv then
        ap_log_error APLOG_ERR rv "can't make log rotation pool."%string ;;
        ret InitNull
      else
        nfd <- ap_open_log h np path st1 logt ;;
        match nfd with
        | None => ret InitNull
        | Some f =>
            match e_parent_pid e with
            | None =>
                ap_close_log h (Some f) ;;
                ret (InitLog (mk_rotated_log np path None logt rd wr st1))
            | Some _ =>
                ret (InitLog
                       (mk_rotated_log np path (Some f) logt rd wr st1))
            end
        end
  end.

Definition ap_rotated_log_writer_init (p : nat) (ls : log_options)
  (name : string) : M init_result :=
  if starts_with name "|"%char then init_piped ls name
  else init_file p ls name.

End Init.

(** ** Installing the writer: [log_rotate_open_logs] *)

Definition OK : Z := 0.
Definition DECLINED : Z := -1.

(** The optional functions mod_log_config may export. *)
Record optional_fns : Type := mk_optional_fns {
  have_set_writer_init : bool;
  have_set_writer : bool
}.

(** The callbacks mod_log_config has been given by this module. *)
Record installed : Type := mk_installed {
  writer_init_set : bool;
  writer_set : bool
}.

(** [log_rotate_open_logs]: the status of the hook, the options of the
    server and the callbacks installed when it returns. *)
Definition log_rotate_open_logs (fns : optional_fns) (ls : log_options)
  (cb : installed) : M (Z * log_options * installed) :=
  match enabled ls with
  | RL_DISABLED => ret (DECLINED, ls, cb)
  | _ =>
      if negb (have_set_writer_init fns) then
        ap_log_error APLOG_ERR APR_SUCCESS
          ("can't install log rotator - "
           ++ "ap_log_set_writer_init not available")%string ;;
        ret (DECLINED, with_enabled ls RL_DISABLED, cb)
      else if negb (have_set_writer fns) then
        ap_log_error APLOG_ERR APR_SUCCESS
          ("can't install log rotator - "
           ++ "ap_log_set_writer not available")%string ;;
        ret (DECLINED, with_enabled ls RL_DISABLED, cb)
      else ret (OK, ls, mk_installed true true)
  end.

(** The world a thread starts from once the log is built: the log, no
    lock held, and the calls made so far. *)
Definition world_of (rl : rotated_log) (w : world) : world :=
  mk_world rl [] (w_trace w).

(** The calls other than debug lines of the error log. *)
Definition is_debug (ev : event) : bool :=
  match ev with
  | EvLog APLOG_DEBUG _ _ => true
  | _ => false
  end.

(** The handles handed to [apr_file_close], in order. *)
Fixpoint closed (tr : list event) : list (option apr_file) :=
  match tr with
  | [] => []
  | EvFileClose f _ :: tr' => f :: closed tr'
  | _ :: tr' => closed tr'
  end.

(** The lock calls of a trace, in order. *)
Fixpoint lock_calls (tr : list event) : list event :=
  match tr with
  | [] => []
  | EvLock m rv :: tr' => EvLock m rv :: lock_calls tr'
  | EvUnlock rv :: tr' => EvUnlock rv :: lock_calls tr'
  | _ :: tr' => lock_calls tr'
  end.

(** The pools asked of [apr_pool_create], by parent, in order. *)
Fixpoint pools_created (tr : list event) : list nat :=
  match tr with
  | [] => []
  | EvPoolCreate parent _ _ :: tr' => parent :: pools_created tr'
  | _ :: tr' => pools_created tr'
  end.

(** A reference environment: a threaded child process of the server whose
    root is [/srv/]; [parent] tells the parent process from a child. *)
Definition ref_env (now : Z) (threads : Z) (parent : bool) : init_env :=
  {| e_open_piped_log := fun _ => Some 0%nat;
     e_piped_log_write_fd := fun _ => Some 9%nat;
     e_max_threads := threads;
     e_rwlock_create := APR_SUCCESS;
     e_time_now := now;
     e_server_root_relative := fun n => Some ("/srv/" ++ n)%string;
     e_parent_pid := if parent then None else Some "4711"%string |}.

(** The quiet host out of memory: every [apr_pool_create] fails with
    [ENOMEM]. *)
Definition no_pool_host : host :=
  {| h_gmtoff := fun _ => 0;
     h_time_exp_gmt := Reference.time_exp_gmt;
     h_libc := Reference.libc_c;
     h_lock := fun _ _ => APR_SUCCESS;
     h_unlock := fun _ => APR_SUCCESS;
     h_pool_create := fun tr _ => (12, List.length tr);
     h_file_open := fun tr _ => (APR_SUCCESS, List.length tr);
     h_file_close := fun _ _ => APR_SUCCESS;
     h_file_write := fun _ _ _ => APR_SUCCESS;
     h_others := fun _ _ rl => rl |}.

(** The quiet host whose lock is broken: every lock call fails with
    [EDEADLK]. *)
Definition no_lock_host : host :=
  {| h_gmtoff := fun _ => 0;
     h_time_exp_gmt := Reference.time_exp_gmt;
     h_libc := Reference.libc_c;
     h_lock := fun _ _ => 35;
     h_unlock := fun _ => APR_SUCCESS;
     h_pool_create := fun tr _ => (APR_SUCCESS, List.length tr);
     h_file_open := fun tr _ => (APR_SUCCESS, List.length tr);
     h_file_close := fun _ _ => APR_SUCCESS;
     h_file_write := fun _ _ _ => APR_SUCCESS;
     h_others := fun _ _ rl => rl |}.

(** Every [apr_pool_create] fails with [rv]. *)
Definition pools_fail (h : host) (rv : apr_status_t) : Prop :=
  rv <> APR_SUCCESS /\ forall tr par, fst (h_pool_create h tr par) = rv.

(** Another log of the server, as the world holds one before
    [ap_rotated_log_writer_init] has built its own; the function neither
    reads nor writes it. *)
Definition other_log : rotated_log :=
  Reference.threaded_log make_log_options "other.log" 0.

(** The log of a pipe as the writer sees it: [pl] and [nm] stand for the
    pool and the name, which are [NULL] and never read. *)
Definition piped_log (pl : apr_pool) (nm : string) (f : apr_file)
  (ls : log_options) : rotated_log :=
  mk_rotated_log pl nm (Some f) 0 apr_anylock_none apr_anylock_none ls.

(** The windows a thread rotates to when it logs requests of the windows
    [ws] one after the other, from a log on the window [cur] that has a
    file or not: the windows that differ from the one before. *)
Fixpoint rotations (cur : Z) (has_file : bool) (ws : list Z) : list Z :=
  match ws with
  | [] => []
  | w :: rest =>
      if (w =? cur) && has_file then rotations cur true rest
      else w :: rotations w true rest
  end.

(** The quiet host whose lock cannot be released: every unlock fails with
    [EPERM]. *)
Definition no_unlock_host : host :=
  {| h_gmtoff := fun _ => 0;
     h_time_exp_gmt := Reference.time_exp_gmt;
     h_libc := Reference.libc_c;
     h_lock := fun _ _ => APR_SUCCESS;
     h_unlock := fun _ => 1;
     h_pool_create := fun tr _ => (APR_SUCCESS, List.length tr);
     h_file_open := fun tr _ => (APR_SUCCESS, List.length tr);
     h_file_close := fun _ _ => APR_SUCCESS;
     h_file_write := fun _ _ _ => APR_SUCCESS;
     h_others := fun _ _ rl => rl |}.

(** ** Vocabulary of the threads at large

    Requests of any windows, in any number, on a file system on which
    every open succeeds. *)

Module AnyWindows.
Import Concurrent.
Import Race.

Section Shapes.

Variable gmtoff : Z -> Z.
Variable libc : libc_strftime.
Variable time_exp_gmt : Z -> apr_time_exp_t.
Variable rl0 : rotated_log.
Variable name0 : string.
Variable fs0 : string -> string.
Variable reqs : list (Z * string).

(** The window of a request received at [tm], and the name of its file. *)
Definition window (tm : Z) : Z := ap_get_quantized_time gmtoff (st rl0) tm.

Definition window_name (tm : Z) : string :=
  log_name libc time_exp_gmt (fname rl0) (st rl0) (window tm).

(** The files of the log: the one open at the start and those of the
    windows of the requests. *)
Definition log_file (n : string) : Prop :=
  n = name0 \/ exists q, In q reqs /\ n = window_name (fst q).

(** The labels at which the log has a file. *)
Definition needs_fd (l : label) : bool :=
  match l with
  | L_unlock2 | L_relock | L_close | L_unlock3 | L_checkfd | L_rdlock2
  | L_write => true
  | _ => false
  end.

(** The labels at which a thread replaces the file of the log. *)
Definition in_rotation (l : label) : bool :=
  match l with
  | L_swap | L_pool | L_open | L_restore | L_close => true
  | _ => false
  end.

(** The labels a thread comes to when every open succeeds. *)
Definition live (l : label) : bool :=
  match l with
  | L_restore => false
  | L_done rv => rv =? APR_SUCCESS
  | _ => true
  end.

(** What has been appended to the file [n], given the lines written so
    far with the file each went to, oldest first. *)
Definition placed_in (n : string) (placed : list (string * string)) : string :=
  String.concat ""
    (map snd (filter (fun p => String.eqb (fst p) n) placed)).

(** The lock and those who hold it. *)
Record locks_ok (s : shared) (ts : list thread) : Prop := {
  lk_excl : forall i, s_writer s = Some i -> s_readers s = [];
  lk_writer :
    forall i, s_writer s = Some i ->
              exists t, nth_error ts i = Some t
                        /\ t_holds t = Some Exclusive;
  lk_reader :
    forall i, In i (s_readers s) ->
              exists t, nth_error ts i = Some t /\ t_holds t = Some Shared;
  lk_holds_writer :
    forall i t, nth_error ts i = Some t ->
                t_holds t = Some Exclusive -> s_writer s = Some i;
  lk_holds_reader :
    forall i t, nth_error ts i = Some t ->
                t_holds t = Some Shared -> In i (s_readers s)
}.

(** What holds of a thread. *)
Record thread_ok (s : shared) (t : thread) : Prop := {
  to_holds : holds_ok (t_pc t) (t_holds t) = true;
  to_live : live (t_pc t) = true;
  to_logt : t_pc t <> L_start -> t_logt t = window (request_time (t_req t));
  to_fd : needs_fd (t_pc t) = true -> fd (s_rl s) <> None;
  to_ofd :
    t_pc t = L_pool \/ t_pc t = L_open ->
    forall o, t_ofd t = Some o -> (o < s_next s)%nat;
  to_close : t_pc t = L_close -> t_ofd t <> fd (s_rl s)
}.

(** What holds of the log, the handles and the files. *)
Record shared_ok (s : shared) : Prop := {
  so_st : st (s_rl s) = st rl0;
  so_fname : fname (s_rl s) = fname rl0;
  so_valid :
    forall hd, fd (s_rl s) = Some hd ->
               lookup_handle hd (s_handles s) <> None;
  so_fresh : forall p, In p (s_handles s) -> (fst p < s_next s)%nat;
  so_names : forall p, In p (s_handles s) -> log_file (snd p)
}.

(** The lines written so far, each with the file it went to. *)
Definition files_ok (s : shared) (ts : list thread) : Prop :=
  exists placed,
    Permutation (map snd placed) (lines_written ts)
    /\ (forall p, In p placed -> log_file (fst p))
    /\ forall n, s_files s n = (fs0 n ++ placed_in n placed)%string.

(** What holds of every configuration the threads come to. *)
Record ok (c : config) : Prop := {
  ok_locks : locks_ok (fst c) (snd c);
  ok_shared : shared_ok (fst c);
  ok_files : files_ok (fst c) (snd c);
  ok_reqs :
    map (fun t => (request_time (t_req t), t_line t)) (snd c) = reqs;
  ok_threads :
    forall i t, nth_error (snd c) i = Some t -> thread_ok (fst c) t
}.

End Shapes.

End AnyWindows.
(** * Properties

    ** The time quantizer *)

Lemma wrap64_id (z : Z) : in_int64 z -> wrap64 z = z.
Proof.
  unfold in_int64, wrap64. intros H.
  rewrite Z.mod_small by lia. lia.
Qed.

Lemma wrap64_range (z : Z) : in_int64 (wrap64 z).
Proof.
  unfold in_int64, wrap64.
  pose proof (Z.mod_pos_bound (z + 2 ^ 63) (2 ^ 64) ltac:(lia)). lia.
Qed.

Lemma INTERVAL_MIN_val : INTERVAL_MIN = 60000000.
Proof. reflexivity. Qed.

Lemma INTERVAL_DEFAULT_val : INTERVAL_DEFAULT = 86400000000.
Proof. reflexivity. Qed.

(** Truncating then multiplying back stays between 0 and the dividend. *)
Lemma quot_mul_between (a b : Z) :
  0 < b ->
  (0 <= a -> 0 <= Z.quot a b * b <= a) /\
  (a <= 0 -> a <= Z.quot a b * b <= 0).
Proof.
  intros Hb. split; intros Ha.
  - rewrite Z.quot_div_nonneg by lia.
    pose proof (Z.mul_div_le a b Hb).
    pose proof (Z.div_pos a b Ha Hb). nia.
  - replace a with (- (- a)) by lia.
    rewrite Z.quot_opp_l by lia.
    rewrite Z.quot_div_nonneg by lia.
    pose proof (Z.mul_div_le (- a) b Hb).
    pose proof (Z.div_pos (- a) b ltac:(lia) Hb). nia.
Qed.

Lemma quot_mul_in_int64 (a b : Z) :
  0 < b -> in_int64 a -> in_int64 (Z.quot a b * b).
Proof.
  intros Hb Ha. destruct (quot_mul_between a b Hb) as [Hp Hn].
  unfold in_int64 in *.
  destruct (Z_le_gt_dec 0 a); [specialize (Hp ltac:(lia)) | specialize (Hn ltac:(lia))]; lia.
Qed.

Lemma quot_in_int64 (a b : Z) :
  0 < b -> in_int64 a -> in_int64 (Z.quot a b).
Proof.
  intros Hb Ha. unfold in_int64 in *.
  destruct (Z_le_gt_dec 0 a).
  - rewrite Z.quot_div_nonneg by lia.
    pose proof (Z.div_pos a b ltac:(lia) Hb).
    pose proof (Z.div_le_upper_bound a b (2 ^ 63 - 1) Hb ltac:(nia)). lia.
  - replace a with (- (- a)) by lia.
    rewrite Z.quot_opp_l by lia.
    rewrite Z.quot_div_nonneg by lia.
    pose proof (Z.div_pos (- a) b ltac:(lia) Hb).
    pose proof (Z.div_le_upper_bound (- a) b (2 ^ 63) Hb ltac:(nia)). lia.
Qed.

(** The quantizer without its wrap-arounds: the quotient never overflows
    when the interval is positive. *)
Lemma ap_get_quantized_time_quot local_gmtoff ls tm :
  0 < interval ls ->
  let localadj :=
    if localt ls =? 0 then 0
    else time_mul (local_gmtoff tm) APR_USEC_PER_SEC in
  let adjusted := time_add (time_add tm (offset ls)) localadj in
  ap_get_quantized_time local_gmtoff ls tm
  = Z.quot adjusted (interval ls) * interval ls.
Proof.
  intros Hi localadj adjusted.
  unfold ap_get_quantized_time. fold localadj. fold adjusted.
  assert (Ha : in_int64 adjusted) by apply wrap64_range.
  unfold time_mul, time_div.
  rewrite (wrap64_id (Z.quot adjusted (interval ls)))
    by (apply quot_in_int64; assumption).
  apply wrap64_id, quot_mul_in_int64; assumption.
Qed.

(** Every configuration the directives can build keeps the interval at
    or above one minute. *)
Lemma make_log_options_interval : INTERVAL_MIN <= interval make_log_options.
Proof. vm_compute. discriminate. Qed.

Lemma set_interval_min ls inte offs :
  INTERVAL_MIN <= interval ls ->
  INTERVAL_MIN <= interval (set_interval ls inte offs).
Proof.
  intros H. unfold set_interval.
  destruct inte as [n|], offs as [m|]; cbn [interval]; try assumption;
    destruct (Z.ltb_spec (time_mul APR_USEC_PER_SEC (wrap64 n)) INTERVAL_MIN); lia.
Qed.

Lemma set_interval_clamps ls n offs :
  n < 60 -> in_int64 (APR_USEC_PER_SEC * n) ->
  interval (set_interval ls (Some n) offs) = INTERVAL_MIN.
Proof.
  intros Hn Hr. unfold set_interval.
  assert (Hw : time_mul APR_USEC_PER_SEC (wrap64 n) = APR_USEC_PER_SEC * n).
  { unfold time_mul. rewrite (wrap64_id n).
    - apply wrap64_id, Hr.
    - unfold in_int64, APR_USEC_PER_SEC in *. lia. }
  destruct offs; cbn [interval]; rewrite Hw;
    destruct (Z.ltb_spec (APR_USEC_PER_SEC * n) INTERVAL_MIN); try reflexivity;
    rewrite INTERVAL_MIN_val in *; unfold APR_USEC_PER_SEC in *; lia.
Qed.

Lemma quantized_time_exact gmtoff ls now :
  0 < interval ls ->
  in_int64 (now + offset ls) ->
  in_int64 (gmtoff now * APR_USEC_PER_SEC) ->
  in_int64 (adjusted_instant gmtoff ls now) ->
  ap_get_quantized_time gmtoff ls now
  = Z.quot (adjusted_instant gmtoff ls now) (interval ls) * interval ls.
Proof.
  intros Hi H1 H2 H3.
  rewrite ap_get_quantized_time_quot by assumption. cbv zeta.
  unfold adjusted_instant, local_adjustment in *.
  unfold time_add at 2. rewrite (wrap64_id (now + offset ls)) by assumption.
  destruct (localt ls =? 0).
  - unfold time_add. rewrite wrap64_id by assumption. reflexivity.
  - unfold time_mul. rewrite (wrap64_id (gmtoff now * APR_USEC_PER_SEC)) by assumption.
    unfold time_add. rewrite wrap64_id by assumption. reflexivity.
Qed.

Lemma quantized_time_divides gmtoff ls now :
  0 < interval ls ->
  (interval ls | ap_get_quantized_time gmtoff ls now).
Proof.
  intros Hi. rewrite ap_get_quantized_time_quot by assumption. cbv zeta.
  apply Z.divide_factor_r.
Qed.

(** C4 (as the code has it): with an interval of at least one minute and
    sums that fit 64 bits, [ap_get_quantized_time] returns the quotient of
    the adjusted instant by the interval, truncated toward zero, times the
    interval. The result is always an exact multiple of the interval, also
    for a negative adjusted instant, and it is
    [floor(adjusted / interval) * interval] whenever the adjusted instant
    is not negative. *)
Theorem quantized_time_truncates gmtoff ls now :
  INTERVAL_MIN <= interval ls ->
  in_int64 (now + offset ls) ->
  in_int64 (gmtoff now * APR_USEC_PER_SEC) ->
  in_int64 (adjusted_instant gmtoff ls now) ->
  ap_get_quantized_time gmtoff ls now
  = Z.quot (adjusted_instant gmtoff ls now) (interval ls) * interval ls
  /\ (interval ls | ap_get_quantized_time gmtoff ls now)
  /\ (0 <= adjusted_instant gmtoff ls now ->
      ap_get_quantized_time gmtoff ls now
      = adjusted_instant gmtoff ls now / interval ls * interval ls)
  /\ (adjusted_instant gmtoff ls now < 0 ->
      adjusted_instant gmtoff ls now
      <= ap_get_quantized_time gmtoff ls now <= 0).
Proof.
  intros Hmin H1 H2 H3.
  assert (Hi : 0 < interval ls) by (rewrite INTERVAL_MIN_val in Hmin; lia).
  pose proof (quantized_time_exact gmtoff ls now Hi H1 H2 H3) as Hq.
  repeat split.
  - exact Hq.
  - apply quantized_time_divides, Hi.
  - intros Hpos. rewrite Hq, Z.quot_div_nonneg by lia. reflexivity.
  - rewrite Hq. apply (quot_mul_between _ _ Hi). lia.
  - rewrite Hq. apply (quot_mul_between _ _ Hi). lia.
Qed.

Lemma quantized_time_truncates_witness :
  let ls := set_interval make_log_options (Some 3600) (Some 60) in
  let now := 1700000123456789 in
  ap_get_quantized_time (fun _ => 0) ls now = 1700002800000000
  /\ ap_get_quantized_time (fun _ => 0) ls now
     = Z.quot (adjusted_instant (fun _ => 0) ls now) (interval ls) * interval ls.
Proof.
  split; [reflexivity |].
  apply (quantized_time_truncates (fun _ => 0)
           (set_interval make_log_options (Some 3600) (Some 60))
           1700000123456789);
    vm_compute; intuition discriminate.
Defined.

(** C4 (as the specification words it) fails one microsecond before the
    epoch: the code returns 0 where the floor formula gives minus one
    interval. *)
Lemma quantized_time_not_floor :
  let ls := set_interval make_log_options (Some 60) None in
  ap_get_quantized_time (fun _ => 0) ls (-1) = 0
  /\ adjusted_instant (fun _ => 0) ls (-1) / interval ls * interval ls
     = -60000000.
Proof. split; reflexivity. Qed.

(** ** Log names *)

Lemma count_markers_le (s : string) : (count_markers s <= String.length s)%nat.
Proof.
  induction s as [|a s IH]; simpl; [lia |].
  destruct (Ascii.eqb a "%"); lia.
Qed.

(** With fuel for every marker, the sizing loop adds ten bytes a marker. *)
Lemma pstrftime_scan_count (s : string) :
  forall fuel len,
    (count_markers s <= fuel)%nat ->
    pstrftime_scan fuel (strchr s "%"%char) len
    = (len + 10 * count_markers s)%nat.
Proof.
  induction s as [|a s IH]; intros fuel len Hf.
  - destruct fuel; simpl; lia.
  - simpl in *. destruct (Ascii.eqb a "%") eqn:Ea.
    + destruct fuel as [|k]; [lia |].
      simpl. rewrite IH by lia. lia.
    + apply IH, Hf.
Qed.

Lemma pstrftime_len_formula (format : string) :
  pstrftime_len format
  = (String.length format + 1 + 10 * count_markers format)%nat.
Proof.
  unfold pstrftime_len. apply pstrftime_scan_count, count_markers_le.
Qed.

Lemma ap_pstrftime_fits libc format tm :
  (String.length (strftime_full libc format tm) + 1
   <= String.length format + 1 + 10 * count_markers format)%nat ->
  ap_pstrftime libc format tm = strftime_full libc format tm.
Proof.
  intros H. unfold ap_pstrftime, apr_strftime.
  rewrite pstrftime_len_formula.
  destruct (Nat.leb_spec
              (String.length (strftime_full libc format tm) + 1)
              (String.length format + 1 + 10 * count_markers format));
    [reflexivity | lia].
Qed.

Lemma opened_names_app (a b : list event) :
  opened_names (a ++ b) = (opened_names a ++ opened_names b)%list.
Proof.
  induction a as [|e a IH]; simpl; [reflexivity |].
  destruct e; simpl; rewrite IH; reflexivity.
Qed.

(** What [ap_open_log] does, whatever the naming mode: one call of
    [apr_file_open] on the synthesized name, and a line in the error log
    when that call fails. *)
Lemma ap_open_log_run h p name ls tm w :
  ap_open_log h p name ls tm w
  = let name' := log_name (h_libc h) (h_time_exp_gmt h) name ls tm in
    let rv := fst (h_file_open h (w_trace w) name') in
    let f := snd (h_file_open h (w_trace w) name') in
    if failed rv then
      (None,
       mk_world (w_rl w) (w_held w)
         (w_trace w
          ++ [EvFileOpen name' p rv f;
              EvLog APLOG_ERR rv
                ("could not open transfer log file " ++ name' ++ ".")%string]))
    else
      (Some f,
       mk_world (w_rl w) (w_held w) (w_trace w ++ [EvFileOpen name' p rv f])).
Proof.
  unfold ap_open_log, bind, apr_file_open, ap_log_error, emit, ret. cbv zeta.
  destruct (h_file_open h (w_trace w) _) as [rv f]. cbn [fst snd].
  destruct (failed rv); cbn; [rewrite <- app_assoc |]; reflexivity.
Qed.

Lemma ap_open_log_names h p name ls tm w :
  opened_names (w_trace (snd (ap_open_log h p name ls tm w)))
  = (opened_names (w_trace w)
     ++ [log_name (h_libc h) (h_time_exp_gmt h) name ls tm])%list.
Proof.
  rewrite ap_open_log_run. cbv zeta.
  destruct (failed _); cbn [snd w_trace]; rewrite opened_names_app;
    reflexivity.
Qed.

(** Truncation toward zero is the floor on what is not negative and on
    whole multiples. *)
Lemma quot_is_floor (a b : Z) :
  0 < b -> (0 <= a \/ (b | a)) -> Z.quot a b = a / b.
Proof.
  intros Hb [Ha | [k Hk]].
  - apply Z.quot_div_nonneg; lia.
  - subst a. rewrite Z.quot_mul, Z.div_mul by lia. reflexivity.
Qed.

(** Window starts are whole seconds behind the offset when the interval
    and the offset are whole seconds, as [set_interval] makes them. *)
Lemma window_start_whole_seconds gmtoff ls now :
  0 < interval ls ->
  (APR_USEC_PER_SEC | interval ls) ->
  (APR_USEC_PER_SEC | offset ls) ->
  (APR_USEC_PER_SEC | ap_get_quantized_time gmtoff ls now - offset ls).
Proof.
  intros Hi Hd Ho. apply Z.divide_sub_r; [| exact Ho].
  apply Z.divide_trans with (interval ls); [exact Hd |].
  apply quantized_time_divides, Hi.
Qed.

Lemma set_interval_whole_seconds n m :
  in_int64 (APR_USEC_PER_SEC * n) ->
  in_int64 (APR_USEC_PER_SEC * 60 * m) ->
  let ls := set_interval make_log_options (Some n) (Some m) in
  (APR_USEC_PER_SEC | interval ls) /\ (APR_USEC_PER_SEC | offset ls).
Proof.
  intros Hn Hm. cbv zeta. unfold set_interval. cbn [interval offset].
  assert (Hwn : wrap64 n = n)
    by (apply wrap64_id; unfold in_int64, APR_USEC_PER_SEC in *; lia).
  assert (Hwm : wrap64 m = m)
    by (apply wrap64_id; unfold in_int64, APR_USEC_PER_SEC in *; lia).
  rewrite Hwn, Hwm. split.
  - destruct (_ <? _).
    + exists 60. reflexivity.
    + unfold time_mul. rewrite wrap64_id by exact Hn.
      exists n. apply Z.mul_comm.
  - unfold time_mul at 1. unfold time_mul at 1.
    rewrite (wrap64_id (APR_USEC_PER_SEC * 60)) by (vm_compute; intuition discriminate).
    rewrite wrap64_id by exact Hm. exists (60 * m). ring.
Qed.







(** ** The coordinator *)

(** *** Runs of the primitives on a host that behaves *)

Lemma failed_success : failed APR_SUCCESS = false.
Proof. reflexivity. Qed.

Ltac proj := cbn [w_rl w_held w_trace fst snd].
Ltac ok_status := rewrite ?failed_success; cbv beta iota.

Lemma world_eta (w : world) : mk_world (w_rl w) (w_held w) (w_trace w) = w.
Proof. destruct w; reflexivity. Qed.

Lemma yield_quiet h pt w : quiet h -> yield h pt w = (tt, w).
Proof.
  intros Hq. unfold yield. destruct w as [rl [|m held] tr]; cbn; [| reflexivity].
  rewrite Hq. reflexivity.
Qed.

Lemma rwlock_acquire_ok h m w :
  quiet h -> locks_succeed h ->
  rwlock_acquire h m w
  = (APR_SUCCESS,
     mk_world (w_rl w) (m :: w_held w) (w_trace w ++ [EvLock m APR_SUCCESS])).
Proof.
  intros Hq [Hl _]. unfold rwlock_acquire, bind.
  rewrite yield_quiet by exact Hq. rewrite Hl. reflexivity.
Qed.

Lemma rwlock_release_ok h w :
  quiet h -> locks_succeed h ->
  rwlock_release h w
  = (APR_SUCCESS,
     mk_world (w_rl w) (tl (w_held w)) (w_trace w ++ [EvUnlock APR_SUCCESS])).
Proof.
  intros Hq [_ Hu]. unfold rwlock_release, bind.
  rewrite Hu. change (is_success APR_SUCCESS) with true. cbv iota.
  rewrite yield_quiet by exact Hq. reflexivity.
Qed.

Lemma anylock_lock_ok h lck w :
  quiet h -> locks_succeed h ->
  APR_ANYLOCK_LOCK h lck w
  = (APR_SUCCESS,
     mk_world (w_rl w) (lock_push lck (w_held w))
       (w_trace w ++ lock_events lck)).
Proof.
  intros Hq Hl. destruct lck; cbn [APR_ANYLOCK_LOCK lock_push lock_events].
  - unfold ret. rewrite app_nil_r, world_eta. reflexivity.
  - apply rwlock_acquire_ok; assumption.
  - apply rwlock_acquire_ok; assumption.
Qed.

Lemma anylock_unlock_ok h lck w :
  quiet h -> locks_succeed h ->
  APR_ANYLOCK_UNLOCK h lck w
  = (APR_SUCCESS,
     mk_world (w_rl w) (unlock_pop lck (w_held w))
       (w_trace w ++ unlock_events lck)).
Proof.
  intros Hq Hl. destruct lck; cbn [APR_ANYLOCK_UNLOCK unlock_pop unlock_events].
  - unfold ret. rewrite app_nil_r, world_eta. reflexivity.
  - apply rwlock_release_ok; assumption.
  - apply rwlock_release_ok; assumption.
Qed.

(** The fast path: the window is current and a file is open. The
    quantizer is kept folded while the lock protocol is run. *)
Opaque ap_get_quantized_time.

Lemma ap_lock_log_fast h r w f :
  quiet h -> locks_succeed h ->
  window_of h (w_rl w) r = logtime (w_rl w) ->
  fd (w_rl w) = Some f ->
  ap_lock_log h r w
  = (APR_SUCCESS,
     mk_world (w_rl w) (lock_push (read_lock (w_rl w)) (w_held w))
       (w_trace w
        ++ EvLog APLOG_DEBUG 0
             (lock_debug_msg (logtime (w_rl w)) (logtime (w_rl w)))
        :: lock_events (read_lock (w_rl w)))).
Proof.
  intros Hq Hl Hw Hf.
  unfold ap_lock_log, bind, get_rl, ap_log_error, emit. cbn [w_rl w_held w_trace].
  fold (window_of h (w_rl w) r).
  rewrite anylock_lock_ok by assumption. cbn [w_rl w_held w_trace].
  ok_status.
  rewrite Hw, Z.eqb_refl. proj. rewrite Hf. cbn [is_null negb andb]. unfold ret.
  rewrite <- app_assoc. reflexivity.
Qed.

(** *** The rotation proper *)

(** [swap_log] on any host, call by call. *)
Lemma swap_log_run h logt w :
  swap_log h logt w
  = let rl := w_rl w in
    let par := pool_parent (pool rl) in
    let rvp := fst (h_pool_create h (w_trace w) par) in
    let np := mk_pool (snd (h_pool_create h (w_trace w) par)) par in
    let tr1 := w_trace w ++ [EvPoolCreate par rvp np] in
    if failed rvp then (rvp, mk_world (with_logtime rl logt) (w_held w) tr1)
    else
      let name := log_name (h_libc h) (h_time_exp_gmt h) (fname rl) (st rl) logt in
      let rvo := fst (h_file_open h tr1 name) in
      let f := snd (h_file_open h tr1 name) in
      if failed rvo then
        (APR_SUCCESS,
         mk_world (with_logtime rl logt) (w_held w)
           (tr1 ++ [EvFileOpen name np rvo f;
                    EvLog APLOG_ERR rvo
                      ("could not open transfer log file " ++ name ++ ".")%string;
                    EvPoolDestroy np]))
      else
        let rvc := h_file_close h (tr1 ++ [EvFileOpen name np rvo f]) (fd rl) in
        (APR_SUCCESS,
         mk_world (with_pool (with_fd (with_logtime rl logt) (Some f)) np)
           (w_held w)
           (tr1 ++ [EvFileOpen name np rvo f; EvFileClose (fd rl) rvc]
            ++ (if failed rvc
                then [EvLog APLOG_ERR rvc "error closing transfer log file."%string]
                else [])
            ++ [EvPoolDestroy (pool rl)])).
Proof.
  unfold swap_log, bind at 1 2 3, get_rl, modify_rl, apr_pool_create. proj.
  cbv zeta.
  destruct (h_pool_create h (w_trace w) _) as [rvp id]. proj.
  destruct (failed rvp); [reflexivity |].
  unfold bind at 1. rewrite ap_open_log_run. cbv zeta. proj.
  destruct (h_file_open h _ _) as [rvo f]. proj.
  destruct (failed rvo).
  - unfold bind, modify_rl, apr_pool_destroy, emit, ret. cbn.
    rewrite <- !app_assoc. reflexivity.
  - unfold bind, modify_rl, apr_pool_destroy, emit, ret, ap_close_log,
      apr_file_close, ap_log_error, emit, bind, ret. cbn.
    destruct (failed (h_file_close h _ _)); cbn; rewrite <- !app_assoc;
      reflexivity.
Qed.

Lemma live_pools_app (alive : list apr_pool) (a b : list event) :
  live_pools alive (a ++ b) = live_pools (live_pools alive a) b.
Proof.
  revert alive. induction a as [|e a IH]; intros alive; [reflexivity |].
  destruct e; cbn [live_pools app]; apply IH.
Qed.

Lemma pool_eqb_refl (p : apr_pool) : pool_eqb p p = true.
Proof. unfold pool_eqb. rewrite !Nat.eqb_refl. reflexivity. Qed.

(** C6: a rotation whose pool creation and open succeed runs, in this
    order: the creation of a fresh pool, the open of the new file in it,
    the close of the old handle, a line in the error log when that close
    fails, and the destruction of the old pool. Whatever the close
    returns, the rotation returns success with the new file and the new
    pool current and the window advanced; of the old pool and the new one,
    only the new one is alive afterwards. *)
Theorem swap_installs_before_release h logt w id f :
  h_pool_create h (w_trace w) (pool_parent (pool (w_rl w)))
  = (APR_SUCCESS, id) ->
  id <> pool_id (pool (w_rl w)) ->
  let par := pool_parent (pool (w_rl w)) in
  let np := mk_pool id par in
  let name :=
    log_name (h_libc h) (h_time_exp_gmt h) (fname (w_rl w)) (st (w_rl w)) logt in
  let created := EvPoolCreate par APR_SUCCESS np in
  let opened := EvFileOpen name np APR_SUCCESS f in
  h_file_open h (w_trace w ++ [created]) name = (APR_SUCCESS, f) ->
  let rvc := h_file_close h (w_trace w ++ [created; opened]) (fd (w_rl w)) in
  let steps :=
    [created; opened; EvFileClose (fd (w_rl w)) rvc]
    ++ (if failed rvc
        then [EvLog APLOG_ERR rvc "error closing transfer log file."%string]
        else [])
    ++ [EvPoolDestroy (pool (w_rl w))] in
  swap_log h logt w
  = (APR_SUCCESS,
     mk_world
       (mk_rotated_log np (fname (w_rl w)) (Some f) logt
          (read_lock (w_rl w)) (write_lock (w_rl w)) (st (w_rl w)))
       (w_held w) (w_trace w ++ steps))
  /\ live_pools [pool (w_rl w)] steps = [np].
Proof.
  intros Hp Hfresh par np name created opened Ho rvc steps. split.
  - subst steps rvc. subst opened created name np par.
    rewrite swap_log_run. cbv zeta. rewrite Hp. proj. ok_status.
    rewrite Ho. proj. ok_status.
    rewrite <- !app_assoc. reflexivity.
  - assert (Hlog : forall alive,
               live_pools alive
                 (if failed rvc
                  then [EvLog APLOG_ERR rvc "error closing transfer log file."%string]
                  else []) = alive)
      by (intros; destruct (failed rvc); reflexivity).
    subst steps. rewrite live_pools_app, (live_pools_app _ (if failed rvc then _ else _)).
    rewrite Hlog. subst created opened. cbn.
    rewrite pool_eqb_refl. cbn.
    unfold pool_eqb. subst np. cbn [pool_id pool_parent].
    destruct (Nat.eqb_spec (pool_id (pool (w_rl w))) id) as [E|E];
      [congruence | reflexivity].
Qed.

Lemma swap_installs_before_release_witness :
  let ls := make_log_options in
  let w := mk_world (Reference.threaded_log ls "access.log" 0) [Exclusive] [] in
  swap_log Reference.quiet_host 86400000000 w
  = (APR_SUCCESS,
     mk_world
       (mk_rotated_log (mk_pool 0 0) "access.log" (Some 1%nat) 86400000000
          apr_anylock_readlock apr_anylock_writelock ls)
       [Exclusive]
       [EvPoolCreate 0 APR_SUCCESS (mk_pool 0 0);
        EvFileOpen "access.log.86400" (mk_pool 0 0) APR_SUCCESS 1%nat;
        EvFileClose (Some 1%nat) APR_SUCCESS;
        EvPoolDestroy (mk_pool 1 0)]).
Proof.
  apply (swap_installs_before_release Reference.quiet_host 86400000000
           (mk_world (Reference.threaded_log make_log_options "access.log" 0)
              [Exclusive] [])
           0%nat 1%nat).
  - reflexivity.
  - cbn. discriminate.
  - reflexivity.
Defined.

(** *** A file behind every success *)

Lemma yield_keeps_fd h pt w :
  fd_stable h ->
  fd (w_rl w) <> None ->
  fd (w_rl (snd (yield h pt w))) <> None.
Proof.
  intros Hs Hf. unfold yield. destruct (w_held w); proj; [| exact Hf].
  apply Hs, Hf.
Qed.

Lemma anylock_lock_keeps_fd h lck w :
  fd_stable h ->
  fd (w_rl w) <> None ->
  fd (w_rl (snd (APR_ANYLOCK_LOCK h lck w))) <> None.
Proof.
  intros Hs Hf.
  destruct lck; cbn [APR_ANYLOCK_LOCK]; unfold ret; proj; try exact Hf;
    unfold rwlock_acquire, bind;
    pose proof (yield_keeps_fd h BeforeLock w Hs Hf) as Hy;
    destruct (yield h BeforeLock w) as [u w1]; proj; exact Hy.
Qed.

Lemma anylock_unlock_keeps_fd h lck w :
  fd_stable h ->
  fd (w_rl w) <> None ->
  fd (w_rl (snd (APR_ANYLOCK_UNLOCK h lck w))) <> None.
Proof.
  intros Hs Hf.
  destruct lck; cbn [APR_ANYLOCK_UNLOCK]; unfold ret; proj; try exact Hf;
    unfold rwlock_release, bind;
    match goal with
    | |- context [yield h AfterUnlock ?w1] =>
        pose proof (yield_keeps_fd h AfterUnlock w1 Hs Hf) as Hy;
        destruct (yield h AfterUnlock w1) as [u w2]
    end; unfold ret; proj; exact Hy.
Qed.

Lemma failed_not_success (rv : apr_status_t) :
  failed rv = true -> rv <> APR_SUCCESS.
Proof.
  unfold failed, is_success. intros H E. subst rv. discriminate.
Qed.

Lemma not_failed_success (rv : apr_status_t) :
  failed rv = false -> rv = APR_SUCCESS.
Proof.
  unfold failed, is_success. intros H.
  destruct (Z.eqb_spec rv APR_SUCCESS); [assumption | discriminate].
Qed.

Lemma is_null_false {A : Type} (o : option A) : is_null o = false -> o <> None.
Proof. destruct o; [discriminate | discriminate]. Qed.

Lemma current_has_fd (logt : Z) (rl : rotated_log) :
  (logt =? logtime rl) && negb (is_null (fd rl)) = true -> fd rl <> None.
Proof.
  intros H. apply andb_prop in H. destruct H as [_ H].
  apply is_null_false. destruct (is_null (fd rl)); [discriminate | reflexivity].
Qed.

Lemma rotate_success_has_file h logt w :
  fd_stable h -> success_has_file (rotate h logt w).
Proof.
  intros Hs. unfold rotate, bind at 1 2, get_rl.
  destruct (swap_log h logt w) as [rv w1]. proj.
  destruct (failed rv) eqn:Frv.
  - unfold bind, ret. destruct (APR_ANYLOCK_UNLOCK h _ w1) as [rv' w2].
    intros E. exfalso. exact (failed_not_success _ Frv E).
  - unfold bind at 1.
    pose proof (anylock_unlock_keeps_fd h (write_lock (w_rl w1)) w1 Hs) as Hu.
    destruct (APR_ANYLOCK_UNLOCK h _ w1) as [rv2 w2]. proj.
    destruct (failed rv2) eqn:Frv2.
    + intros E. exfalso. exact (failed_not_success _ Frv2 E).
    + unfold bind, get_rl. proj.
      destruct (is_null (fd (w_rl w2))) eqn:En.
      * intros E. discriminate E.
      * intros _. apply anylock_lock_keeps_fd; [exact Hs |].
        apply is_null_false, En.
Qed.

Lemma lock_success_has_file h r w :
  fd_stable h -> success_has_file (ap_lock_log h r w).
Proof.
  intros Hs. unfold ap_lock_log, bind at 1 2 3, get_rl, ap_log_error, emit. proj.
  match goal with
  | |- context [APR_ANYLOCK_LOCK h ?l ?w0] =>
      destruct (APR_ANYLOCK_LOCK h l w0) as [rv1 w1]
  end.
  destruct (failed rv1) eqn:F1.
  { intros E. exfalso. exact (failed_not_success _ F1 E). }
  unfold bind at 1, get_rl. proj.
  destruct ((_ =? logtime (w_rl w1)) && negb (is_null (fd (w_rl w1)))) eqn:C1.
  { intros _. exact (current_has_fd _ _ C1). }
  unfold bind at 1.
  destruct (APR_ANYLOCK_UNLOCK h _ w1) as [rv2 w2].
  destruct (failed rv2) eqn:F2.
  { intros E. exfalso. exact (failed_not_success _ F2 E). }
  unfold bind at 1.
  destruct (APR_ANYLOCK_LOCK h _ w2) as [rv3 w3].
  destruct (failed rv3) eqn:F3.
  { intros E. exfalso. exact (failed_not_success _ F3 E). }
  unfold bind at 1, get_rl. proj.
  destruct ((_ =? logtime (w_rl w3)) && negb (is_null (fd (w_rl w3)))) eqn:C3.
  - unfold bind.
    pose proof (anylock_unlock_keeps_fd h (write_lock (w_rl w3)) w3 Hs
                  (current_has_fd _ _ C3)) as Hu.
    destruct (APR_ANYLOCK_UNLOCK h _ w3) as [rv4 w4]. proj.
    destruct (failed rv4) eqn:F4.
    + intros E. exfalso. exact (failed_not_success _ F4 E).
    + intros _. apply anylock_lock_keeps_fd; assumption.
  - apply rotate_success_has_file, Hs.
Qed.

(** *** The slow path on a host that behaves *)

Lemma rotate_run h logt w :
  quiet h -> locks_succeed h ->
  rotate h logt w
  = let rv := fst (swap_log h logt w) in
    let w1 := snd (swap_log h logt w) in
    let w2 :=
      mk_world (w_rl w1)
        (unlock_pop (write_lock (w_rl w1)) (w_held w1))
        (w_trace w1 ++ unlock_events (write_lock (w_rl w1))) in
    if failed rv then (rv, w2)
    else if is_null (fd (w_rl w1)) then (APR_ENOENT, w2)
    else
      (APR_SUCCESS,
       mk_world (w_rl w1)
         (lock_push (read_lock (w_rl w1)) (w_held w2))
         (w_trace w2 ++ lock_events (read_lock (w_rl w1)))).
Proof.
  intros Hq Hl. unfold rotate, bind at 1 2, get_rl. cbv zeta.
  destruct (swap_log h logt w) as [rv w1]. proj.
  destruct (failed rv).
  - unfold bind, ret. rewrite anylock_unlock_ok by assumption. reflexivity.
  - unfold bind at 1. rewrite anylock_unlock_ok by assumption. ok_status.
    unfold bind, get_rl. proj.
    destruct (is_null (fd (w_rl w1))); [reflexivity |].
    rewrite anylock_lock_ok by assumption. reflexivity.
Qed.

Lemma ap_lock_log_slow h r w :
  quiet h -> locks_succeed h ->
  (window_of h (w_rl w) r =? logtime (w_rl w))
  && negb (is_null (fd (w_rl w))) = false ->
  ap_lock_log h r w
  = rotate h (window_of h (w_rl w) r)
      (mk_world (w_rl w)
         (lock_push (write_lock (w_rl w))
            (unlock_pop (read_lock (w_rl w))
               (lock_push (read_lock (w_rl w)) (w_held w))))
         (w_trace w
          ++ EvLog APLOG_DEBUG 0
               (lock_debug_msg (window_of h (w_rl w) r) (logtime (w_rl w)))
          :: lock_events (read_lock (w_rl w))
          ++ unlock_events (read_lock (w_rl w))
          ++ lock_events (write_lock (w_rl w)))).
Proof.
  intros Hq Hl Hc.
  unfold ap_lock_log, bind at 1 2 3, get_rl, ap_log_error, emit. proj.
  fold (window_of h (w_rl w) r).
  rewrite anylock_lock_ok by assumption. ok_status.
  unfold bind at 1, get_rl. proj. rewrite Hc.
  unfold bind at 1. rewrite anylock_unlock_ok by assumption. ok_status. proj.
  unfold bind at 1. rewrite anylock_lock_ok by assumption. ok_status. proj.
  unfold bind at 1, get_rl. proj. rewrite Hc.
  f_equal. f_equal. rewrite <- !app_assoc. reflexivity.
Qed.

Transparent ap_get_quantized_time.

Lemma written_app (a b : list event) :
  written (a ++ b) = (written a ++ written b)%list.
Proof.
  induction a as [|e a IH]; simpl; [reflexivity |].
  destruct e; simpl; rewrite IH; reflexivity.
Qed.

Ltac trace_facts :=
  repeat (progress (rewrite ?opened_names_app, ?written_app;
                    cbn [opened_names written app])).

Lemma opened_names_lock lck : opened_names (lock_events lck) = [].
Proof. destruct lck; reflexivity. Qed.

Lemma opened_names_unlock lck : opened_names (unlock_events lck) = [].
Proof. destruct lck; reflexivity. Qed.

Lemma written_lock lck : written (lock_events lck) = [].
Proof. destruct lck; reflexivity. Qed.

Lemma written_unlock lck : written (unlock_events lck) = [].
Proof. destruct lck; reflexivity. Qed.

Ltac trace_facts ::=
  repeat (progress (rewrite ?opened_names_app, ?written_app,
                      ?opened_names_lock, ?opened_names_unlock,
                      ?written_lock, ?written_unlock;
                    cbn [opened_names written app])).

(** A rotation whose open fails, on a host where pools can be created:
    the window is advanced, the handle is the one from before. *)
Lemma swap_log_open_fails h logt w :
  pools_succeed h -> opens_fail h ->
  exists tr,
    swap_log h logt w
    = (APR_SUCCESS,
       mk_world (with_logtime (w_rl w) logt) (w_held w) (w_trace w ++ tr))
    /\ opened_names tr
       = [log_name (h_libc h) (h_time_exp_gmt h)
            (fname (w_rl w)) (st (w_rl w)) logt]
    /\ written tr = [].
Proof.
  intros Hp Ho. rewrite swap_log_run. cbv zeta.
  rewrite Hp. ok_status.
  match goal with
  | |- context [failed (fst (h_file_open h ?tr ?n))] =>
      pose proof (Ho tr n) as Hfail;
      destruct (failed (fst (h_file_open h tr n))) eqn:F
  end.
  - eexists. split; [rewrite <- app_assoc; reflexivity |].
    split; reflexivity.
  - exfalso. apply Hfail, not_failed_success, F.
Qed.

(** *** The writer on a host that behaves *)

Lemma writer_run h r strs w :
  quiet h -> locks_succeed h -> writes_succeed h ->
  enabled (st (w_rl w)) <> RL_DISABLED ->
  ap_rotated_log_writer h r RotatedLog strs w
  = let res := ap_lock_log h r w in
    let w1 := snd res in
    if failed (fst res) then res
    else
      (APR_SUCCESS,
       mk_world (w_rl w1)
         (unlock_pop (read_lock (w_rl w1)) (w_held w1))
         (w_trace w1
          ++ EvFileWrite (fd (w_rl w1)) (String.concat "" strs) APR_SUCCESS
          :: unlock_events (read_lock (w_rl w1)))).
Proof.
  intros Hq Hl Hw He. cbv zeta.
  unfold ap_rotated_log_writer, bind at 1, get_rl. proj.
  assert (Hrun :
    (rv <- ap_lock_log h r ;;
     if failed rv then ret rv
     else
       rl <- get_rl ;;
       rv0 <- apr_file_write h (fd rl) (String.concat "" strs) ;;
       if failed rv0 then ret rv0 else ap_unlock_log h r) w
    = if failed (fst (ap_lock_log h r w)) then ap_lock_log h r w
      else
        (APR_SUCCESS,
         mk_world (w_rl (snd (ap_lock_log h r w)))
           (unlock_pop (read_lock (w_rl (snd (ap_lock_log h r w))))
              (w_held (snd (ap_lock_log h r w))))
           (w_trace (snd (ap_lock_log h r w))
            ++ EvFileWrite (fd (w_rl (snd (ap_lock_log h r w))))
                 (String.concat "" strs) APR_SUCCESS
            :: unlock_events (read_lock (w_rl (snd (ap_lock_log h r w))))))).
  { unfold bind at 1. destruct (ap_lock_log h r w) as [rv w1]. proj.
    destruct (failed rv); [reflexivity |].
    unfold bind at 1 2, get_rl, apr_file_write. proj. rewrite Hw. ok_status.
    unfold ap_unlock_log, bind, get_rl. proj.
    rewrite anylock_unlock_ok by assumption. proj.
    rewrite <- app_assoc. reflexivity. }
  destruct (enabled (st (w_rl w))); [congruence | exact Hrun | exact Hrun].
Qed.

(** A line logged while the window is current goes to the current file
    and opens nothing. *)
Lemma writer_fast h r strs w f :
  quiet h -> locks_succeed h -> writes_succeed h ->
  enabled (st (w_rl w)) <> RL_DISABLED ->
  window_of h (w_rl w) r = logtime (w_rl w) ->
  fd (w_rl w) = Some f ->
  exists held tr,
    ap_rotated_log_writer h r RotatedLog strs w
    = (APR_SUCCESS, mk_world (w_rl w) held (w_trace w ++ tr))
    /\ opened_names tr = []
    /\ written tr = [(Some f, String.concat "" strs)].
Proof.
  intros Hq Hl Hw He Hwin Hf.
  rewrite writer_run by assumption. cbv zeta.
  rewrite (ap_lock_log_fast h r w f) by assumption. proj. ok_status.
  eexists. eexists. split.
  - rewrite <- app_assoc. reflexivity.
  - rewrite Hf. cbn [app]. cbn [opened_names written].
    rewrite !opened_names_app, !written_app.
    rewrite opened_names_lock, written_lock. cbn.
    rewrite opened_names_unlock, written_unlock. split; reflexivity.
Qed.

Lemma run_writes_cons h r strs reqs w :
  run_writes h ((r, strs) :: reqs) w
  = let res := ap_rotated_log_writer h r RotatedLog strs w in
    let rest := run_writes h reqs (snd res) in
    (fst res :: fst rest, snd rest).
Proof.
  cbn [run_writes]. unfold bind, ret. cbv zeta.
  destruct (ap_rotated_log_writer h r RotatedLog strs w) as [rv w1]. proj.
  destruct (run_writes h reqs w1) as [rvs w2]. reflexivity.
Qed.

Lemma run_writes_same_window h reqs :
  quiet h -> locks_succeed h -> writes_succeed h ->
  forall w f,
    enabled (st (w_rl w)) <> RL_DISABLED ->
    fd (w_rl w) = Some f ->
    (forall q, In q reqs -> window_of h (w_rl w) (fst q) = logtime (w_rl w)) ->
    fst (run_writes h reqs w) = map (fun _ => APR_SUCCESS) reqs
    /\ w_rl (snd (run_writes h reqs w)) = w_rl w
    /\ opened_names (w_trace (snd (run_writes h reqs w)))
       = opened_names (w_trace w)
    /\ written (w_trace (snd (run_writes h reqs w)))
       = (written (w_trace w)
          ++ map (fun q => (Some f, String.concat "" (snd q))) reqs)%list.
Proof.
  intros Hq Hl Hw.
  induction reqs as [|[r strs] reqs IH]; intros w f He Hf Hall.
  - cbn. rewrite app_nil_r. repeat split; reflexivity.
  - rewrite run_writes_cons. cbv zeta.
    destruct (writer_fast h r strs w f Hq Hl Hw He
                (Hall (r, strs) (or_introl eq_refl)) Hf)
      as (held & tr & Hrun & Hno & Hwr).
    rewrite Hrun. proj.
    specialize (IH (mk_world (w_rl w) held (w_trace w ++ tr)) f He Hf
                  (fun q Hin => Hall q (or_intror Hin))).
    cbn [w_rl w_held w_trace] in IH.
    destruct IH as (Hst & Hrl & Hop & Hwri).
    repeat split.
    + cbn [map]. rewrite Hst. reflexivity.
    + exact Hrl.
    + rewrite Hop, opened_names_app, Hno, app_nil_r. reflexivity.
    + rewrite Hwri, written_app, Hwr, <- app_assoc. reflexivity.
Qed.

Lemma quiet_fd_stable h : quiet h -> fd_stable h.
Proof. intros Hq tr pt rl Hf. rewrite Hq. exact Hf. Qed.



(** *** A failed open *)

Lemma window_of_with_logtime h rl t r :
  window_of h (with_logtime rl t) r = window_of h rl r.
Proof. unfold window_of. reflexivity. Qed.




(** *** Two defects of the lock protocol *)

(** C1, at the failing input: a log of the threaded server on window 0, a
    request of the next day, and another thread that rotates the log while
    this one waits for the write lock. The re-check under the write lock
    finds the log current; [ap_lock_log] releases the write lock, takes the
    write lock again (line 207 names [write_lock] where its comment says
    read lock) and returns [APR_SUCCESS] holding it exclusively. *)
Theorem double_check_returns_exclusive :
  let w := Reference.start
             (Reference.threaded_log make_log_options "access.log" 0) in
  let h := Reference.racing_host 86400000000 7%nat (mk_pool 9 0) in
  ap_lock_log h (mk_request 90000000000) w
  = (APR_SUCCESS,
     mk_world
       (mk_rotated_log (mk_pool 9 0) "access.log" (Some 7%nat) 86400000000
          apr_anylock_readlock apr_anylock_writelock make_log_options)
       [Exclusive]
       [EvLog APLOG_DEBUG 0 "New: 86400000000, old: 0";
        EvLock Shared APR_SUCCESS;
        EvUnlock APR_SUCCESS;
        EvLock Exclusive APR_SUCCESS;
        EvUnlock APR_SUCCESS;
        EvLock Exclusive APR_SUCCESS]).
Proof. reflexivity. Qed.

(** C2, at the failing input: a log of the threaded server, current for
    the request, on a full disk. [ap_rotated_log_writer] takes the read
    lock, the write fails with status 28, and the function returns that
    status with the read lock still held: no unlock follows the write. *)
Theorem write_failure_keeps_lock :
  let w := Reference.start
             (Reference.threaded_log make_log_options "access.log" 0) in
  ap_rotated_log_writer Reference.full_disk_host (mk_request 1000000)
    RotatedLog ["GET / "%string; "200"%string] w
  = (28,
     mk_world (w_rl w) [Shared]
       [EvLog APLOG_DEBUG 0 "New: 0, old: 0";
        EvLock Shared APR_SUCCESS;
        EvFileWrite (Some 1%nat) "GET / 200" 28]).
Proof. reflexivity. Qed.

(** ** Threads racing across a window boundary *)

Module RaceProofs.
Import Concurrent Race.

(** *** Lists of threads *)

Lemma nth_error_set_nth_eq {A : Type} (l : list A) (i : nat) (x y : A) :
  nth_error l i = Some y -> nth_error (set_nth i x l) i = Some x.
Proof.
  revert i. induction l as [|a l IH]; intros [|i] H; try discriminate.
  - reflexivity.
  - cbn in *. apply IH, H.
Qed.

Lemma nth_error_set_nth_neq {A : Type} (l : list A) (i j : nat) (x : A) :
  i <> j -> nth_error (set_nth i x l) j = nth_error l j.
Proof.
  revert i j. induction l as [|a l IH]; intros [|i] [|j] H; cbn;
    try reflexivity; try congruence.
  apply IH. congruence.
Qed.

Lemma set_nth_same {A : Type} (l : list A) (i : nat) (y : A) :
  nth_error l i = Some y -> set_nth i y l = l.
Proof.
  revert i. induction l as [|a l IH]; intros [|i] H; try discriminate.
  - cbn in *. congruence.
  - cbn in *. f_equal. apply IH, H.
Qed.

Lemma map_set_nth {A B : Type} (f : A -> B) (l : list A) (i : nat) (x : A) :
  map f (set_nth i x l) = set_nth i (f x) (map f l).
Proof.
  revert i. induction l as [|a l IH]; intros [|i]; cbn; try reflexivity.
  f_equal. apply IH.
Qed.

Lemma map_set_nth_same {A B : Type} (f : A -> B) (l : list A) (i : nat)
  (x y : A) :
  nth_error l i = Some y -> f x = f y -> map f (set_nth i x l) = map f l.
Proof.
  intros H E. rewrite map_set_nth, E. apply set_nth_same.
  rewrite nth_error_map, H. reflexivity.
Qed.

Lemma in_set_nth {A : Type} (l : list A) (i : nat) (x t : A) :
  In t (set_nth i x l) -> t = x \/ In t l.
Proof.
  revert i. induction l as [|a l IH]; intros [|i] H; cbn in *;
    try contradiction.
  - destruct H as [H | H]; [left; congruence | right; right; exact H].
  - destruct H as [H | H]; [right; left; exact H |].
    destruct (IH i H) as [E | E]; [left; exact E | right; right; exact E].
Qed.

Lemma list_sum_set_nth (f : thread -> nat) (ts : list thread) (i : nat)
  (t t' : thread) :
  nth_error ts i = Some t ->
  (list_sum (map f (set_nth i t' ts)) + f t
   = list_sum (map f ts) + f t')%nat.
Proof.
  revert i. induction ts as [|a ts IH]; intros [|i] H; try discriminate.
  - cbn in H. injection H as ->. cbn [set_nth map].
    change (list_sum (f t' :: map f ts)) with (f t' + list_sum (map f ts))%nat.
    change (list_sum (f t :: map f ts)) with (f t + list_sum (map f ts))%nat.
    generalize (list_sum (map f ts)), (f t), (f t'). intros. lia.
  - cbn in H. specialize (IH i H). cbn [set_nth map].
    change (list_sum (f a :: map f (set_nth i t' ts)))
      with (f a + list_sum (map f (set_nth i t' ts)))%nat.
    change (list_sum (f a :: map f ts)) with (f a + list_sum (map f ts))%nat.
    revert IH.
    generalize (list_sum (map f ts)), (list_sum (map f (set_nth i t' ts))),
      (f t), (f t'), (f a). intros. lia.
Qed.

(** A step that does not change whether the thread has written leaves
    the written lines alone; the step that writes adds the line. *)
Lemma lines_written_same (ts : list thread) (i : nat) (t t' : thread) :
  nth_error ts i = Some t ->
  wrote t' = wrote t -> t_line t' = t_line t ->
  lines_written (set_nth i t' ts) = lines_written ts.
Proof.
  unfold lines_written.
  revert i. induction ts as [|a ts IH]; intros [|i] H Hw Hl; try discriminate.
  - cbn in *. injection H as ->. rewrite Hw.
    destruct (wrote t); cbn; [rewrite Hl |]; reflexivity.
  - cbn in *. destruct (wrote a); cbn; [f_equal |]; apply IH; assumption.
Qed.

Lemma lines_written_new (ts : list thread) (i : nat) (t t' : thread) :
  nth_error ts i = Some t ->
  wrote t = false -> wrote t' = true ->
  Permutation (t_line t' :: lines_written ts)
    (lines_written (set_nth i t' ts)).
Proof.
  unfold lines_written.
  revert i. induction ts as [|a ts IH]; intros [|i] H Hw Hw'; try discriminate.
  - cbn in *. injection H as ->. rewrite Hw, Hw'. reflexivity.
  - cbn in *. specialize (IH i H Hw Hw').
    destruct (wrote a); cbn.
    + rewrite perm_swap. apply perm_skip, IH.
    + exact IH.
Qed.

Lemma string_app_nil_r (s : string) : (s ++ "")%string = s.
Proof. induction s as [|a s IH]; cbn; [| rewrite IH]; reflexivity. Qed.

Lemma string_app_assoc (a b c : string) :
  ((a ++ b) ++ c)%string = (a ++ b ++ c)%string.
Proof. induction a as [|x a IH]; cbn; [| rewrite IH]; reflexivity. Qed.

Lemma concat_snoc (ws : list string) (l : string) :
  String.concat "" (ws ++ [l]) = (String.concat "" ws ++ l)%string.
Proof.
  induction ws as [|w ws IH]; [reflexivity |].
  destruct ws as [|w' ws].
  - cbn. reflexivity.
  - change (String.concat "" ((w :: w' :: ws) ++ [l]))
      with (w ++ "" ++ String.concat "" ((w' :: ws) ++ [l]))%string.
    rewrite IH.
    change (String.concat "" (w :: w' :: ws))
      with (w ++ "" ++ String.concat "" (w' :: ws))%string.
    cbn [append]. rewrite string_app_assoc. reflexivity.
Qed.

Lemma forallb_false {A : Type} (f : A -> bool) (l : list A) :
  forallb f l = false -> exists x, In x l /\ f x = false.
Proof.
  induction l as [|a l IH]; cbn; [discriminate |].
  destruct (f a) eqn:Fa; cbn.
  - intros H. destruct (IH H) as (x & Hin & Hx). exists x. auto.
  - intros _. exists a. auto.
Qed.

Lemma filter_all {A : Type} (f : A -> bool) (l : list A) :
  (forall x, In x l -> f x = true) -> filter f l = l.
Proof.
  induction l as [|a l IH]; intros H; [reflexivity |].
  cbn. rewrite (H a (or_introl eq_refl)). f_equal.
  apply IH. intros x Hx. apply H. right. exact Hx.
Qed.

(** *** The invariant of the race *)

Section Race.

Variable gmtoff : Z -> Z.
Variable libc : libc_strftime.
Variable time_exp_gmt : Z -> apr_time_exp_t.
Variable can_open : string -> bool.
Variable rl0 : rotated_log.
Variable f0 : apr_file.
Variable name0 : string.
Variable fs0 : string -> string.
Variable T : Z.
Variable lines : list string.

Hypothesis Hfd : fd rl0 = Some f0.
Hypothesis Hwin : logtime rl0 <> T.
Hypothesis Hopen : can_open (nameT libc time_exp_gmt rl0 T) = true.

Local Abbreviation step_at := (step_at gmtoff libc time_exp_gmt can_open).
Local Abbreviation thread_step := (thread_step gmtoff libc time_exp_gmt can_open).
Local Abbreviation shape := (shape libc time_exp_gmt rl0 f0 name0 fs0 T).
Local Abbreviation thread_inv := (thread_inv rl0 f0 name0 fs0 T gmtoff).
Local Abbreviation inv_at :=
  (inv_at libc time_exp_gmt rl0 f0 name0 fs0 T gmtoff lines).
Local Abbreviation nameT := (nameT libc time_exp_gmt rl0 T).
Local Abbreviation hdT := (hdT rl0 name0 fs0).
Local Abbreviation npT := (npT rl0 name0 fs0).
Local Abbreviation n0 := (n0 rl0 name0 fs0).

Lemma n0_above_f0 : (f0 < n0)%nat.
Proof. unfold Race.n0, s0, boot. rewrite Hfd. cbn. lia. Qed.

(** A thread's invariant looks at the lock only. *)
Lemma thread_inv_frame g s s' j t :
  s_writer s' = s_writer s -> s_readers s' = s_readers s ->
  thread_inv g s j t -> thread_inv g s' j t.
Proof.
  intros Hw Hr [H1 H2 H3 H4 H5 H6 H7 H8].
  constructor; try assumption; rewrite ?Hw, ?Hr; assumption.
Qed.

Lemma thread_inv_stage g g' s j t :
  allowed g' (t_pc t) = true ->
  thread_inv g s j t -> thread_inv g' s j t.
Proof.
  intros Ha [H1 H2 H3 H4 H5 H6 H7 H8]. constructor; assumption.
Qed.

(** The step of a thread that leaves the lock as it is. *)
Lemma inv_update g g' s s' ts i t t' :
  inv_at g (s, ts) ->
  nth_error ts i = Some t ->
  s_writer s' = s_writer s -> s_readers s' = s_readers s ->
  shape g' s' ->
  t_holds t' = t_holds t -> t_line t' = t_line t ->
  thread_inv g' s' i t' ->
  (forall j tj, j <> i -> nth_error ts j = Some tj ->
                allowed g' (t_pc tj) = true) ->
  (forall l, rotating g' = Some l ->
             t_pc t' = l \/ (rotating g = Some l /\ t_pc t <> l)) ->
  (exists ws,
      Permutation ws (lines_written (set_nth i t' ts))
      /\ forall n,
           s_files s' n
           = if String.eqb n nameT
             then (fs0 n ++ String.concat "" ws)%string
             else fs0 n) ->
  inv_at g' (s', set_nth i t' ts).
Proof.
  intros [I1 I2 I3 I4 I5 I6 I7 I8] Ht Hw Hr Hs Hh Hl Hti Hothers Hrot Hfiles.
  cbn [fst snd] in *.
  constructor; cbn [fst snd].
  - intros k Hk. rewrite Hr. apply (I1 k). rewrite <- Hw. exact Hk.
  - intros k Hk. rewrite Hw in Hk. destruct (I2 k Hk) as (tk & Hn & Hx).
    destruct (Nat.eq_dec i k) as [-> | Hne].
    + exists t'. split; [eapply nth_error_set_nth_eq; eassumption |].
      rewrite Hh. congruence.
    + exists tk. split; [rewrite nth_error_set_nth_neq by exact Hne |];
        assumption.
  - intros k Hk. rewrite Hr in Hk. destruct (I3 k Hk) as (tk & Hn & Hx).
    destruct (Nat.eq_dec i k) as [-> | Hne].
    + exists t'. split; [eapply nth_error_set_nth_eq; eassumption |].
      rewrite Hh. congruence.
    + exists tk. split; [rewrite nth_error_set_nth_neq by exact Hne |];
        assumption.
  - exact Hs.
  - intros l Hrl. destruct (Hrot l Hrl) as [E | [Hg Hne]].
    + exists i, t'. split; [eapply nth_error_set_nth_eq; eassumption | exact E].
    + destruct (I5 l Hg) as (k & tk & Hn & Hp).
      destruct (Nat.eq_dec i k) as [-> | Hik]; [congruence |].
      exists k, tk. split; [rewrite nth_error_set_nth_neq by exact Hik |];
        assumption.
  - exact Hfiles.
  - rewrite (map_set_nth_same t_line ts i t' t Ht Hl). exact I7.
  - intros k tk Hn. destruct (Nat.eq_dec i k) as [-> | Hik].
    + rewrite (nth_error_set_nth_eq ts k t' t Ht) in Hn.
      injection Hn as <-. exact Hti.
    + rewrite nth_error_set_nth_neq in Hn by exact Hik.
      apply thread_inv_frame with (s := s); [assumption | assumption |].
      apply thread_inv_stage with (g := g).
      * apply (Hothers k tk); [congruence | exact Hn].
      * apply I8, Hn.
Qed.

Lemma shape_frame g s s' :
  s_rl s' = s_rl s -> s_handles s' = s_handles s ->
  s_next s' = s_next s -> s_opened s' = s_opened s ->
  shape g s -> shape g s'.
Proof.
  intros H1 H2 H3 H4. destruct g; cbn; rewrite H1, H2, H3, H4; trivial.
Qed.

(** The step of a thread that takes or gives up the lock. *)
Lemma inv_lock_move g s s' ts i t t' :
  inv_at g (s, ts) ->
  nth_error ts i = Some t ->
  lock_move i s (t_holds t) s' (t_holds t') ->
  s_rl s' = s_rl s -> s_files s' = s_files s ->
  s_handles s' = s_handles s -> s_next s' = s_next s ->
  s_opened s' = s_opened s ->
  t_line t' = t_line t -> wrote t' = wrote t ->
  t_req t' = t_req t -> t_logt t' = t_logt t ->
  t_pc t <> L_start ->
  holds_ok (t_pc t') (t_holds t') = true ->
  allowed g (t_pc t') = true ->
  t_pc t' <> L_pool -> t_pc t' <> L_open -> t_pc t' <> L_close ->
  (forall l, rotating g = Some l -> t_pc t <> l) ->
  inv_at g (s', set_nth i t' ts).
Proof.
  intros [I1 I2 I3 I4 I5 I6 I7 I8] Ht Hmove Hrl Hfs Hhs Hnx Hop
    Hl Hw Hrq Hlg Hst Hok Hal Hp1 Hp2 Hp3 Hrot.
  cbn [fst snd] in *.
  pose proof (I8 i t Ht) as [J1 J2 J3 J4 J5 J6 J7 J8].
  assert (Hmine : thread_inv g s' i t').
  { constructor.
    - exact Hok.
    - intros E. destruct Hmove; try congruence.
    - intros E. destruct Hmove as [? ? ? Hr ?| | |]; try congruence.
      rewrite Hr. left. reflexivity.
    - rewrite Hrq. exact J4.
    - intros _. rewrite Hlg. apply J5, Hst.
    - exact Hal.
    - intros [E | [E | E]]; contradiction.
    - intros [E | E]; contradiction. }
  assert (Hother : forall j tj, j <> i -> nth_error ts j = Some tj ->
                                thread_inv g s' j tj).
  { intros j tj Hji Hn. destruct (I8 j tj Hn) as [K1 K2 K3 K4 K5 K6 K7 K8].
    constructor; try assumption.
    - intros E. specialize (K2 E).
      destruct Hmove as [Hw0 ? ? ? ?|Hw0 ? ? ? ? ?|Hm ? ? ?|? Hw1 ? ?];
        try congruence.
      exfalso. specialize (J2 Hm). congruence.
    - intros E. specialize (K3 E).
      destruct Hmove as [? ? ? Hr ?|? Hr0 ? ? ? ?|? ? Hr ?|? ? Hr ?].
      + rewrite Hr. right. exact K3.
      + rewrite Hr0 in K3. contradiction.
      + rewrite Hr. exact K3.
      + rewrite Hr. apply in_in_remove; [exact Hji | exact K3]. }
  constructor; cbn [fst snd].
  - intros k Hk.
    destruct Hmove as [? ? Hw1 ? ?|? ? ? ? Hr ?|? Hw1 ? ?|Hm Hw1 Hr ?];
      try congruence.
    rewrite Hw1 in Hk. specialize (I1 k Hk). specialize (J3 Hm).
    rewrite I1 in J3. contradiction.
  - intros k Hk. destruct (Nat.eq_dec k i) as [-> | Hki].
    + exists t'. split; [eapply nth_error_set_nth_eq; eassumption |].
      destruct Hmove as [? ? Hw1 ? ?|? ? ? Hw1 ? ?|? Hw1 ? ?|Hm Hw1 Hr ?];
        try congruence.
      rewrite Hw1 in Hk. specialize (I1 i Hk). specialize (J3 Hm).
      rewrite I1 in J3. contradiction.
    + destruct Hmove as [? ? Hw1 ? ?|? ? ? Hw1 ? ?|? Hw1 ? ?|Hm Hw1 Hr ?];
        try congruence.
      rewrite Hw1 in Hk. destruct (I2 k Hk) as (tk & Hn & Hx).
      exists tk. split; [rewrite nth_error_set_nth_neq by congruence |];
        assumption.
  - intros k Hk. destruct (Nat.eq_dec k i) as [-> | Hki].
    + exists t'. split; [eapply nth_error_set_nth_eq; eassumption |].
      destruct Hmove as [? ? ? Hr ?|? ? ? ? Hr ?|Hm ? Hr ?|? ? Hr ?].
      * assumption.
      * rewrite Hr in Hk. contradiction.
      * rewrite Hr in Hk. destruct (I3 i Hk) as (ti & Hn & Hx). congruence.
      * rewrite Hr in Hk. apply in_remove in Hk. destruct Hk as [_ Hk].
        congruence.
    + assert (Hin : In k (s_readers s)).
      { destruct Hmove as [? ? ? Hr ?|? ? ? ? Hr ?|Hm ? Hr ?|? ? Hr ?];
          rewrite Hr in Hk.
        - destruct Hk as [E | Hk]; [congruence | exact Hk].
        - contradiction.
        - exact Hk.
        - apply in_remove in Hk. apply Hk. }
      destruct (I3 k Hin) as (tk & Hn & Hx).
      exists tk. split; [rewrite nth_error_set_nth_neq by congruence |];
        assumption.
  - apply shape_frame with (s := s); assumption.
  - intros l Hgl. destruct (I5 l Hgl) as (k & tk & Hn & Hp).
    destruct (Nat.eq_dec i k) as [-> | Hik].
    + exfalso. apply (Hrot l Hgl). congruence.
    + exists k, tk. split; [rewrite nth_error_set_nth_neq by exact Hik |];
        assumption.
  - destruct I6 as (ws & Hperm & Hfiles). exists ws. split.
    + rewrite (lines_written_same ts i t t' Ht Hw Hl). exact Hperm.
    + rewrite Hfs. exact Hfiles.
  - rewrite (map_set_nth_same t_line ts i t' t Ht Hl). exact I7.
  - intros k tk Hn. destruct (Nat.eq_dec i k) as [-> | Hik].
    + rewrite (nth_error_set_nth_eq ts k t' t Ht) in Hn.
      injection Hn as <-. exact Hmine.
    + rewrite nth_error_set_nth_neq in Hn by exact Hik.
      apply Hother; [congruence | exact Hn].
Qed.

Lemma shape_config g s :
  shape g s ->
  st (s_rl s) = st rl0 /\ fname (s_rl s) = fname rl0
  /\ pool_parent (pool (s_rl s)) = pool_parent (pool rl0).
Proof.
  destruct g; intros (-> & _); repeat split; reflexivity.
Qed.

(** While a thread rotates, no other thread holds the lock. *)
Lemma rotating_excludes g s ts i t l :
  inv_at g (s, ts) ->
  nth_error ts i = Some t ->
  rotating g = Some l -> t_pc t <> l ->
  t_holds t = None.
Proof.
  intros [I1 I2 I3 I4 I5 I6 I7 I8] Ht Hg Hne. cbn [fst snd] in *.
  destruct (I5 l Hg) as (k & tk & Hk & Hpc).
  destruct (I8 k tk Hk) as [K1 K2 _ _ _ _ _ _].
  assert (Hex : t_holds tk = Some Exclusive).
  { rewrite Hpc in K1.
    destruct g; cbn in Hg; try discriminate; injection Hg as <-;
      cbn in K1; destruct (t_holds tk) as [[|]|]; try discriminate;
      reflexivity. }
  specialize (K2 Hex). specialize (I1 k K2).
  destruct (I8 i t Ht) as [_ J2 J3 _ _ _ _ _].
  destruct (t_holds t) as [[|]|]; [| | reflexivity].
  - specialize (J3 eq_refl). rewrite I1 in J3. contradiction.
  - specialize (J2 eq_refl). rewrite K2 in J2. injection J2 as ->.
    rewrite Hk in Ht. injection Ht as ->. contradiction.
Qed.

(** Of two threads, at most one holds the lock exclusively. *)
Lemma one_writer g s ts i j t tj :
  inv_at g (s, ts) ->
  nth_error ts i = Some t -> nth_error ts j = Some tj ->
  t_holds t = Some Exclusive -> t_holds tj = Some Exclusive -> i = j.
Proof.
  intros [_ _ _ _ _ _ _ I8] Ht Hj Hi Hx. cbn [fst snd] in *.
  pose proof (ti_writer _ _ _ _ _ _ _ _ _ _ (I8 i t Ht) Hi) as E1.
  pose proof (ti_writer _ _ _ _ _ _ _ _ _ _ (I8 j tj Hj) Hx) as E2.
  congruence.
Qed.

Lemma others_before g s ts i t j tj :
  inv_at g (s, ts) -> g <> Post ->
  nth_error ts i = Some t -> t_holds t = Some Exclusive ->
  j <> i -> nth_error ts j = Some tj ->
  before_rotation (t_pc tj) = true.
Proof.
  intros I Hg Ht Hx Hji Hj.
  pose proof (inv_threads _ _ _ _ _ _ _ _ _ _ _ I j tj Hj) as [K1 _ _ _ _ K6 _ _].
  cbn [fst snd] in *.
  assert (Hnx : t_holds tj <> Some Exclusive).
  { intros E. apply Hji. symmetry. eapply one_writer; eassumption. }
  unfold allowed in K6.
  destruct (before_rotation (t_pc tj)); [reflexivity |].
  cbn in K6.
  destruct g, (t_pc tj); try discriminate; try congruence;
    cbn in K1; destruct (t_holds tj) as [[|]|]; try discriminate;
    congruence.
Qed.

Lemma files_kept g s s' ts i t t' :
  inv_at g (s, ts) ->
  nth_error ts i = Some t ->
  s_files s' = s_files s ->
  wrote t' = wrote t -> t_line t' = t_line t ->
  exists ws,
    Permutation ws (lines_written (set_nth i t' ts))
    /\ forall n,
         s_files s' n
         = if String.eqb n nameT
           then (fs0 n ++ String.concat "" ws)%string
           else fs0 n.
Proof.
  intros I Ht Hf Hw Hl.
  destruct (inv_files _ _ _ _ _ _ _ _ _ _ _ I) as (ws & Hp & Hfs).
  cbn [fst snd] in *. exists ws. split.
  - rewrite (lines_written_same ts i t t' Ht Hw Hl). exact Hp.
  - rewrite Hf. exact Hfs.
Qed.

Lemma rotating_label g l :
  rotating g = Some l -> l = L_pool \/ l = L_open \/ l = L_close.
Proof.
  destruct g; cbn; intros E; try discriminate; injection E as <-; auto.
Qed.

(** A step of a thread on its own: nothing shared changes. *)
Lemma inv_local g s ts i t t' :
  inv_at g (s, ts) ->
  nth_error ts i = Some t ->
  t_holds t' = t_holds t -> t_line t' = t_line t ->
  t_req t' = t_req t -> wrote t' = wrote t ->
  (t_pc t' <> L_start -> t_logt t' = T) ->
  holds_ok (t_pc t') (t_holds t') = true ->
  allowed g (t_pc t') = true ->
  t_pc t' <> L_pool -> t_pc t' <> L_open -> t_pc t' <> L_close ->
  (forall l, rotating g = Some l -> t_pc t <> l) ->
  inv_at g (s, set_nth i t' ts).
Proof.
  intros I Ht Hh Hl Hr Hw Hlg Hok Hal H1 H2 H3 Hrot.
  pose proof (inv_threads _ _ _ _ _ _ _ _ _ _ _ I i t Ht)
    as [J1 J2 J3 J4 J5 J6 J7 J8].
  cbn [fst snd] in *.
  apply inv_update with (g := g) (s := s) (t := t); trivial.
  - exact (inv_shape _ _ _ _ _ _ _ _ _ _ _ I).
  - constructor; trivial.
    + rewrite Hh. exact J2.
    + rewrite Hh. exact J3.
    + rewrite Hr. exact J4.
    + intros [E | [E | E]]; contradiction.
    + intros [E | E]; contradiction.
  - intros j tj _ Hj.
    exact (ti_allowed _ _ _ _ _ _ _ _ _ _
             (inv_threads _ _ _ _ _ _ _ _ _ _ _ I j tj Hj)).
  - intros l Hgl. right. split; [exact Hgl | exact (Hrot l Hgl)].
  - eapply files_kept; eauto.
Qed.

(** A step of the rotating thread: the stage moves on. *)
Lemma inv_rotation g g' s s' ts i t t' :
  inv_at g (s, ts) -> g <> Post ->
  nth_error ts i = Some t ->
  t_holds t = Some Exclusive -> t_holds t' = Some Exclusive ->
  s_writer s' = s_writer s -> s_readers s' = s_readers s ->
  s_files s' = s_files s ->
  shape g' s' ->
  t_line t' = t_line t -> t_req t' = t_req t -> wrote t' = wrote t ->
  t_logt t' = T ->
  holds_ok (t_pc t') (Some Exclusive) = true ->
  allowed g' (t_pc t') = true ->
  (t_pc t' = L_pool \/ t_pc t' = L_open \/ t_pc t' = L_close ->
   t_ofd t' = Some f0) ->
  (t_pc t' = L_open \/ t_pc t' = L_close -> t_np t' = npT) ->
  (forall l, rotating g' = Some l -> t_pc t' = l) ->
  inv_at g' (s', set_nth i t' ts).
Proof.
  intros I Hg Ht Hx Hx' Hw Hr Hf Hsh Hl Hrq Hwr Hlg Hok Hal Hofd Hnp Hrot.
  pose proof (inv_threads _ _ _ _ _ _ _ _ _ _ _ I i t Ht)
    as [J1 J2 J3 J4 J5 J6 J7 J8].
  cbn [fst snd] in *.
  apply inv_update with (g := g) (s := s) (t := t); trivial.
  - congruence.
  - constructor; trivial.
    + rewrite Hx'. exact Hok.
    + intros _. rewrite Hw. apply J2, Hx.
    + rewrite Hx'. discriminate.
    + rewrite Hrq. exact J4.
  - intros j tj Hji Hj. unfold allowed.
    rewrite (others_before g s ts i t j tj I Hg Ht Hx Hji Hj). reflexivity.
  - intros l Hgl. left. apply Hrot, Hgl.
  - eapply files_kept; eauto.
Qed.

Lemma not_current_before : current T rl0 = false.
Proof.
  unfold current. apply andb_false_intro1, Z.eqb_neq. congruence.
Qed.

Lemma current_after : current T (rlT rl0 name0 fs0 T) = true.
Proof. unfold current. cbn. rewrite Z.eqb_refl. reflexivity. Qed.

Ltac thread_fields :=
  cbn [t_pc t_req t_line t_logt t_ofd t_np t_holds goto holding wrote] in *.

Ltac pick_hold :=
  match goal with
  | H : holds_ok _ ?m = true |- _ =>
      cbn in H; destruct m as [[|]|]; try discriminate H
  end.

Ltac solve_logt :=
  match goal with
  | H : _ <> L_start -> ?x = ?t |- ?x = ?t => apply H; discriminate
  | H : _ <> L_start -> ?x = ?t |- _ -> ?x = ?t => intros _; apply H; discriminate
  end.

Ltac solve_no_label :=
  let E := fresh "E" in
  match goal with
  | |- _ \/ _ \/ _ -> _ => intros [E | [E | E]]; discriminate E
  | |- _ \/ _ -> _ => intros [E | E]; discriminate E
  | |- forall l, _ = Some l -> _ => cbn; intros ? E; congruence
  end.

Ltac side := thread_fields; trivial; try discriminate; try solve_logt;
             try solve_no_label.

Ltac not_rotating g :=
  let l := fresh "l" in
  let H := fresh "H" in
  intros l H;
  destruct (rotating_label g l H) as [-> | [-> | ->]]; discriminate.

(** Every step keeps the invariant. *)
Lemma inv_step g c i c' :
  inv_at g c -> step_at i c = Some c' -> exists g', inv_at g' c'.
Proof.
  destruct c as [s ts]. intros I Hstep.
  unfold Concurrent.step_at in Hstep. cbn [fst snd] in Hstep.
  destruct (nth_error ts i) as [t|] eqn:Ht; [| discriminate].
  destruct (thread_step i s t) as [[s' t']|] eqn:Hts; [| discriminate].
  injection Hstep as <-.
  pose proof (inv_threads _ _ _ _ _ _ _ _ _ _ _ I i t Ht) as J.
  pose proof (inv_shape _ _ _ _ _ _ _ _ _ _ _ I) as Hsh.
  cbn [fst snd] in *.
  destruct (shape_config g s Hsh) as (Hst & Hfn & Hpp).
  destruct J as [J1 J2 J3 J4 J5 J6 J7 J8].
  unfold Concurrent.thread_step in Hts.
  destruct t as [pc rq ln lg ofd np hd]. thread_fields.
  destruct pc.
  - (* L_start *)
    injection Hts as <- <-. pick_hold. exists g.
    eapply inv_local; try eassumption; side.
    + intros _. rewrite Hst. exact J4.
    + not_rotating g.
  - (* L_rdlock1 *)
    unfold rdlock in Hts. destruct (s_writer s) eqn:Hw; [discriminate |].
    injection Hts as <- <-. pick_hold. exists g.
    eapply inv_lock_move; try eassumption; side.
    + apply take_shared; trivial.
    + not_rotating g.
  - (* L_check1 *)
    pick_hold. rewrite (J5 ltac:(discriminate)) in Hts.
    assert (Hg : g = Pre \/ g = Post).
    { destruct g; auto;
        (assert (E : Some Shared = None)
           by (eapply (rotating_excludes _ s ts i _ _ I Ht);
               [reflexivity | thread_fields; discriminate]);
         discriminate E). }
    destruct Hg as [-> | ->]; destruct Hsh as (Hrl & _); rewrite Hrl in Hts.
    + rewrite not_current_before in Hts. injection Hts as <- <-.
      exists Pre. eapply inv_local; try eassumption; side.
    + rewrite current_after in Hts. injection Hts as <- <-.
      exists Post. eapply inv_local; try eassumption; side.
  - (* L_unlock1 *)
    pick_hold. injection Hts as <- <-. exists g.
    eapply inv_lock_move; try eassumption; side.
    + apply drop_shared; trivial.
    + not_rotating g.
  - (* L_wrlock *)
    unfold wrlock in Hts. destruct (s_writer s) eqn:Hw; [discriminate |].
    destruct (s_readers s) eqn:Hr; [| discriminate].
    injection Hts as <- <-. pick_hold. exists g.
    eapply inv_lock_move; try eassumption; side.
    + apply take_exclusive; trivial.
    + not_rotating g.
  - (* L_check2 *)
    pick_hold. rewrite (J5 ltac:(discriminate)) in Hts.
    assert (Hg : g = Pre \/ g = Post).
    { destruct g; auto;
        (assert (E : Some Exclusive = None)
           by (eapply (rotating_excludes _ s ts i _ _ I Ht);
               [reflexivity | thread_fields; discriminate]);
         discriminate E). }
    destruct Hg as [-> | ->]; destruct Hsh as (Hrl & _); rewrite Hrl in Hts.
    + rewrite not_current_before in Hts. injection Hts as <- <-.
      exists Pre. eapply inv_local; try eassumption; side.
    + rewrite current_after in Hts. injection Hts as <- <-.
      exists Post. eapply inv_local; try eassumption; side.
  - (* L_unlock2 *)
    pick_hold. injection Hts as <- <-.
    assert (g = Post) as -> by (destruct g; cbn in J6; congruence).
    exists Post.
    eapply inv_lock_move; try eassumption; side.
    apply drop_exclusive; trivial.
  - (* L_relock *)
    unfold wrlock in Hts. destruct (s_writer s) eqn:Hw; [discriminate |].
    destruct (s_readers s) eqn:Hr; [| discriminate].
    injection Hts as <- <-. pick_hold.
    assert (g = Post) as -> by (destruct g; cbn in J6; congruence).
    exists Post.
    eapply inv_lock_move; try eassumption; side.
    apply take_exclusive; trivial.
  - (* L_swap *)
    pick_hold. injection Hts as <- <-.
    assert (g = Pre) as -> by (destruct g; cbn in J6; congruence).
    destruct Hsh as (Hrl & Hhs & Hnx & Hop).
    exists Swapped.
    eapply inv_rotation with (g := Pre); try eassumption; side.
    + cbn. rewrite Hrl, (J5 ltac:(discriminate)). auto.
    + intros _. rewrite Hrl. exact Hfd.
  - (* L_pool *)
    pick_hold. injection Hts as <- <-.
    assert (g = Swapped) as -> by (destruct g; cbn in J6; congruence).
    destruct Hsh as (Hrl & Hhs & Hnx & Hop).
    exists Pooled.
    eapply inv_rotation with (g := Swapped); try eassumption; side.
    + cbn. auto.
    + intros _. apply J7. auto.
    + intros _. rewrite Hnx, Hrl. reflexivity.
  - (* L_open *)
    pick_hold.
    assert (g = Pooled) as -> by (destruct g; cbn in J6; congruence).
    destruct Hsh as (Hrl & Hhs & Hnx & Hop).
    rewrite Hrl, (J5 ltac:(discriminate)) in Hts.
    change (log_name libc time_exp_gmt (fname (rlS rl0 T)) (st (rlS rl0 T)) T)
      with nameT in Hts.
    rewrite Hopen in Hts. injection Hts as <- <-.
    exists Opened.
    eapply inv_rotation with (g := Pooled); try eassumption; side.
    + cbn. rewrite Hhs, Hnx, Hop. auto.
    + intros _. apply J7. auto.
    + intros _. apply J8. auto.
  - (* L_restore *)
    exfalso. destruct g; cbn in J6; discriminate.
  - (* L_close *)
    pick_hold. injection Hts as <- <-.
    assert (g = Opened) as -> by (destruct g; cbn in J6; congruence).
    destruct Hsh as (Hrl & Hhs & Hnx & Hop).
    exists Post.
    eapply inv_rotation with (g := Opened); try eassumption; side.
    cbn [Race.shape s_rl s_handles s_next s_opened].
    rewrite Hrl, Hhs, (J8 ltac:(auto)), (J7 ltac:(auto)).
    repeat split; trivial.
    unfold close_handle. cbn [filter fst].
    assert (Hne : (hdT =? f0)%nat = false)
      by (apply Nat.eqb_neq; pose proof n0_above_f0; unfold Race.hdT; lia).
    rewrite Hne, Nat.eqb_refl. reflexivity.
  - (* L_unlock3 *)
    pick_hold. injection Hts as <- <-.
    assert (g = Post) as -> by (destruct g; cbn in J6; congruence).
    exists Post.
    eapply inv_lock_move; try eassumption; side.
    apply drop_exclusive; trivial.
  - (* L_checkfd *)
    pick_hold.
    assert (g = Post) as -> by (destruct g; cbn in J6; congruence).
    destruct Hsh as (Hrl & _). rewrite Hrl in Hts. cbn in Hts.
    injection Hts as <- <-. exists Post.
    eapply inv_local; try eassumption; side.
  - (* L_rdlock2 *)
    unfold rdlock in Hts. destruct (s_writer s) eqn:Hw; [discriminate |].
    injection Hts as <- <-. pick_hold.
    assert (g = Post) as -> by (destruct g; cbn in J6; congruence).
    exists Post.
    eapply inv_lock_move; try eassumption; side.
    apply take_shared; trivial.
  - (* L_write *)
    assert (g = Post) as -> by (destruct g; cbn in J6; congruence).
    destruct Hsh as (Hrl & Hhs & Hnx & Hop).
    rewrite Hrl, Hhs in Hts.
    cbn [fd Race.rlT Race.rlO with_pool with_fd] in Hts.
    unfold lookup_handle in Hts. cbn [find fst snd] in Hts.
    rewrite Nat.eqb_refl in Hts.
    injection Hts as <- <-. exists Post.
    eapply inv_update
      with (g := Post) (t := mk_thread L_write rq ln lg ofd np hd);
      try eassumption; side.
    + cbn [Race.shape s_rl s_handles s_next s_opened]. auto.
    + constructor; side.
    + intros j tj _ Hj.
      exact (ti_allowed _ _ _ _ _ _ _ _ _ _
               (inv_threads _ _ _ _ _ _ _ _ _ _ _ I j tj Hj)).
    + destruct (inv_files _ _ _ _ _ _ _ _ _ _ _ I) as (ws & Hp & Hfs).
      cbn [fst snd] in *. exists (ws ++ [ln])%list. split.
      * eapply Permutation_trans;
          [| apply (lines_written_new ts i
                      (mk_thread L_write rq ln lg ofd np hd) _ Ht);
             reflexivity].
        thread_fields. rewrite <- Permutation_cons_append.
        apply perm_skip, Hp.
      * intros n. cbn [s_files]. unfold append_file. rewrite Hfs.
        destruct (String.eqb n nameT); [| reflexivity].
        rewrite concat_snoc, string_app_assoc. reflexivity.
  - (* L_unlock4 *)
    injection Hts as <- <-.
    assert (g = Post) as -> by (destruct g; cbn in J6; congruence).
    pick_hold; exists Post;
      (eapply inv_lock_move; try eassumption; side).
    + apply drop_shared; trivial.
    + apply drop_exclusive; trivial.
  - (* L_done *)
    discriminate.
Qed.

(** *** From the start to every reachable configuration *)

Lemma spawn_all_not_written (l : list (Z * string)) :
  lines_written (spawn_all l) = [].
Proof.
  unfold lines_written, spawn_all.
  induction l as [|q l IH]; [reflexivity | exact IH].
Qed.

Variable reqs : list (Z * string).

Hypothesis Hreqs :
  forall q, In q reqs -> ap_get_quantized_time gmtoff (st rl0) (fst q) = T.
Hypothesis Hlines : lines = map snd reqs.

Local Abbreviation c0 := (boot rl0 name0 fs0, spawn_all reqs).
Local Abbreviation reachable :=
  (reachable gmtoff libc time_exp_gmt can_open).

Lemma inv_start : inv_at Pre c0.
Proof.
  constructor; cbn [fst snd].
  - intros i E. discriminate E.
  - intros i E. discriminate E.
  - intros i [].
  - unfold boot. rewrite Hfd. cbn. repeat split; trivial.
    unfold Race.n0, s0, boot. rewrite Hfd. reflexivity.
  - intros l E. discriminate E.
  - exists []. split.
    + rewrite spawn_all_not_written. constructor.
    + intros n. cbn. destruct (String.eqb n nameT); [| reflexivity].
      rewrite string_app_nil_r. reflexivity.
  - rewrite Hlines. unfold spawn_all. rewrite map_map. reflexivity.
  - intros i t Hn. unfold spawn_all in Hn.
    rewrite nth_error_map in Hn.
    destruct (nth_error reqs i) as [q|] eqn:Hq; [| discriminate].
    injection Hn as <-. constructor; thread_fields; cbn [request_time];
      trivial; try discriminate.
    + apply Hreqs. eapply nth_error_In, Hq.
    + intros E. exfalso. apply E. reflexivity.
    + intros [E | [E | E]]; discriminate.
    + intros [E | E]; discriminate.
Qed.

Lemma inv_reachable c :
  reachable c0 c -> exists g, inv_at g c.
Proof.
  induction 1 as [| c i c' _ [g IH] Hstep].
  - exists Pre. exact inv_start.
  - eapply inv_step; eassumption.
Qed.

(** *** Where the race ends *)

Lemma done_is_success g s ts t :
  inv_at g (s, ts) -> In t ts -> is_done t = true ->
  g = Post /\ t_pc t = L_done APR_SUCCESS /\ t_holds t = None.
Proof.
  intros I Hin Hd. destruct (In_nth_error ts t Hin) as (i & Hi).
  destruct (inv_threads _ _ _ _ _ _ _ _ _ _ _ I i t Hi)
    as [K1 _ _ _ _ K6 _ _].
  unfold is_done in Hd. destruct (t_pc t); try discriminate.
  unfold allowed in K6. cbn [before_rotation orb] in K6.
  destruct g; try discriminate. cbn in K6, K1. rewrite K6 in K1.
  apply Z.eqb_eq in K6. subst rv.
  destruct (t_holds t); [discriminate |]. auto.
Qed.

Lemma race_result g s ts :
  inv_at g (s, ts) -> finished (s, ts) -> ts <> [] ->
  s_opened s = [nameT]
  /\ s_rl s = rlT rl0 name0 fs0 T
  /\ s_writer s = None /\ s_readers s = []
  /\ (forall t, In t ts -> t_pc t = L_done APR_SUCCESS)
  /\ exists ws,
       Permutation ws lines
       /\ forall n,
            s_files s n
            = if String.eqb n nameT
              then (fs0 n ++ String.concat "" ws)%string
              else fs0 n.
Proof.
  intros I Hfin Hne. unfold finished in Hfin. cbn [snd] in Hfin.
  assert (Hg : g = Post).
  { destruct ts as [|t ts']; [contradiction |].
    apply (done_is_success g s (t :: ts') t I (or_introl eq_refl)).
    apply Hfin. left. reflexivity. }
  subst g.
  pose proof I as [I1 I2 I3 I4 I5 I6 I7 I8]. cbn [fst snd] in *.
  destruct I4 as (Hrl & Hhs & Hnx & Hop).
  assert (Hnone : forall t, In t ts -> t_holds t = None).
  { intros t Hin. apply (done_is_success Post s ts t I Hin), Hfin, Hin. }
  repeat split; trivial.
  - destruct (s_writer s) as [k|] eqn:Hw; [| reflexivity].
    destruct (I2 k eq_refl) as (tk & Hk & Hx).
    rewrite (Hnone tk (nth_error_In _ _ Hk)) in Hx. discriminate.
  - destruct (s_readers s) as [|k r] eqn:Hr; [reflexivity |].
    destruct (I3 k (or_introl eq_refl)) as (tk & Hk & Hx).
    rewrite (Hnone tk (nth_error_In _ _ Hk)) in Hx. discriminate.
  - intros t Hin. apply (done_is_success Post s ts t I Hin), Hfin, Hin.
  - destruct I6 as (ws & Hp & Hfs). exists ws. split; [| exact Hfs].
    unfold lines_written in Hp. rewrite filter_all in Hp.
    + rewrite I7 in Hp. exact Hp.
    + intros t Hin. specialize (Hfin t Hin). unfold is_done in Hfin.
      unfold wrote. destruct (t_pc t); try discriminate. reflexivity.
Qed.

(** *** No deadlock, and an end to every run *)

Lemma step_unless_blocked i s t :
  blocked s t = false -> exists r, thread_step i s t = Some r.
Proof.
  clear. unfold blocked, Concurrent.thread_step, rdlock, wrlock.
  destruct (s_writer s), (s_readers s), (t_pc t); cbn; intros Hb;
    try discriminate;
    repeat match goal with
      | |- context [match ?x with _ => _ end] => destruct x
      | |- context [if ?x then _ else _] => destruct x
      end;
    eexists; reflexivity.
Qed.

Lemma holder_not_blocked g s ts i t :
  inv_at g (s, ts) -> nth_error ts i = Some t ->
  t_holds t <> None -> blocked s t = false.
Proof.
  intros I Ht Hh.
  destruct (inv_threads _ _ _ _ _ _ _ _ _ _ _ I i t Ht)
    as [K1 _ _ _ _ K6 _ _].
  unfold blocked. destruct (t_pc t); try reflexivity;
    try (cbn in K1; destruct (t_holds t); [discriminate | congruence]).
  unfold allowed in K6. cbn [before_rotation orb] in K6.
  destruct g; try discriminate. cbn in K6, K1. rewrite K6 in K1.
  destruct (t_holds t); [discriminate | congruence].
Qed.

Lemma no_deadlock g c :
  inv_at g c -> finished c \/ exists i c', step_at i c = Some c'.
Proof.
  destruct c as [s ts]. intros I.
  destruct (forallb is_done ts) eqn:Hall.
  { left. intros t Hin. cbn [snd] in Hin.
    rewrite forallb_forall in Hall. apply Hall, Hin. }
  right.
  assert (Hrun : forall i t, nth_error ts i = Some t ->
                             blocked s t = false ->
                             exists i c', step_at i (s, ts) = Some c').
  { intros i t Ht Hb. destruct (step_unless_blocked i s t Hb) as ([s' t'] & Hs).
    exists i. eexists. unfold Concurrent.step_at. cbn [fst snd].
    rewrite Ht, Hs. reflexivity. }
  pose proof I as [I1 I2 I3 _ _ _ _ _]. cbn [fst snd] in *.
  destruct (s_writer s) as [k|] eqn:Hw.
  { destruct (I2 k eq_refl) as (tk & Hk & Hx).
    apply (Hrun k tk Hk). eapply holder_not_blocked; try eassumption.
    congruence. }
  destruct (s_readers s) as [|k r] eqn:Hr.
  - destruct (forallb_false _ _ Hall) as (t & Hin & Hnd).
    destruct (In_nth_error ts t Hin) as (i & Hi).
    apply (Hrun i t Hi). unfold blocked. rewrite Hw, Hr.
    unfold is_done in Hnd. destruct (t_pc t); try reflexivity. discriminate.
  - destruct (I3 k (or_introl eq_refl)) as (tk & Hk & Hx).
    apply (Hrun k tk Hk). eapply holder_not_blocked; try eassumption.
    congruence.
Qed.

Lemma thread_step_rank i s t s' t' :
  thread_step i s t = Some (s', t') ->
  (rank (t_pc t') < rank (t_pc t))%nat.
Proof.
  clear. unfold Concurrent.thread_step, rdlock, wrlock.
  destruct (s_writer s), (s_readers s), (t_pc t); cbn; intros H;
    try discriminate;
    repeat match type of H with
      | context [match ?x with _ => _ end] => destruct x
      | context [if ?x then _ else _] => destruct x
      end;
    try discriminate; injection H as <- <-; cbn; lia.
Qed.

Lemma step_decreases i c c' :
  step_at i c = Some c' -> (steps_left c' < steps_left c)%nat.
Proof.
  destruct c as [s ts]. unfold Concurrent.step_at. cbn [fst snd].
  destruct (nth_error ts i) as [t|] eqn:Ht; [| discriminate].
  destruct (thread_step i s t) as [[s' t']|] eqn:Hs; [| discriminate].
  intros E. injection E as <-. unfold steps_left. cbn [snd].
  pose proof (thread_step_rank i s t s' t' Hs).
  pose proof (list_sum_set_nth (fun t => rank (t_pc t)) ts i t t' Ht).
  cbn beta in *. lia.
Qed.

Lemma can_finish n c :
  (steps_left c <= n)%nat -> reachable c0 c ->
  exists c', reachable c0 c' /\ finished c'.
Proof.
  revert c. induction n as [|n IH]; intros c Hn Hr;
    destruct (inv_reachable c Hr) as (g & I);
    destruct (no_deadlock g c I) as [Hf | (i & c' & Hs)];
    try (exists c; split; assumption).
  - pose proof (step_decreases i c c' Hs). lia.
  - apply (IH c').
    + pose proof (step_decreases i c c' Hs). lia.
    + eapply reach_step; eassumption.
Qed.

End Race.

Lemma run_reachable gmtoff libc time_exp_gmt can_open c0 sched :
  forall c,
    reachable gmtoff libc time_exp_gmt can_open c0 c ->
    reachable gmtoff libc time_exp_gmt can_open c0
      (run gmtoff libc time_exp_gmt can_open sched c).
Proof.
  induction sched as [|i sched IH]; intros c Hr; [exact Hr |].
  cbn [run].
  destruct (step_at gmtoff libc time_exp_gmt can_open i c) as [c'|] eqn:Hs.
  - apply IH. eapply reach_step; eassumption.
  - apply IH, Hr.
Qed.


Lemma demo_run_finished :
  finished (demo_run (round_robin 3 40) demo_reqs).
Proof.
  assert (H : forallb is_done (snd (demo_run (round_robin 3 40) demo_reqs))
              = true) by (vm_compute; reflexivity).
  intros t Hin. rewrite forallb_forall in H. apply H, Hin.
Qed.



End RaceProofs.

(** * Further properties of the code *)

(** ** The quantizer and the configuration *)

Lemma quot_floor_gap (a c : Z) :
  0 < c -> a / c <= Z.quot a c <= a / c + 1.
Proof.
  intros Hc.
  pose proof (Z.quot_rem' a c) as Hq.
  assert (Hd : a = c * (a / c) + a mod c) by (apply Z.div_mod; lia).
  pose proof (Z.mod_pos_bound a c Hc) as Hm.
  destruct (Z_le_gt_dec 0 a) as [Ha | Ha].
  - rewrite Z.quot_div_nonneg by lia. lia.
  - assert (Hr : - c < Z.rem a c <= 0)
      by (apply Z.rem_bound_pos_neg; lia).
    set (q := Z.quot a c) in *. set (d := a / c) in *.
    assert (E : c * (q - d) = a mod c - Z.rem a c) by lia.
    assert (0 <= c * (q - d) < c * 2) by lia.
    split; nia.
Qed.

Lemma quot_far_apart (a b c : Z) :
  0 < c -> a + 2 * c <= b -> Z.quot a c < Z.quot b c.
Proof.
  intros Hc Hab.
  pose proof (quot_floor_gap a c Hc) as Ha.
  pose proof (quot_floor_gap b c Hc) as Hb.
  assert (a / c + 2 <= b / c); [| lia].
  replace (a / c + 2) with ((a + 2 * c) / c).
  - apply Z.div_le_mono; lia.
  - rewrite Z.div_add by lia. reflexivity.
Qed.

Lemma interval_positive (ls : log_options) :
  INTERVAL_MIN <= interval ls -> 0 < interval ls.
Proof. rewrite INTERVAL_MIN_val. lia. Qed.

(** X1: the instant a request is quantized from lies less than one
    interval away from the window it is given, on the side away from
    zero; every instant closer to zero than one interval falls in the
    window 0, which is therefore twice as long as the others. *)
Theorem quantized_window_bounds gmtoff ls now :
  INTERVAL_MIN <= interval ls ->
  in_int64 (now + offset ls) ->
  in_int64 (gmtoff now * APR_USEC_PER_SEC) ->
  in_int64 (adjusted_instant gmtoff ls now) ->
  let a := adjusted_instant gmtoff ls now in
  let q := ap_get_quantized_time gmtoff ls now in
  (0 <= a -> q <= a < q + interval ls)
  /\ (a <= 0 -> q - interval ls < a <= q)
  /\ (- interval ls < a < interval ls -> q = 0).
Proof.
  intros Hmin H1 H2 H3 a q.
  pose proof (interval_positive ls Hmin) as Hpos.
  assert (Hq : q = Z.quot a (interval ls) * interval ls)
    by (apply quantized_time_exact; assumption).
  pose proof (Z.quot_rem' a (interval ls)) as Hqr.
  split; [| split].
  - intros Ha.
    pose proof (Z.rem_bound_pos a (interval ls) Ha Hpos). lia.
  - intros Ha.
    assert (Hr : - interval ls < Z.rem a (interval ls) <= 0)
      by (apply Z.rem_bound_pos_neg; lia).
    lia.
  - intros Ha. rewrite Hq.
    destruct (Z_le_gt_dec 0 a) as [Hs | Hs].
    + rewrite Z.quot_small by lia. reflexivity.
    + replace a with (- (- a)) by lia.
      rewrite Z.quot_opp_l by lia.
      rewrite Z.quot_small by lia. reflexivity.
Qed.

Lemma quantized_window_bounds_witness :
  let ls := set_interval make_log_options (Some 3600) (Some 60) in
  let now := 1700000123456789 in
  let a := adjusted_instant (fun _ => 0) ls now in
  let q := ap_get_quantized_time (fun _ => 0) ls now in
  q = 1700002800000000 /\ q <= a < q + interval ls.
Proof.
  split; [reflexivity |].
  apply (quantized_window_bounds (fun _ => 0)
           (set_interval make_log_options (Some 3600) (Some 60))
           1700000123456789);
    vm_compute; try split; congruence.
Defined.

(** X2: the window never moves backward when the adjusted instant moves
    forward; with UTC windows ([RotateLogsLocalTime] off) that is: a later
    request never gets an earlier window. *)
Theorem quantized_time_monotone gmtoff ls t1 t2 :
  INTERVAL_MIN <= interval ls ->
  in_int64 (t1 + offset ls) -> in_int64 (t2 + offset ls) ->
  in_int64 (gmtoff t1 * APR_USEC_PER_SEC) ->
  in_int64 (gmtoff t2 * APR_USEC_PER_SEC) ->
  in_int64 (adjusted_instant gmtoff ls t1) ->
  in_int64 (adjusted_instant gmtoff ls t2) ->
  (adjusted_instant gmtoff ls t1 <= adjusted_instant gmtoff ls t2 ->
   ap_get_quantized_time gmtoff ls t1 <= ap_get_quantized_time gmtoff ls t2)
  /\ (localt ls = 0 -> t1 <= t2 ->
      ap_get_quantized_time gmtoff ls t1
      <= ap_get_quantized_time gmtoff ls t2).
Proof.
  intros Hmin A1 A2 B1 B2 C1 C2.
  pose proof (interval_positive ls Hmin) as Hpos.
  assert (Hgen :
    adjusted_instant gmtoff ls t1 <= adjusted_instant gmtoff ls t2 ->
    ap_get_quantized_time gmtoff ls t1 <= ap_get_quantized_time gmtoff ls t2).
  { intros Hle.
    rewrite !quantized_time_exact by assumption.
    apply Z.mul_le_mono_nonneg_r; [lia |].
    apply Z.quot_le_mono; assumption. }
  split; [exact Hgen |].
  intros Hutc Hle. apply Hgen.
  unfold adjusted_instant, local_adjustment. rewrite Hutc. cbn. lia.
Qed.

Lemma quantized_time_monotone_witness :
  let ls := set_interval make_log_options (Some 3600) None in
  ap_get_quantized_time (fun _ => 0) ls 3599999999
  <= ap_get_quantized_time (fun _ => 0) ls 3600000000.
Proof.
  apply (quantized_time_monotone (fun _ => 0)
           (set_interval make_log_options (Some 3600) None)
           3599999999 3600000000);
    vm_compute; try split; congruence.
Defined.

(** X3: with UTC windows, the instant a file is named after (the window
    less the offset) is itself given that window: quantizing is
    idempotent on the names it produces. *)
Theorem quantized_time_idempotent gmtoff ls now :
  INTERVAL_MIN <= interval ls ->
  localt ls = 0 ->
  let q := ap_get_quantized_time gmtoff ls now in
  in_int64 (q - offset ls) ->
  ap_get_quantized_time gmtoff ls (time_sub q (offset ls)) = q.
Proof.
  intros Hmin Hutc q Hr.
  pose proof (interval_positive ls Hmin) as Hpos.
  assert (Hq : in_int64 q) by apply wrap64_range.
  assert (Hk : (interval ls | q))
    by (apply quantized_time_divides; exact Hpos).
  clearbody q. destruct Hk as [k Hk].
  unfold time_sub. rewrite (wrap64_id _ Hr).
  rewrite ap_get_quantized_time_quot by assumption. cbv zeta.
  rewrite Hutc. change (0 =? 0) with true. cbv iota.
  unfold time_add.
  replace (q - offset ls + offset ls) with q by lia.
  rewrite (wrap64_id q Hq). rewrite Z.add_0_r, (wrap64_id q Hq).
  subst q. rewrite Z.quot_mul by lia. reflexivity.
Qed.

Lemma quantized_time_idempotent_witness :
  let ls := set_interval make_log_options (Some 86400) (Some 60) in
  let q := ap_get_quantized_time (fun _ => 0) ls 1700000123456789 in
  time_sub q (offset ls) = 1699916400000000
  /\ ap_get_quantized_time (fun _ => 0) ls (time_sub q (offset ls)) = q.
Proof.
  split; [reflexivity |].
  apply (quantized_time_idempotent (fun _ => 0)
           (set_interval make_log_options (Some 86400) (Some 60))
           1700000123456789);
    vm_compute; try split; congruence.
Defined.

(** X4: whatever directives a configuration holds, in whatever order and
    with whatever numbers, the interval it ends with is at least one
    minute, so that the quantizer never divides by zero; a virtual host
    gets the options of the main server, its own are dropped. *)
Theorem configured_interval_at_least_minute (ds vs : list directive) :
  INTERVAL_MIN <= interval (configure ds)
  /\ merge_log_options (configure ds) (configure vs) = configure ds
  /\ forall gmtoff now,
       (interval (configure ds)
        | ap_get_quantized_time gmtoff (configure ds) now).
Proof.
  assert (H : INTERVAL_MIN <= interval (configure ds)).
  { unfold configure.
    generalize make_log_options_interval.
    generalize make_log_options as ls.
    induction ds as [| d ds IH]; intros ls Hls; [exact Hls |].
    cbn [fold_left]. apply IH.
    destruct d as [flag | flag | inte offs]; cbn [apply_directive].
    - exact Hls.
    - exact Hls.
    - apply set_interval_min. exact Hls. }
  split; [exact H | split; [reflexivity |]].
  intros gmtoff now. apply quantized_time_divides.
  apply interval_positive. exact H.
Qed.

(** ** Names *)

Lemma string_app_inv_head (a b c : string) :
  (a ++ b)%string = (a ++ c)%string -> b = c.
Proof.
  induction a as [| x a IH]; cbn; intros H; [exact H |].
  injection H as H. exact (IH H).
Qed.

Lemma decimal_injective (a b : Z) : decimal a = decimal b -> a = b.
Proof.
  unfold decimal. intros H.
  assert (Hn : forall z, Z.to_int z <> Decimal.Pos Decimal.Nil
                         /\ Z.to_int z <> Decimal.Neg Decimal.Nil).
  { intros [| p | p]; cbn; split; try discriminate;
      intros E; injection E as E;
      exact (DecimalPos.Unsigned.to_uint_nonnil p E). }
  apply DecimalZ.to_int_inj.
  pose proof (NilZero.isi (Z.to_int a) (proj1 (Hn a)) (proj2 (Hn a))) as Ha.
  pose proof (NilZero.isi (Z.to_int b) (proj1 (Hn b)) (proj2 (Hn b))) as Hb.
  rewrite H in Ha. rewrite Ha in Hb. injection Hb as Hb. exact Hb.
Qed.

(** X5: without substitutions, two different windows of a configuration
    never get the same file name, whatever the base name: the suffixes
    tell them apart. *)
Theorem suffix_names_distinct libc gmt base ls t1 t2 :
  enabled ls <> RL_SUBSTITUTIONS ->
  INTERVAL_MIN <= interval ls ->
  (interval ls | t1) -> (interval ls | t2) ->
  in_int64 (t1 - offset ls) -> in_int64 (t2 - offset ls) ->
  t1 <> t2 ->
  log_name libc gmt base ls t1 <> log_name libc gmt base ls t2.
Proof.
  intros Hen Hmin [k1 E1] [k2 E2] R1 R2 Hne Heq.
  pose proof Hmin as Hmin'. rewrite INTERVAL_MIN_val in Hmin'.
  assert (Hs : apr_time_sec (time_sub t1 (offset ls))
               = apr_time_sec (time_sub t2 (offset ls))).
  { unfold log_name in Heq.
    destruct (enabled ls); try (exfalso; apply Hen; reflexivity);
      unfold suffix_name in Heq;
      apply string_app_inv_head in Heq;
      apply (string_app_inv_head ".") in Heq;
      exact (decimal_injective _ _ Heq). }
  unfold apr_time_sec, time_div, time_sub in Hs.
  rewrite (wrap64_id _ R1), (wrap64_id _ R2) in Hs.
  assert (Hu : 0 < APR_USEC_PER_SEC) by (unfold APR_USEC_PER_SEC; lia).
  rewrite !wrap64_id in Hs by (apply quot_in_int64; assumption).
  assert (Hgap : t1 + interval ls <= t2 \/ t2 + interval ls <= t1).
  { subst t1 t2.
    destruct (Z_lt_le_dec k1 k2) as [Hk | Hk]; [left; nia |].
    destruct (Z.eq_dec k1 k2) as [Ek | Ek]; [congruence | right; nia]. }
  destruct Hgap as [Hg | Hg].
  - assert (Z.quot (t1 - offset ls) APR_USEC_PER_SEC
            < Z.quot (t2 - offset ls) APR_USEC_PER_SEC); [| lia].
    apply quot_far_apart; [exact Hu |]. unfold APR_USEC_PER_SEC. lia.
  - assert (Z.quot (t2 - offset ls) APR_USEC_PER_SEC
            < Z.quot (t1 - offset ls) APR_USEC_PER_SEC); [| lia].
    apply quot_far_apart; [exact Hu |]. unfold APR_USEC_PER_SEC. lia.
Qed.

Lemma suffix_names_distinct_witness :
  let ls := set_interval make_log_options (Some 60) (Some 1) in
  let name := log_name Reference.libc_c Reference.time_exp_gmt "access.log" ls in
  name 0 = "access.log.-60"%string
  /\ name 60000000 = "access.log.0"%string
  /\ name 0 <> name 60000000.
Proof.
  split; [reflexivity | split; [reflexivity |]].
  apply (suffix_names_distinct Reference.libc_c Reference.time_exp_gmt
           "access.log" (set_interval make_log_options (Some 60) (Some 1))
           0 60000000).
  - discriminate.
  - vm_compute. congruence.
  - exists 0. reflexivity.
  - exists 1. reflexivity.
  - vm_compute. split; congruence.
  - vm_compute. split; congruence.
  - discriminate.
Defined.

(** ** One thread: what a call of the writer leaves behind *)

Opaque ap_get_quantized_time.

Lemma unlock_pop_push (lck : apr_anylock_type) (held : list lock_mode) :
  unlock_pop lck (lock_push lck held) = held.
Proof. destruct lck; reflexivity. Qed.

Lemma current_true (logt : Z) (rl : rotated_log) :
  (logt =? logtime rl) && negb (is_null (fd rl)) = true ->
  logt = logtime rl /\ exists f, fd rl = Some f.
Proof.
  intros H. apply andb_prop in H. destruct H as [H1 H2].
  apply Z.eqb_eq in H1. split; [exact H1 |].
  destruct (fd rl) as [f |]; [exists f; reflexivity | discriminate H2].
Qed.

Lemma closed_app (a b : list event) :
  closed (a ++ b) = (closed a ++ closed b)%list.
Proof.
  induction a as [| e a IH]; [reflexivity |].
  destruct e; cbn; rewrite ?IH; reflexivity.
Qed.

Lemma pools_created_app (a b : list event) :
  pools_created (a ++ b) = (pools_created a ++ pools_created b)%list.
Proof.
  induction a as [| e a IH]; [reflexivity |].
  destruct e; cbn; rewrite ?IH; reflexivity.
Qed.

Lemma lock_calls_app (a b : list event) :
  lock_calls (a ++ b) = (lock_calls a ++ lock_calls b)%list.
Proof.
  induction a as [| e a IH]; [reflexivity |].
  destruct e; cbn; rewrite ?IH; reflexivity.
Qed.

Lemma closed_lock lck : closed (lock_events lck) = [].
Proof. destruct lck; reflexivity. Qed.

Lemma closed_unlock lck : closed (unlock_events lck) = [].
Proof. destruct lck; reflexivity. Qed.

Lemma pools_created_lock lck : pools_created (lock_events lck) = [].
Proof. destruct lck; reflexivity. Qed.

Lemma pools_created_unlock lck : pools_created (unlock_events lck) = [].
Proof. destruct lck; reflexivity. Qed.

Ltac calls :=
  repeat (progress (rewrite ?opened_names_app, ?written_app, ?closed_app,
                      ?pools_created_app,
                      ?opened_names_lock, ?opened_names_unlock,
                      ?written_lock, ?written_unlock,
                      ?closed_lock, ?closed_unlock,
                      ?pools_created_lock, ?pools_created_unlock;
                    cbn [opened_names written closed pools_created app]));
  rewrite ?app_nil_r.

(** What [swap_log] leaves alone, and what it always does. *)
Lemma swap_log_frame h logt w :
  let res := swap_log h logt w in
  w_held (snd res) = w_held w
  /\ logtime (w_rl (snd res)) = logt
  /\ read_lock (w_rl (snd res)) = read_lock (w_rl w)
  /\ write_lock (w_rl (snd res)) = write_lock (w_rl w)
  /\ st (w_rl (snd res)) = st (w_rl w)
  /\ fname (w_rl (snd res)) = fname (w_rl w)
  /\ exists tr, w_trace (snd res) = (w_trace w ++ tr)%list /\ written tr = [].
Proof.
  cbv zeta. rewrite swap_log_run. cbv zeta.
  destruct (failed (fst (h_pool_create h _ _))).
  - proj. repeat (split; [reflexivity |]).
    eexists. split; reflexivity.
  - match goal with
    | |- context [failed (fst (h_file_open h ?tr ?n))] =>
        destruct (failed (fst (h_file_open h tr n)))
    end.
    + proj. repeat (split; [reflexivity |]).
      eexists. split; [rewrite <- app_assoc; reflexivity | reflexivity].
    + proj. repeat (split; [reflexivity |]).
      eexists. split; [rewrite <- app_assoc; reflexivity |].
      cbn [app written]. rewrite !written_app.
      match goal with
      | |- context [if ?b then _ else _] => destruct b
      end; reflexivity.
Qed.

(** The writer when the log is not on the window of the request, or has
    no file: all of it but [swap_log]. *)
Lemma writer_slow h r strs w :
  quiet h -> locks_succeed h -> writes_succeed h ->
  enabled (st (w_rl w)) <> RL_DISABLED ->
  (window_of h (w_rl w) r =? logtime (w_rl w))
  && negb (is_null (fd (w_rl w))) = false ->
  let rd := read_lock (w_rl w) in
  let wr := write_lock (w_rl w) in
  let w0 :=
    mk_world (w_rl w) (lock_push wr (w_held w))
      (w_trace w
       ++ EvLog APLOG_DEBUG 0
            (lock_debug_msg (window_of h (w_rl w) r) (logtime (w_rl w)))
       :: lock_events rd ++ unlock_events rd ++ lock_events wr) in
  let rv := fst (swap_log h (window_of h (w_rl w) r) w0) in
  let w1 := snd (swap_log h (window_of h (w_rl w) r) w0) in
  ap_rotated_log_writer h r RotatedLog strs w
  = if failed rv then
      (rv, mk_world (w_rl w1) (w_held w) (w_trace w1 ++ unlock_events wr))
    else if is_null (fd (w_rl w1)) then
      (APR_ENOENT,
       mk_world (w_rl w1) (w_held w) (w_trace w1 ++ unlock_events wr))
    else
      (APR_SUCCESS,
       mk_world (w_rl w1) (w_held w)
         (w_trace w1 ++ unlock_events wr ++ lock_events rd
          ++ EvFileWrite (fd (w_rl w1)) (String.concat "" strs) APR_SUCCESS
          :: unlock_events rd)).
Proof.
  intros Hq Hl Hw He Hc. cbv zeta.
  rewrite writer_run by assumption. cbv zeta.
  rewrite ap_lock_log_slow by assumption.
  rewrite rotate_run by assumption. cbv zeta.
  rewrite unlock_pop_push.
  set (w0 := mk_world (w_rl w) _ _).
  destruct (swap_log_frame h (window_of h (w_rl w) r) w0)
    as (Hh & _ & Hrd & Hwr & _ & _ & _).
  cbv zeta in Hh, Hrd, Hwr.
  destruct (swap_log h (window_of h (w_rl w) r) w0) as [rv w1].
  cbn [fst snd] in *.
  rewrite Hh, Hrd, Hwr. subst w0. cbn [w_rl w_held] in *.
  rewrite unlock_pop_push.
  destruct (failed rv) eqn:F.
  - proj. rewrite F. reflexivity.
  - destruct (is_null (fd (w_rl w1))).
    + proj. change (failed APR_ENOENT) with true. cbv iota. reflexivity.
    + proj. ok_status. proj. rewrite !Hrd, unlock_pop_push.
      rewrite <- !app_assoc. reflexivity.
Qed.

Lemma quiet_host_quiet : quiet Reference.quiet_host.
Proof. intros tr pt rl. reflexivity. Qed.

Lemma quiet_host_locks : locks_succeed Reference.quiet_host.
Proof. split; intros; reflexivity. Qed.

Lemma quiet_host_writes : writes_succeed Reference.quiet_host.
Proof. intros tr f buf. reflexivity. Qed.

Lemma quiet_host_pools : pools_succeed Reference.quiet_host.
Proof. intros tr par. reflexivity. Qed.

Lemma quiet_host_opens : opens_succeed Reference.quiet_host.
Proof. intros tr name. reflexivity. Qed.

(** X6: with one thread, and lock and write calls that succeed, the
    writer gives back every lock it takes, on every path: whether the
    line is written at once, after a rotation, or not at all because the
    pool or the file could not be had. *)
Theorem writer_releases_locks h r handle strs w :
  quiet h -> locks_succeed h -> writes_succeed h ->
  w_held (snd (ap_rotated_log_writer h r handle strs w)) = w_held w.
Proof.
  intros Hq Hl Hw.
  destruct handle; [reflexivity |].
  destruct (enabled (st (w_rl w))) eqn:E.
  - unfold ap_rotated_log_writer, bind, get_rl. proj. rewrite E. reflexivity.
  - assert (He : enabled (st (w_rl w)) <> RL_DISABLED) by congruence.
    destruct ((window_of h (w_rl w) r =? logtime (w_rl w))
              && negb (is_null (fd (w_rl w)))) eqn:C.
    + destruct (current_true _ _ C) as [Hwin [f Hf]].
      rewrite writer_run by assumption. cbv zeta.
      rewrite (ap_lock_log_fast h r w f) by assumption. proj. ok_status.
      proj. apply unlock_pop_push.
    + rewrite writer_slow by assumption. cbv zeta.
      repeat match goal with
             | |- context [if ?b then _ else _] => destruct b
             end; reflexivity.
  - assert (He : enabled (st (w_rl w)) <> RL_DISABLED) by congruence.
    destruct ((window_of h (w_rl w) r =? logtime (w_rl w))
              && negb (is_null (fd (w_rl w)))) eqn:C.
    + destruct (current_true _ _ C) as [Hwin [f Hf]].
      rewrite writer_run by assumption. cbv zeta.
      rewrite (ap_lock_log_fast h r w f) by assumption. proj. ok_status.
      proj. apply unlock_pop_push.
    + rewrite writer_slow by assumption. cbv zeta.
      repeat match goal with
             | |- context [if ?b then _ else _] => destruct b
             end; reflexivity.
Qed.

Lemma writer_releases_locks_witness :
  let w := Reference.start
             (Reference.threaded_log make_log_options "access.log" 0) in
  w_held (snd (ap_rotated_log_writer Reference.no_open_host
                 (mk_request 90000000000) RotatedLog ["GET /"%string] w))
  = [].
Proof.
  apply (writer_releases_locks Reference.no_open_host
           (mk_request 90000000000) RotatedLog ["GET /"%string]
           (Reference.start
              (Reference.threaded_log make_log_options "access.log" 0))).
  - intros tr pt rl. reflexivity.
  - split; intros; reflexivity.
  - intros tr f buf. reflexivity.
Defined.

(** X7: with one thread, every call of the writer leaves the log on the
    window of its request, whatever its status; a call that succeeds has
    written the line once, to the file that is current when it returns;
    a call that fails has written nothing. *)
Theorem writer_lands_on_request_window h r strs w :
  quiet h -> locks_succeed h -> writes_succeed h ->
  enabled (st (w_rl w)) <> RL_DISABLED ->
  let res := ap_rotated_log_writer h r RotatedLog strs w in
  logtime (w_rl (snd res)) = window_of h (w_rl w) r
  /\ (fst res = APR_SUCCESS ->
      exists f,
        fd (w_rl (snd res)) = Some f
        /\ written (w_trace (snd res))
           = (written (w_trace w) ++ [(Some f, String.concat "" strs)])%list)
  /\ (fst res <> APR_SUCCESS ->
      written (w_trace (snd res)) = written (w_trace w)).
Proof.
  intros Hq Hl Hw He. cbv zeta.
  destruct ((window_of h (w_rl w) r =? logtime (w_rl w))
            && negb (is_null (fd (w_rl w)))) eqn:C.
  - destruct (current_true _ _ C) as [Hwin [f Hf]].
    rewrite writer_run by assumption. cbv zeta.
    rewrite (ap_lock_log_fast h r w f) by assumption. proj. ok_status. proj.
    split; [symmetry; exact Hwin | split].
    + intros _. exists f. split; [exact Hf |].
      rewrite Hf. calls. reflexivity.
    + intros H. exfalso. apply H. reflexivity.
  - rewrite writer_slow by assumption. cbv zeta.
    set (w0 := mk_world (w_rl w) _ _).
    destruct (swap_log_frame h (window_of h (w_rl w) r) w0)
      as (_ & Hlt & _ & _ & _ & _ & tr & Htr & Hwr).
    cbv zeta in Hlt, Htr.
    destruct (swap_log h (window_of h (w_rl w) r) w0) as [rv w1].
    cbn [fst snd] in *. subst w0. cbn [w_trace] in Htr.
    destruct (failed rv) eqn:F; [| destruct (fd (w_rl w1)) as [f |] eqn:Hf];
      cbn [is_null]; proj.
    + split; [exact Hlt | split].
      * intros E. apply failed_not_success in F. contradiction.
      * intros _. rewrite Htr. calls. rewrite Hwr. calls. reflexivity.
    + split; [exact Hlt | split].
      * intros _. exists f. split; [exact Hf |].
        rewrite ?Hf, Htr. calls. rewrite Hwr. calls. reflexivity.
      * intros H. exfalso. apply H. reflexivity.
    + split; [exact Hlt | split].
      * intros E. discriminate E.
      * intros _. rewrite Htr. calls. rewrite Hwr. calls. reflexivity.
Qed.

Lemma writer_lands_on_request_window_witness :
  let w := Reference.start
             (Reference.threaded_log make_log_options "access.log" 0) in
  let res :=
    ap_rotated_log_writer Reference.quiet_host (mk_request 90000000000)
      RotatedLog ["GET /"%string] w in
  fst res = APR_SUCCESS
  /\ logtime (w_rl (snd res)) = 86400000000
  /\ written (w_trace (snd res)) = [(fd (w_rl (snd res)), "GET /"%string)].
Proof.
  split; [vm_compute; reflexivity |].
  split; [| vm_compute; reflexivity].
  pose proof (writer_lands_on_request_window Reference.quiet_host
                (mk_request 90000000000) ["GET /"%string]
                (Reference.start
                   (Reference.threaded_log make_log_options "access.log" 0))
                quiet_host_quiet quiet_host_locks quiet_host_writes) as H.
  cbv zeta in H. apply H. discriminate.
Defined.

(** X8: when the pool of a new window cannot be created, the writer
    returns the status of [apr_pool_create] and the line is not written;
    no file is opened or closed and the file and the pool of the log stay
    as they were, yet the log is moved to the new window: the next
    request of that window is written to the file of the old one, with no
    further attempt to rotate. *)
Theorem pool_failure_drops_line h rv r strs r2 strs2 w f :
  quiet h -> locks_succeed h -> writes_succeed h ->
  pools_fail h rv ->
  enabled (st (w_rl w)) <> RL_DISABLED ->
  fd (w_rl w) = Some f ->
  window_of h (w_rl w) r <> logtime (w_rl w) ->
  window_of h (w_rl w) r2 = window_of h (w_rl w) r ->
  let first := ap_rotated_log_writer h r RotatedLog strs w in
  let second := ap_rotated_log_writer h r2 RotatedLog strs2 (snd first) in
  fst first = rv
  /\ w_rl (snd first) = with_logtime (w_rl w) (window_of h (w_rl w) r)
  /\ w_held (snd first) = w_held w
  /\ written (w_trace (snd first)) = written (w_trace w)
  /\ opened_names (w_trace (snd first)) = opened_names (w_trace w)
  /\ closed (w_trace (snd first)) = closed (w_trace w)
  /\ fst second = APR_SUCCESS
  /\ w_rl (snd second) = w_rl (snd first)
  /\ written (w_trace (snd second))
     = (written (w_trace w) ++ [(Some f, String.concat "" strs2)])%list
  /\ opened_names (w_trace (snd second)) = opened_names (w_trace w)
  /\ pools_created (w_trace (snd second))
     = pools_created (w_trace (snd first)).
Proof.
  intros Hq Hl Hw [Hrv Hp] He Hf Hne Hsame.
  assert (C : (window_of h (w_rl w) r =? logtime (w_rl w))
              && negb (is_null (fd (w_rl w))) = false).
  { apply andb_false_intro1. apply Z.eqb_neq. exact Hne. }
  assert (F : failed rv = true).
  { unfold failed, is_success. apply negb_true_iff, Z.eqb_neq. exact Hrv. }
  cbv zeta.
  assert (E1 :
    exists tr,
      ap_rotated_log_writer h r RotatedLog strs w
      = (rv, mk_world (with_logtime (w_rl w) (window_of h (w_rl w) r))
               (w_held w) (w_trace w ++ tr))
      /\ written tr = [] /\ opened_names tr = [] /\ closed tr = []).
  { rewrite writer_slow by assumption. cbv zeta.
    rewrite swap_log_run. cbv zeta. proj. rewrite Hp, F. proj. rewrite F.
    eexists. split; [rewrite <- !app_assoc; cbn [app]; reflexivity |].
    calls. repeat split; reflexivity. }
  destruct E1 as (tr & E1 & Hw1 & Ho1 & Hc1).
  rewrite E1. proj.
  set (w1 := mk_world _ _ _).
  assert (Hwin2 : window_of h (w_rl w1) r2 = logtime (w_rl w1)).
  { subst w1. proj. rewrite window_of_with_logtime. exact Hsame. }
  assert (He1 : enabled (st (w_rl w1)) <> RL_DISABLED) by exact He.
  assert (Hf1 : fd (w_rl w1) = Some f) by exact Hf.
  assert (E2 :
    ap_rotated_log_writer h r2 RotatedLog strs2 w1
    = (APR_SUCCESS,
       mk_world (w_rl w1) (w_held w1)
         (w_trace w1
          ++ EvLog APLOG_DEBUG 0
               (lock_debug_msg (logtime (w_rl w1)) (logtime (w_rl w1)))
          :: lock_events (read_lock (w_rl w1))
          ++ EvFileWrite (Some f) (String.concat "" strs2) APR_SUCCESS
          :: unlock_events (read_lock (w_rl w1))))).
  { rewrite writer_run by assumption. cbv zeta.
    rewrite (ap_lock_log_fast h r2 w1 f) by assumption. proj. ok_status.
    proj. rewrite unlock_pop_push, Hf1. rewrite <- app_assoc.
    reflexivity. }
  rewrite E2. subst w1. proj.
  repeat (split; [reflexivity |]).
  split; [calls; rewrite Hw1; calls; reflexivity |].
  split; [calls; rewrite Ho1; calls; reflexivity |].
  split; [calls; rewrite Hc1; calls; reflexivity |].
  repeat (split; [reflexivity |]).
  split; [calls; rewrite Hw1; calls; reflexivity |].
  split; [calls; rewrite Ho1; calls; reflexivity |].
  calls. reflexivity.
Qed.

Lemma pool_failure_drops_line_witness :
  let w := Reference.start
             (Reference.threaded_log make_log_options "access.log" 0) in
  let first :=
    ap_rotated_log_writer no_pool_host (mk_request 90000000000) RotatedLog
      ["GET /a"%string] w in
  let second :=
    ap_rotated_log_writer no_pool_host (mk_request 90000000001) RotatedLog
      ["GET /b"%string] (snd first) in
  fst first = 12
  /\ logtime (w_rl (snd first)) = 86400000000
  /\ fst second = APR_SUCCESS
  /\ written (w_trace (snd second)) = [(Some 1%nat, "GET /b"%string)]
  /\ opened_names (w_trace (snd second)) = [].
Proof.
  pose proof (pool_failure_drops_line no_pool_host 12
                (mk_request 90000000000) ["GET /a"%string]
                (mk_request 90000000001) ["GET /b"%string]
                (Reference.start
                   (Reference.threaded_log make_log_options "access.log" 0))
                1%nat) as H.
  cbv zeta in H.
  destruct H as (H1 & H2 & _ & _ & _ & _ & H7 & _ & H9 & H10 & _).
  - intros tr pt rl. reflexivity.
  - split; intros; reflexivity.
  - intros tr f buf. reflexivity.
  - split; [discriminate | intros; reflexivity].
  - discriminate.
  - reflexivity.
  - vm_compute. discriminate.
  - vm_compute. reflexivity.
  - split; [exact H1 |]. split; [rewrite H2; vm_compute; reflexivity |].
    split; [exact H7 |]. split; [exact H9 | exact H10].
Defined.

(** The writer when it rotates and the pool and the file can be had. *)
Lemma writer_rotation_run h r strs w :
  quiet h -> locks_succeed h -> writes_succeed h ->
  pools_succeed h -> opens_succeed h ->
  enabled (st (w_rl w)) <> RL_DISABLED ->
  window_of h (w_rl w) r <> logtime (w_rl w) \/ fd (w_rl w) = None ->
  exists f np tr,
    ap_rotated_log_writer h r RotatedLog strs w
    = (APR_SUCCESS,
       mk_world
         (mk_rotated_log np (fname (w_rl w)) (Some f)
            (window_of h (w_rl w) r)
            (read_lock (w_rl w)) (write_lock (w_rl w)) (st (w_rl w)))
         (w_held w) (w_trace w ++ tr))
    /\ pool_parent np = pool_parent (pool (w_rl w))
    /\ written tr = [(Some f, String.concat "" strs)]
    /\ opened_names tr
       = [log_name (h_libc h) (h_time_exp_gmt h) (fname (w_rl w))
            (st (w_rl w)) (window_of h (w_rl w) r)]
    /\ closed tr = [fd (w_rl w)]
    /\ pools_created tr = [pool_parent (pool (w_rl w))].
Proof.
  intros Hq Hl Hw Hp Ho He Hne.
  assert (C : (window_of h (w_rl w) r =? logtime (w_rl w))
              && negb (is_null (fd (w_rl w))) = false).
  { destruct Hne as [Hne | Hne].
    - apply andb_false_intro1. apply Z.eqb_neq. exact Hne.
    - apply andb_false_intro2. rewrite Hne. reflexivity. }
  rewrite writer_slow by assumption. cbv zeta.
  rewrite swap_log_run. cbv zeta. proj. rewrite Hp. ok_status.
  rewrite Ho. ok_status. proj. ok_status.
  unfold with_pool, with_fd, with_logtime.
  cbn [pool fname fd logtime read_lock write_lock st is_null].
  eexists. eexists. eexists.
  split; [rewrite <- !app_assoc; cbn [app]; reflexivity |].
  split; [reflexivity |].
  match goal with
  | |- context [if ?b then _ else _] => destruct b
  end; calls; repeat split; reflexivity.
Qed.



(** X10: in a threaded server, when the read lock cannot be taken the
    writer gives up at once, on any host: it returns the status of the
    lock call, holds what it held, and has written, opened, closed and
    created nothing. *)
Theorem lock_failure_aborts h r strs w :
  enabled (st (w_rl w)) <> RL_DISABLED ->
  read_lock (w_rl w) = apr_anylock_readlock ->
  let msg := lock_debug_msg (window_of h (w_rl w) r) (logtime (w_rl w)) in
  let rv := h_lock h (w_trace w ++ [EvLog APLOG_DEBUG 0 msg]) Shared in
  rv <> APR_SUCCESS ->
  let res := ap_rotated_log_writer h r RotatedLog strs w in
  fst res = rv
  /\ w_held (snd res) = w_held w
  /\ w_trace (snd res)
     = (w_trace w ++ [EvLog APLOG_DEBUG 0 msg; EvLock Shared rv])%list.
Proof.
  intros He Hrd msg rv Hrv. cbv zeta.
  assert (F : failed rv = true).
  { unfold failed, is_success. apply negb_true_iff, Z.eqb_neq. exact Hrv. }
  assert (Hs : is_success rv = false).
  { unfold is_success. apply Z.eqb_neq. exact Hrv. }
  assert (Hrun :
    (rv <- ap_lock_log h r ;;
     if failed rv then ret rv
     else
       rl <- get_rl ;;
       rv0 <- apr_file_write h (fd rl) (String.concat "" strs) ;;
       if failed rv0 then ret rv0 else ap_unlock_log h r) w
    = (rv,
       mk_world
         (w_rl (snd (yield h BeforeLock
                       (mk_world (w_rl w) (w_held w)
                          (w_trace w ++ [EvLog APLOG_DEBUG 0 msg])))))
         (w_held w)
         (w_trace w ++ [EvLog APLOG_DEBUG 0 msg; EvLock Shared rv]))).
  { unfold bind at 1.
    unfold ap_lock_log, bind at 1 2 3, get_rl, ap_log_error, emit. proj.
    fold (window_of h (w_rl w) r). fold msg.
    rewrite Hrd. unfold APR_ANYLOCK_LOCK, rwlock_acquire, bind at 1.
    unfold yield. proj.
    destruct (w_held w) as [| m held] eqn:Hh; proj; fold rv;
      rewrite Hs, F; unfold ret; proj; rewrite F;
      rewrite <- app_assoc; reflexivity. }
  assert (E :
    ap_rotated_log_writer h r RotatedLog strs w
    = (rv,
       mk_world
         (w_rl (snd (yield h BeforeLock
                       (mk_world (w_rl w) (w_held w)
                          (w_trace w ++ [EvLog APLOG_DEBUG 0 msg])))))
         (w_held w)
         (w_trace w ++ [EvLog APLOG_DEBUG 0 msg; EvLock Shared rv]))).
  { unfold ap_rotated_log_writer, bind at 1, get_rl. proj.
    destruct (enabled (st (w_rl w))); [congruence | |]; exact Hrun. }
  rewrite E. proj. repeat split; reflexivity.
Qed.

Lemma lock_failure_aborts_witness :
  let w := Reference.start
             (Reference.threaded_log make_log_options "access.log" 0) in
  let res :=
    ap_rotated_log_writer no_lock_host (mk_request 1000000) RotatedLog
      ["GET /"%string] w in
  fst res = 35
  /\ w_held (snd res) = []
  /\ w_trace (snd res)
     = [EvLog APLOG_DEBUG 0 "New: 0, old: 0"; EvLock Shared 35].
Proof.
  apply (lock_failure_aborts no_lock_host (mk_request 1000000)
           ["GET /"%string]
           (Reference.start
              (Reference.threaded_log make_log_options "access.log" 0))).
  - discriminate.
  - reflexivity.
  - discriminate.
Defined.

(** The writer when the log is on the window of the request. *)
Lemma writer_fast_run h r strs w f :
  quiet h -> locks_succeed h -> writes_succeed h ->
  enabled (st (w_rl w)) <> RL_DISABLED ->
  window_of h (w_rl w) r = logtime (w_rl w) ->
  fd (w_rl w) = Some f ->
  ap_rotated_log_writer h r RotatedLog strs w
  = (APR_SUCCESS,
     mk_world (w_rl w) (w_held w)
       (w_trace w
        ++ EvLog APLOG_DEBUG 0
             (lock_debug_msg (logtime (w_rl w)) (logtime (w_rl w)))
        :: lock_events (read_lock (w_rl w))
        ++ EvFileWrite (Some f) (String.concat "" strs) APR_SUCCESS
        :: unlock_events (read_lock (w_rl w)))).
Proof.
  intros Hq Hl Hw He Hwin Hf.
  rewrite writer_run by assumption. cbv zeta.
  rewrite (ap_lock_log_fast h r w f) by assumption. proj. ok_status.
  proj. rewrite unlock_pop_push, Hf. rewrite <- app_assoc.
  reflexivity.
Qed.

Lemma window_of_st h rl rl' r :
  st rl' = st rl -> window_of h rl' r = window_of h rl r.
Proof. intros E. unfold window_of. rewrite E. reflexivity. Qed.

Lemma last_cons_default {A : Type} (l : list A) (x d : A) :
  last (x :: l) d = last l x.
Proof.
  revert x d. induction l as [| y l IH]; intros x d; [reflexivity |].
  change (last (x :: y :: l) d) with (last (y :: l) d).
  rewrite (IH y d), (IH y x). reflexivity.
Qed.



(** X19: the status of the writer is the status of its last call: when
    the line has been written and the lock cannot be released, the writer
    reports the failure of the unlock although the line is in the file,
    and the read lock stays held. *)
Theorem unlock_failure_after_write h r strs w f rv :
  quiet h ->
  (forall tr m, h_lock h tr m = APR_SUCCESS) ->
  writes_succeed h ->
  (forall tr, h_unlock h tr = rv) -> rv <> APR_SUCCESS ->
  enabled (st (w_rl w)) <> RL_DISABLED ->
  read_lock (w_rl w) = apr_anylock_readlock ->
  window_of h (w_rl w) r = logtime (w_rl w) ->
  fd (w_rl w) = Some f ->
  let res := ap_rotated_log_writer h r RotatedLog strs w in
  fst res = rv
  /\ written (w_trace (snd res))
     = (written (w_trace w) ++ [(Some f, String.concat "" strs)])%list
  /\ w_held (snd res) = Shared :: w_held w
  /\ w_rl (snd res) = w_rl w.
Proof.
  intros Hq Hlk Hw Hun Hrv He Hrd Hwin Hf. cbv zeta.
  assert (F : is_success rv = false).
  { unfold is_success. apply Z.eqb_neq. exact Hrv. }
  assert (Hrun :
    (rv0 <- ap_lock_log h r ;;
     if failed rv0 then ret rv0
     else
       rl <- get_rl ;;
       rv1 <- apr_file_write h (fd rl) (String.concat "" strs) ;;
       if failed rv1 then ret rv1 else ap_unlock_log h r) w
    = (rv,
       mk_world (w_rl w) (Shared :: w_held w)
         (w_trace w
          ++ [EvLog APLOG_DEBUG 0
                (lock_debug_msg (logtime (w_rl w)) (logtime (w_rl w)));
              EvLock Shared APR_SUCCESS;
              EvFileWrite (Some f) (String.concat "" strs) APR_SUCCESS;
              EvUnlock rv]))).
  { unfold bind at 1.
    unfold ap_lock_log, bind at 1 2 3, get_rl, ap_log_error, emit. proj.
    fold (window_of h (w_rl w) r). rewrite Hwin, Hrd.
    unfold APR_ANYLOCK_LOCK, rwlock_acquire, bind at 1.
    rewrite yield_quiet by assumption. proj. rewrite Hlk.
    change (is_success APR_SUCCESS) with true. cbv iota. ok_status.
    unfold bind at 1, get_rl. proj. rewrite Z.eqb_refl, Hf.
    cbn [is_null negb andb]. unfold ret at 1. proj. ok_status.
    unfold bind at 1 2, get_rl, apr_file_write. proj. rewrite Hw, Hf.
    ok_status.
    unfold ap_unlock_log, bind at 1, get_rl. proj. rewrite Hrd.
    unfold APR_ANYLOCK_UNLOCK, rwlock_release, bind at 1. proj.
    rewrite Hun, F. unfold bind, ret.
    rewrite yield_quiet by assumption. proj.
    rewrite <- !app_assoc. reflexivity. }
  assert (E :
    ap_rotated_log_writer h r RotatedLog strs w
    = (rv,
       mk_world (w_rl w) (Shared :: w_held w)
         (w_trace w
          ++ [EvLog APLOG_DEBUG 0
                (lock_debug_msg (logtime (w_rl w)) (logtime (w_rl w)));
              EvLock Shared APR_SUCCESS;
              EvFileWrite (Some f) (String.concat "" strs) APR_SUCCESS;
              EvUnlock rv]))).
  { unfold ap_rotated_log_writer, bind at 1, get_rl. proj.
    destruct (enabled (st (w_rl w))); [congruence | |]; exact Hrun. }
  rewrite E. proj. calls. repeat split; reflexivity.
Qed.

Lemma unlock_failure_after_write_witness :
  let w := Reference.start
             (Reference.threaded_log make_log_options "access.log" 0) in
  let res :=
    ap_rotated_log_writer no_unlock_host (mk_request 1000000) RotatedLog
      ["GET /"%string] w in
  fst res = 1
  /\ written (w_trace (snd res)) = [(Some 1%nat, "GET /"%string)]
  /\ w_held (snd res) = [Shared]
  /\ w_rl (snd res) = w_rl w.
Proof.
  apply (unlock_failure_after_write no_unlock_host (mk_request 1000000)
           ["GET /"%string]
           (Reference.start
              (Reference.threaded_log make_log_options "access.log" 0))
           1%nat 1).
  - intros tr pt rl. reflexivity.
  - intros tr m. reflexivity.
  - intros tr f buf. reflexivity.
  - intros tr. reflexivity.
  - discriminate.
  - discriminate.
  - reflexivity.
  - vm_compute. reflexivity.
  - reflexivity.
Defined.

Transparent ap_get_quantized_time.

(** ** Start-up: [ap_rotated_log_writer_init] *)

Opaque ap_get_quantized_time.

Lemma logged_app lvl (a b : list event) :
  logged lvl (a ++ b) = (logged lvl a ++ logged lvl b)%list.
Proof.
  induction a as [| e a IH]; [reflexivity |].
  destruct e; cbn; rewrite ?IH; try reflexivity.
  destruct level, lvl; cbn; rewrite ?IH; reflexivity.
Qed.

Ltac settle :=
  calls; try reflexivity;
  repeat (match goal with
          | |- context [if ?b then _ else _] => destruct b
          end; calls; try reflexivity).

(** The log of a file, step by step. *)
Lemma init_file_run h e p ls name w :
  init_file h e p ls name w
  = let threaded := 1 <? e_max_threads e in
    let tr0 :=
      (w_trace w
       ++ (if threaded && failed (e_rwlock_create e)
           then [EvLog APLOG_CRIT (e_rwlock_create e)
                   ("could not initialize log rotation write lock, "
                    ++ "transfer log may become corrupted")%string]
           else []))%list in
    let rd :=
      if threaded && negb (failed (e_rwlock_create e))
      then apr_anylock_readlock else apr_anylock_none in
    let wr :=
      if threaded && negb (failed (e_rwlock_create e))
      then apr_anylock_writelock else apr_anylock_none in
    let logt := ap_get_quantized_time (h_gmtoff h) ls (e_time_now e) in
    let st1 :=
      if is_null (strchr name "%"%char) then ls
      else with_enabled ls RL_SUBSTITUTIONS in
    match e_server_root_relative e name with
    | None =>
        (InitNull,
         mk_world (w_rl w) (w_held w)
           (tr0 ++ [EvLog APLOG_ERR APR_EBADPATH
                      ("invalid transfer log path " ++ name ++ ".")%string]))
    | Some path =>
        let rvp := fst (h_pool_create h tr0 p) in
        let np := mk_pool (snd (h_pool_create h tr0 p)) p in
        let tr1 := (tr0 ++ [EvPoolCreate p rvp np])%list in
        if failed rvp then
          (InitNull,
           mk_world (w_rl w) (w_held w)
             (tr1 ++ [EvLog APLOG_ERR rvp
                        "can't make log rotation pool."%string]))
        else
          let nm := log_name (h_libc h) (h_time_exp_gmt h) path st1 logt in
          let rvo := fst (h_file_open h tr1 nm) in
          let f := snd (h_file_open h tr1 nm) in
          if failed rvo then
            (InitNull,
             mk_world (w_rl w) (w_held w)
               (tr1 ++ [EvFileOpen nm np rvo f;
                        EvLog APLOG_ERR rvo
                          ("could not open transfer log file "
                           ++ nm ++ ".")%string]))
          else
            match e_parent_pid e with
            | None =>
                let rvc :=
                  h_file_close h (tr1 ++ [EvFileOpen nm np rvo f]) (Some f) in
                (InitLog (mk_rotated_log np path None logt rd wr st1),
                 mk_world (w_rl w) (w_held w)
                   (tr1 ++ [EvFileOpen nm np rvo f; EvFileClose (Some f) rvc]
                    ++ (if failed rvc
                        then [EvLog APLOG_ERR rvc
                                "error closing transfer log file."%string]
                        else [])))
            | Some _ =>
                (InitLog (mk_rotated_log np path (Some f) logt rd wr st1),
                 mk_world (w_rl w) (w_held w) (tr1 ++ [EvFileOpen nm np rvo f]))
            end
    end.
Proof.
  cbv zeta. unfold init_file, bind at 1.
  assert (Hlocks :
    init_locks e w
    = ((if (1 <? e_max_threads e) && negb (failed (e_rwlock_create e))
        then apr_anylock_readlock else apr_anylock_none,
        if (1 <? e_max_threads e) && negb (failed (e_rwlock_create e))
        then apr_anylock_writelock else apr_anylock_none),
       mk_world (w_rl w) (w_held w)
         (w_trace w
          ++ (if (1 <? e_max_threads e) && failed (e_rwlock_create e)
              then [EvLog APLOG_CRIT (e_rwlock_create e)
                      ("could not initialize log rotation write lock, "
                       ++ "transfer log may become corrupted")%string]
              else [])))).
  { unfold init_locks.
    destruct (1 <? e_max_threads e), (failed (e_rwlock_create e));
      cbn [andb negb];
      unfold bind, ap_log_error, emit, ret; proj;
      rewrite ?app_nil_r, ?world_eta; reflexivity. }
  rewrite Hlocks. clear Hlocks.
  set (tr0 := (w_trace w ++ _)%list).
  destruct (e_server_root_relative e name) as [path |].
  - unfold bind at 1, apr_pool_create. proj.
    destruct (h_pool_create h tr0 p) as [rvp id]. proj.
    destruct (failed rvp) eqn:F.
    + unfold bind, ap_log_error, emit, ret. proj. reflexivity.
    + unfold bind at 1. rewrite ap_open_log_run. cbv zeta. proj.
      match goal with
      | |- context [h_file_open h ?tr ?n] =>
          destruct (h_file_open h tr n) as [rvo f] eqn:Ho
      end.
      proj. destruct (failed rvo) eqn:Fo.
      * unfold ret. reflexivity.
      * destruct (e_parent_pid e) as [pid |].
        -- unfold ret. reflexivity.
        -- unfold bind at 1, ap_close_log, bind at 1, apr_file_close. proj.
           match goal with
           | |- context [failed ?x] => destruct (failed x)
           end.
           ++ unfold bind, ap_log_error, emit, ret. proj.
              rewrite <- !app_assoc. reflexivity.
           ++ unfold ret. proj. rewrite <- !app_assoc. reflexivity.
  - unfold bind, ap_log_error, emit, ret. proj. reflexivity.
Qed.

(** What holds when [ap_rotated_log_writer_init] returns the log of a
    file. *)
Lemma init_log_facts h e p ls name w rl w' :
  ap_rotated_log_writer_init h e p ls name w = (InitLog rl, w') ->
  starts_with name "|"%char = false
  /\ e_server_root_relative e name = Some (fname rl)
  /\ logtime rl = ap_get_quantized_time (h_gmtoff h) ls (e_time_now e)
  /\ st rl = (if is_null (strchr name "%"%char) then ls
              else with_enabled ls RL_SUBSTITUTIONS)
  /\ pool_parent (pool rl) = p
  /\ (read_lock rl, write_lock rl)
     = (if (1 <? e_max_threads e) && is_success (e_rwlock_create e)
        then (apr_anylock_readlock, apr_anylock_writelock)
        else (apr_anylock_none, apr_anylock_none))
  /\ (fd rl = None <-> e_parent_pid e = None)
  /\ opened_names (w_trace w')
     = (opened_names (w_trace w)
        ++ [log_name (h_libc h) (h_time_exp_gmt h) (fname rl) (st rl)
              (logtime rl)])%list
  /\ (exists f,
        closed (w_trace w')
        = (closed (w_trace w)
           ++ (if is_null (fd rl) then [Some f] else []))%list
        /\ (fd rl <> None -> fd rl = Some f))
  /\ pools_created (w_trace w') = (pools_created (w_trace w) ++ [p])%list
  /\ written (w_trace w') = written (w_trace w)
  /\ w_rl w' = w_rl w /\ w_held w' = w_held w.
Proof.
  unfold ap_rotated_log_writer_init.
  destruct (starts_with name "|"%char).
  - unfold init_piped, bind, ap_log_error, emit, ret. proj.
    destruct (e_open_piped_log e (str_next name)) as [pl |];
      [destruct (e_piped_log_write_fd e pl) |]; discriminate.
  - rewrite init_file_run. cbv zeta. unfold failed.
    destruct (is_success (e_rwlock_create e)), (1 <? e_max_threads e),
      (is_null (strchr name "%"%char));
      cbn [andb negb];
      (destruct (e_server_root_relative e name) as [path |];
       [| discriminate]);
      (destruct (is_success (fst (h_pool_create h _ p)));
       [| discriminate]); cbn [negb];
      match goal with
      | |- context [is_success (fst (h_file_open h ?tr ?n))] =>
          destruct (is_success (fst (h_file_open h tr n)))
      end; try discriminate; cbn [negb];
      (destruct (e_parent_pid e) as [pid |];
       [| match goal with
          | |- context [is_success (h_file_close h ?tr ?f)] =>
              destruct (is_success (h_file_close h tr f))
          end; cbn [negb]]);
      intros H; injection H as <- <-;
      cbn [fname logtime st pool pool_parent read_lock write_lock fd is_null];
      proj;
      repeat match goal with
             | |- _ /\ _ => split
             end;
      try (calls; reflexivity);
      try (split; congruence);
      (eexists; split;
       [calls; reflexivity
       | intros H; first [reflexivity | exfalso; apply H; reflexivity]]).
Qed.

(** X11: what holds of the log of a file when
    [ap_rotated_log_writer_init] returns one: its name is the one the
    server root gives, its window is the one of the clock, substitutions
    are on exactly when the name holds a ['%'] (the other options are the
    configured ones), its pool is a child of the pool handed in, its two
    locks are the two sides of a lock only in a threaded server whose lock
    could be created, it has a file exactly when the process is a child
    ([AP_PARENT_PID] is set), and exactly one file was opened, under the
    name of that window; the parent has closed it again. *)
Theorem init_log_postcondition h e p ls name w rl w' :
  ap_rotated_log_writer_init h e p ls name w = (InitLog rl, w') ->
  starts_with name "|"%char = false
  /\ e_server_root_relative e name = Some (fname rl)
  /\ logtime rl = ap_get_quantized_time (h_gmtoff h) ls (e_time_now e)
  /\ st rl = (if is_null (strchr name "%"%char) then ls
              else with_enabled ls RL_SUBSTITUTIONS)
  /\ pool_parent (pool rl) = p
  /\ (read_lock rl, write_lock rl)
     = (if (1 <? e_max_threads e) && is_success (e_rwlock_create e)
        then (apr_anylock_readlock, apr_anylock_writelock)
        else (apr_anylock_none, apr_anylock_none))
  /\ (fd rl = None <-> e_parent_pid e = None)
  /\ opened_names (w_trace w')
     = (opened_names (w_trace w)
        ++ [log_name (h_libc h) (h_time_exp_gmt h) (fname rl) (st rl)
              (logtime rl)])%list
  /\ (exists f,
        closed (w_trace w')
        = (closed (w_trace w)
           ++ (if is_null (fd rl) then [Some f] else []))%list
        /\ (fd rl <> None -> fd rl = Some f))
  /\ pools_created (w_trace w') = (pools_created (w_trace w) ++ [p])%list
  /\ w_rl w' = w_rl w /\ w_held w' = w_held w.
Proof.
  intros H.
  destruct (init_log_facts h e p ls name w rl w' H)
    as (H1 & H2 & H3 & H4 & H5 & H6 & H7 & H8 & H9 & H10 & _ & H12 & H13).
  repeat (split; [assumption |]). assumption.
Qed.


Lemma init_log_postcondition_witness :
  let res :=
    ap_rotated_log_writer_init Reference.quiet_host
      (ref_env 90000000000 8 false) 0 make_log_options
      "logs/access_%Y%m%d.log" (Reference.start other_log) in
  exists rl,
    fst res = InitLog rl
    /\ fd rl = Some 1%nat
    /\ e_server_root_relative (ref_env 90000000000 8 false)
         "logs/access_%Y%m%d.log" = Some (fname rl)
    /\ st rl = with_enabled make_log_options RL_SUBSTITUTIONS
    /\ opened_names (w_trace (snd res)) = ["/srv/logs/access_19700102.log"%string].
Proof.
  assert (H :
    ap_rotated_log_writer_init Reference.quiet_host
      (ref_env 90000000000 8 false) 0 make_log_options
      "logs/access_%Y%m%d.log" (Reference.start other_log)
    = (InitLog
         (mk_rotated_log (mk_pool 0 0) "/srv/logs/access_%Y%m%d.log"
            (Some 1%nat) 86400000000 apr_anylock_readlock
            apr_anylock_writelock
            (with_enabled make_log_options RL_SUBSTITUTIONS)),
       mk_world other_log []
         [EvPoolCreate 0 APR_SUCCESS (mk_pool 0 0);
          EvFileOpen "/srv/logs/access_19700102.log" (mk_pool 0 0)
            APR_SUCCESS 1%nat]))
    by (vm_compute; reflexivity).
  destruct (init_log_postcondition _ _ _ _ _ _ _ _ H)
    as (_ & H2 & _ & H4 & _ & _ & _ & _ & _).
  cbv zeta. rewrite H. eexists. split; [reflexivity |].
  split; [reflexivity |]. split; [exact H2 |].
  split; [exact H4 | reflexivity].
Defined.

(** X12: a name that starts with ['|'] never gives the log of a file:
    no pool is created and no file is opened, one warning says that
    rotation is off, and the log returned, if any, writes to the pipe
    with rotation disabled: the writer hands each line to
    [apr_file_write] on the pipe and returns its status, with no lock
    call and whatever the time of the request. *)
Theorem init_piped_log h e p ls name w :
  starts_with name "|"%char = true ->
  let res := ap_rotated_log_writer_init h e p ls name w in
  (forall rl, fst res <> InitLog rl)
  /\ opened_names (w_trace (snd res)) = opened_names (w_trace w)
  /\ pools_created (w_trace (snd res)) = pools_created (w_trace w)
  /\ logged APLOG_WARNING (w_trace (snd res))
     = (logged APLOG_WARNING (w_trace w)
        ++ [("disabled log rotation for piped log " ++ name ++ ".")%string])%list
  /\ forall f ls',
       fst res = InitPiped f ls' ->
       (exists prog,
          e_open_piped_log e (str_next name) = Some prog
          /\ e_piped_log_write_fd e prog = Some f)
       /\ ls' = with_enabled ls RL_DISABLED
       /\ forall h' pl nm r strs w2,
            w_rl w2 = piped_log pl nm f ls' ->
            ap_rotated_log_writer h' r RotatedLog strs w2
            = (h_file_write h' (w_trace w2) (Some f) (String.concat "" strs),
               mk_world (w_rl w2) (w_held w2)
                 (w_trace w2
                  ++ [EvFileWrite (Some f) (String.concat "" strs)
                        (h_file_write h' (w_trace w2) (Some f)
                           (String.concat "" strs))])).
Proof.
  intros Hs. cbv zeta. unfold ap_rotated_log_writer_init. rewrite Hs.
  unfold init_piped, bind at 1, ap_log_error, emit. proj.
  destruct (e_open_piped_log e (str_next name)) as [prog |] eqn:Hp;
    [destruct (e_piped_log_write_fd e prog) as [f0 |] eqn:Hf |];
    unfold bind, emit, ret; proj;
    (split; [intros rl; discriminate |]);
    (split; [calls; reflexivity |]);
    (split; [calls; reflexivity |]);
    (split; [rewrite !logged_app; cbn [logged]; rewrite ?app_nil_r;
             reflexivity |]);
    intros f ls' E; try discriminate E.
  injection E as <- <-.
  split; [exists prog; split; [reflexivity | exact Hf] |].
  split; [reflexivity |].
  intros h' pl nm r strs [rl2 held2 tr2] Hrl.
  cbn [w_rl] in Hrl. subst rl2.
  unfold ap_rotated_log_writer, bind, get_rl, apr_file_write. proj.
  reflexivity.
Qed.

Lemma init_piped_log_witness :
  let res :=
    ap_rotated_log_writer_init Reference.quiet_host
      (ref_env 90000000000 8 false) 0 make_log_options
      "|/usr/bin/cronolog" (Reference.start other_log) in
  fst res = InitPiped 9%nat (with_enabled make_log_options RL_DISABLED)
  /\ opened_names (w_trace (snd res)) = []
  /\ pools_created (w_trace (snd res)) = [].
Proof.
  destruct (init_piped_log Reference.quiet_host
              (ref_env 90000000000 8 false) 0 make_log_options
              "|/usr/bin/cronolog" (Reference.start other_log) eq_refl)
    as (_ & H2 & H3 & _).
  split; [vm_compute; reflexivity |]. split; [exact H2 | exact H3].
Defined.

(** X13: in a child process, a request that falls in the window the
    server was started in is written to the file opened at start-up: the
    first write opens, closes and creates nothing. *)
Theorem child_first_write_uses_startup_file h e p ls name w rl w' r strs :
  quiet h -> locks_succeed h -> writes_succeed h ->
  ap_rotated_log_writer_init h e p ls name w = (InitLog rl, w') ->
  e_parent_pid e <> None ->
  enabled ls <> RL_DISABLED ->
  window_of h rl r = logtime rl ->
  let res := ap_rotated_log_writer h r RotatedLog strs (world_of rl w') in
  fst res = APR_SUCCESS
  /\ w_rl (snd res) = rl
  /\ w_held (snd res) = []
  /\ opened_names (w_trace (snd res))
     = (opened_names (w_trace w)
        ++ [log_name (h_libc h) (h_time_exp_gmt h) (fname rl) (st rl)
              (logtime rl)])%list
  /\ closed (w_trace (snd res)) = closed (w_trace w)
  /\ pools_created (w_trace (snd res)) = (pools_created (w_trace w) ++ [p])%list
  /\ exists f,
       fd rl = Some f
       /\ written (w_trace (snd res))
          = (written (w_trace w) ++ [(Some f, String.concat "" strs)])%list.
Proof.
  intros Hq Hl Hw Hinit Hchild Hen Hwin.
  destruct (init_log_facts h e p ls name w rl w' Hinit)
    as (_ & _ & _ & Hst & _ & _ & Hfd & Hop & (f0 & Hcl & Hf0) & Hpc & Hwr & _).
  assert (Hsome : fd rl <> None) by (intros E; apply Hchild, Hfd, E).
  specialize (Hf0 Hsome).
  assert (He : enabled (st rl) <> RL_DISABLED).
  { rewrite Hst. destruct (is_null (strchr name "%"%char));
      [exact Hen | discriminate]. }
  cbv zeta.
  rewrite writer_run by assumption. cbv zeta.
  rewrite (ap_lock_log_fast h r (world_of rl w') f0) by assumption.
  unfold world_of. proj. ok_status. proj. rewrite unlock_pop_push.
  split; [reflexivity |]. split; [reflexivity |]. split; [reflexivity |].
  split; [calls; exact Hop |].
  split; [calls; rewrite Hcl, Hf0; cbn [is_null]; calls; reflexivity |].
  split; [calls; exact Hpc |].
  exists f0. split; [exact Hf0 |].
  calls. rewrite Hwr, Hf0. reflexivity.
Qed.

Lemma child_first_write_uses_startup_file_witness :
  let init :=
    ap_rotated_log_writer_init Reference.quiet_host
      (ref_env 90000000000 8 false) 0 make_log_options
      "logs/access.log" (Reference.start other_log) in
  let rl :=
    mk_rotated_log (mk_pool 0 0) "/srv/logs/access.log" (Some 1%nat)
      86400000000 apr_anylock_readlock apr_anylock_writelock
      make_log_options in
  let res :=
    ap_rotated_log_writer Reference.quiet_host (mk_request 100000000000)
      RotatedLog ["GET /"%string] (world_of rl (snd init)) in
  fst init = InitLog rl
  /\ fst res = APR_SUCCESS
  /\ opened_names (w_trace (snd res)) = ["/srv/logs/access.log.86400"%string]
  /\ exists f, fd rl = Some f
               /\ written (w_trace (snd res)) = [(Some f, "GET /"%string)].
Proof.
  assert (H :
    ap_rotated_log_writer_init Reference.quiet_host
      (ref_env 90000000000 8 false) 0 make_log_options
      "logs/access.log" (Reference.start other_log)
    = (InitLog
         (mk_rotated_log (mk_pool 0 0) "/srv/logs/access.log" (Some 1%nat)
            86400000000 apr_anylock_readlock apr_anylock_writelock
            make_log_options),
       mk_world other_log []
         [EvPoolCreate 0 APR_SUCCESS (mk_pool 0 0);
          EvFileOpen "/srv/logs/access.log.86400" (mk_pool 0 0)
            APR_SUCCESS 1%nat]))
    by (vm_compute; reflexivity).
  cbv zeta. rewrite H. proj.
  destruct (child_first_write_uses_startup_file Reference.quiet_host
              _ _ _ _ _ _ _ (mk_request 100000000000) ["GET /"%string]
              quiet_host_quiet quiet_host_locks quiet_host_writes H)
    as (H1 & _ & _ & H4 & _ & _ & H7).
  - discriminate.
  - discriminate.
  - vm_compute. reflexivity.
  - split; [reflexivity |]. split; [exact H1 |].
    split; [exact H4 | exact H7].
Defined.



(** X15: [log_rotate_open_logs] installs both callbacks or none. It
    accepts exactly when rotation is enabled and mod_log_config exports
    both functions, and then leaves the options alone; every log of a
    file built from accepted options has rotation on, so that its writer
    always goes through the lock. When it declines it installs nothing,
    and a missing function turns rotation off and is reported once. *)
Theorem open_logs_all_or_nothing fns ls cb w :
  let res := log_rotate_open_logs fns ls cb w in
  let rv := fst (fst (fst res)) in
  let ls' := snd (fst (fst res)) in
  let cb' := snd (fst res) in
  (rv = OK
   /\ enabled ls <> RL_DISABLED
   /\ have_set_writer_init fns = true /\ have_set_writer fns = true
   /\ cb' = mk_installed true true /\ ls' = ls /\ snd res = w
   /\ forall h e p name w1 rl w2,
        ap_rotated_log_writer_init h e p ls' name w1 = (InitLog rl, w2) ->
        enabled (st rl) <> RL_DISABLED)
  \/ (rv = DECLINED
      /\ cb' = cb
      /\ enabled ls' = RL_DISABLED
      /\ (enabled ls = RL_DISABLED -> ls' = ls /\ snd res = w)
      /\ (enabled ls <> RL_DISABLED ->
          (have_set_writer_init fns = false \/ have_set_writer fns = false)
          /\ exists msg,
               w_trace (snd res)
               = (w_trace w ++ [EvLog APLOG_ERR APR_SUCCESS msg])%list)).
Proof.
  cbv zeta. unfold log_rotate_open_logs.
  assert (Hrot : forall h e p name w1 rl w2,
            enabled ls <> RL_DISABLED ->
            ap_rotated_log_writer_init h e p ls name w1 = (InitLog rl, w2) ->
            enabled (st rl) <> RL_DISABLED).
  { intros h e p name w1 rl w2 Hen Hinit.
    destruct (init_log_facts h e p ls name w1 rl w2 Hinit)
      as (_ & _ & _ & Hst & _).
    rewrite Hst. destruct (is_null (strchr name "%"%char));
      [exact Hen | discriminate]. }
  destruct (enabled ls) eqn:E.
  - right. unfold ret. proj.
    split; [reflexivity |]. split; [reflexivity |]. split; [exact E |].
    split; [intros _; split; reflexivity | intros H; congruence].
  - destruct (have_set_writer_init fns), (have_set_writer fns);
      cbn [negb]; unfold bind, ap_log_error, emit, ret; proj.
    + left. repeat (split; [first [reflexivity | discriminate] |]).
      intros h e p name w1 rl w2. apply Hrot. discriminate.
    + right. repeat (split; [first [reflexivity | discriminate] |]).
      intros _. split; [right; reflexivity | eexists; reflexivity].
    + right. repeat (split; [first [reflexivity | discriminate] |]).
      intros _. split; [left; reflexivity | eexists; reflexivity].
    + right. repeat (split; [first [reflexivity | discriminate] |]).
      intros _. split; [left; reflexivity | eexists; reflexivity].
  - destruct (have_set_writer_init fns), (have_set_writer fns);
      cbn [negb]; unfold bind, ap_log_error, emit, ret; proj.
    + left. repeat (split; [first [reflexivity | discriminate] |]).
      intros h e p name w1 rl w2. apply Hrot. discriminate.
    + right. repeat (split; [first [reflexivity | discriminate] |]).
      intros _. split; [right; reflexivity | eexists; reflexivity].
    + right. repeat (split; [first [reflexivity | discriminate] |]).
      intros _. split; [left; reflexivity | eexists; reflexivity].
    + right. repeat (split; [first [reflexivity | discriminate] |]).
      intros _. split; [left; reflexivity | eexists; reflexivity].
Qed.

(** X20: when [ap_rotated_log_writer_init] returns [NULL] for the log of
    a file, the error log says why, in exactly one line at level error:
    the path is invalid (nothing was created or opened), the pool could
    not be made (nothing was opened), or the file could not be opened;
    nothing is written or closed. *)
Theorem init_null_is_reported h e p ls name w :
  starts_with name "|"%char = false ->
  let res := ap_rotated_log_writer_init h e p ls name w in
  fst res = InitNull ->
  closed (w_trace (snd res)) = closed (w_trace w)
  /\ written (w_trace (snd res)) = written (w_trace w)
  /\ exists msg,
       logged APLOG_ERR (w_trace (snd res))
       = (logged APLOG_ERR (w_trace w) ++ [msg])%list
       /\ ((e_server_root_relative e name = None
            /\ msg = ("invalid transfer log path " ++ name ++ ".")%string
            /\ pools_created (w_trace (snd res)) = pools_created (w_trace w)
            /\ opened_names (w_trace (snd res)) = opened_names (w_trace w))
           \/ (msg = "can't make log rotation pool."%string
               /\ pools_created (w_trace (snd res))
                  = (pools_created (w_trace w) ++ [p])%list
               /\ opened_names (w_trace (snd res))
                  = opened_names (w_trace w))
           \/ (exists nm,
                 msg = ("could not open transfer log file "
                        ++ nm ++ ".")%string
                 /\ pools_created (w_trace (snd res))
                    = (pools_created (w_trace w) ++ [p])%list
                 /\ opened_names (w_trace (snd res))
                    = (opened_names (w_trace w) ++ [nm])%list)).
Proof.
  intros Hs. cbv zeta. unfold ap_rotated_log_writer_init. rewrite Hs.
  rewrite init_file_run. cbv zeta. unfold failed.
  destruct (is_success (e_rwlock_create e)), (1 <? e_max_threads e);
    cbn [andb negb];
    (destruct (e_server_root_relative e name) as [path |];
     [destruct (is_success (fst (h_pool_create h _ p))); cbn [negb];
      [match goal with
       | |- context [is_success (fst (h_file_open h ?tr ?n))] =>
           destruct (is_success (fst (h_file_open h tr n)))
       end; cbn [negb];
       [destruct (e_parent_pid e); proj; intros H; discriminate H |] |] |]);
    proj; intros _;
    (split; [calls; reflexivity |]);
    (split; [calls; reflexivity |]);
    eexists;
    (split; [rewrite !logged_app; cbn [logged]; rewrite ?app_nil_r;
             reflexivity |]).
  all: try (left; repeat split; calls; reflexivity).
  all: try (right; left; repeat split; calls; reflexivity).
  all: right; right; eexists; repeat split; calls; reflexivity.
Qed.

Lemma init_null_is_reported_witness :
  let res :=
    ap_rotated_log_writer_init Reference.no_open_host
      (ref_env 90000000000 8 false) 0 make_log_options "logs/access.log"
      (Reference.start other_log) in
  fst res = InitNull
  /\ logged APLOG_ERR (w_trace (snd res))
     = ["could not open transfer log file /srv/logs/access.log.86400."%string]
  /\ closed (w_trace (snd res)) = [].
Proof.
  split; [vm_compute; reflexivity |].
  split; [vm_compute; reflexivity |].
  apply (init_null_is_reported Reference.no_open_host
           (ref_env 90000000000 8 false) 0 make_log_options "logs/access.log"
           (Reference.start other_log)).
  - reflexivity.
  - vm_compute. reflexivity.
Defined.


Transparent ap_get_quantized_time.

(** ** Threads at large: requests of any windows *)

Module AnyWindowsProofs.
Import Concurrent.
Import Race.
Import AnyWindows.
Import RaceProofs.

Lemma lookup_head (hd : apr_file) (name : string)
  (hs : list (apr_file * string)) :
  lookup_handle hd ((hd, name) :: hs) = Some name.
Proof. unfold lookup_handle. cbn. rewrite Nat.eqb_refl. reflexivity. Qed.

Lemma lookup_in (hd : apr_file) (name : string)
  (hs : list (apr_file * string)) :
  lookup_handle hd hs = Some name -> In (hd, name) hs.
Proof.
  unfold lookup_handle.
  destruct (find (fun p => (fst p =? hd)%nat) hs) as [[k n] |] eqn:F;
    [| discriminate].
  intros E. injection E as ->.
  apply find_some in F. destruct F as [Hin Hk].
  cbn in Hk. apply Nat.eqb_eq in Hk. subst k. exact Hin.
Qed.

Lemma lookup_close (hd : apr_file) (o : option apr_file)
  (hs : list (apr_file * string)) :
  o <> Some hd ->
  lookup_handle hd (close_handle o hs) = lookup_handle hd hs.
Proof.
  intros Hne. destruct o as [k |]; [| reflexivity].
  assert (Hk : k <> hd) by congruence.
  unfold lookup_handle, close_handle.
  induction hs as [| [a n] hs IH]; [reflexivity |].
  cbn [filter find fst].
  destruct (a =? k)%nat eqn:E1; cbn [negb].
  - apply Nat.eqb_eq in E1. subst a.
    destruct (k =? hd)%nat eqn:E2; [apply Nat.eqb_eq in E2; congruence |].
    exact IH.
  - cbn [find fst]. destruct (a =? hd)%nat; [reflexivity | exact IH].
Qed.

Lemma in_close (p : apr_file * string) (o : option apr_file)
  (hs : list (apr_file * string)) :
  In p (close_handle o hs) -> In p hs.
Proof.
  destruct o as [k |]; [| trivial]. unfold close_handle.
  intros H. apply filter_In in H. apply H.
Qed.

Lemma placed_in_snoc (n name line : string) (placed : list (string * string)) :
  placed_in n (placed ++ [(name, line)])
  = (placed_in n placed ++ (if String.eqb n name then line else ""))%string.
Proof.
  unfold placed_in. rewrite filter_app, map_app. cbn [filter fst].
  rewrite (String.eqb_sym name n).
  destruct (String.eqb n name).
  - cbn [map snd]. apply concat_snoc.
  - cbn [map]. rewrite app_nil_r, string_app_nil_r. reflexivity.
Qed.

Section Any.

Variable gmtoff : Z -> Z.
Variable libc : libc_strftime.
Variable time_exp_gmt : Z -> apr_time_exp_t.
Variable rl0 : rotated_log.
Variable name0 : string.
Variable fs0 : string -> string.
Variable reqs : list (Z * string).

Local Abbreviation step_at := (step_at gmtoff libc time_exp_gmt (fun _ => true)).
Local Abbreviation thread_step :=
  (thread_step gmtoff libc time_exp_gmt (fun _ => true)).
Local Abbreviation reachable :=
  (reachable gmtoff libc time_exp_gmt (fun _ => true)).
Local Abbreviation thread_ok := (thread_ok gmtoff rl0).
Local Abbreviation shared_ok :=
  (shared_ok gmtoff libc time_exp_gmt rl0 name0 reqs).
Local Abbreviation files_ok :=
  (files_ok gmtoff libc time_exp_gmt rl0 name0 fs0 reqs).
Local Abbreviation log_file :=
  (log_file gmtoff libc time_exp_gmt rl0 name0 reqs).
Local Abbreviation ok := (ok gmtoff libc time_exp_gmt rl0 name0 fs0 reqs).
Local Abbreviation c0 := (boot rl0 name0 fs0, spawn_all reqs).

(** The lock after a step that moves it, or leaves it alone. *)
Lemma locks_step s s' ts i t t' :
  locks_ok s ts -> nth_error ts i = Some t ->
  lock_move i s (t_holds t) s' (t_holds t')
  \/ (s_writer s' = s_writer s /\ s_readers s' = s_readers s
      /\ t_holds t' = t_holds t) ->
  locks_ok s' (set_nth i t' ts).
Proof.
  intros [I1 I2 I3 I4 I5] Ht Hmove.
  pose proof (I4 i t Ht) as J2. pose proof (I5 i t Ht) as J3.
  assert (Hset : nth_error (set_nth i t' ts) i = Some t')
    by (eapply nth_error_set_nth_eq; eassumption).
  assert (Hoth : forall k, k <> i ->
                   nth_error (set_nth i t' ts) k = nth_error ts k)
    by (intros k Hk; apply nth_error_set_nth_neq; congruence).
  destruct Hmove as [Hmove | (Hw & Hr & Hh)].
  - constructor.
    + intros k Hk.
      destruct Hmove as [? ? Hw1 ? ?|? ? ? ? Hr ?|? Hw1 ? ?|Hm Hw1 Hr ?];
        try congruence.
      rewrite Hw1 in Hk. specialize (I1 k Hk). specialize (J3 Hm).
      rewrite I1 in J3. contradiction.
    + intros k Hk. destruct (Nat.eq_dec k i) as [-> | Hki].
      * exists t'. split; [exact Hset |].
        destruct Hmove as [? ? Hw1 ? ?|? ? ? Hw1 ? ?|? Hw1 ? ?|Hm Hw1 Hr ?];
          try congruence.
        rewrite Hw1 in Hk. specialize (I1 i Hk). specialize (J3 Hm).
        rewrite I1 in J3. contradiction.
      * destruct Hmove as [? ? Hw1 ? ?|? ? ? Hw1 ? ?|? Hw1 ? ?|Hm Hw1 Hr ?];
          try congruence.
        rewrite Hw1 in Hk. destruct (I2 k Hk) as (tk & Hn & Hx).
        exists tk. split; [rewrite Hoth by exact Hki |]; assumption.
    + intros k Hk. destruct (Nat.eq_dec k i) as [-> | Hki].
      * exists t'. split; [exact Hset |].
        destruct Hmove as [? ? ? Hr ?|? ? ? ? Hr ?|Hm ? Hr ?|? ? Hr ?].
        -- assumption.
        -- rewrite Hr in Hk. contradiction.
        -- rewrite Hr in Hk. destruct (I3 i Hk) as (ti & Hn & Hx).
           congruence.
        -- rewrite Hr in Hk. apply in_remove in Hk. destruct Hk as [_ Hk].
           congruence.
      * assert (Hin : In k (s_readers s)).
        { destruct Hmove as [? ? ? Hr ?|? ? ? ? Hr ?|Hm ? Hr ?|? ? Hr ?];
            rewrite Hr in Hk.
          - destruct Hk as [E | Hk]; [congruence | exact Hk].
          - contradiction.
          - exact Hk.
          - apply in_remove in Hk. apply Hk. }
        destruct (I3 k Hin) as (tk & Hn & Hx).
        exists tk. split; [rewrite Hoth by exact Hki |]; assumption.
    + intros k tk Hn E. destruct (Nat.eq_dec k i) as [-> | Hki].
      * rewrite Hset in Hn. injection Hn as <-.
        destruct Hmove; congruence.
      * rewrite Hoth in Hn by exact Hki. pose proof (I4 k tk Hn E) as K.
        destruct Hmove as [Hw0 ? ? ? ?|Hw0 ? ? ? ? ?|Hm ? ? ?|? Hw1 ? ?];
          try congruence.
        specialize (J2 Hm). congruence.
    + intros k tk Hn E. destruct (Nat.eq_dec k i) as [-> | Hki].
      * rewrite Hset in Hn. injection Hn as <-.
        destruct Hmove as [? ? ? Hr ?| | |]; try congruence.
        rewrite Hr. left. reflexivity.
      * rewrite Hoth in Hn by exact Hki. pose proof (I5 k tk Hn E) as K.
        destruct Hmove as [? ? ? Hr ?|? Hr0 ? ? ? ?|? ? Hr ?|? ? Hr ?].
        -- rewrite Hr. right. exact K.
        -- rewrite Hr0 in K. contradiction.
        -- rewrite Hr. exact K.
        -- rewrite Hr. apply in_in_remove; [exact Hki | exact K].
  - constructor.
    + intros k Hk. rewrite Hr. apply (I1 k). rewrite <- Hw. exact Hk.
    + intros k Hk. rewrite Hw in Hk. destruct (I2 k Hk) as (tk & Hn & Hx).
      destruct (Nat.eq_dec k i) as [-> | Hki].
      * exists t'. split; [exact Hset | congruence].
      * exists tk. split; [rewrite Hoth by exact Hki |]; assumption.
    + intros k Hk. rewrite Hr in Hk. destruct (I3 k Hk) as (tk & Hn & Hx).
      destruct (Nat.eq_dec k i) as [-> | Hki].
      * exists t'. split; [exact Hset | congruence].
      * exists tk. split; [rewrite Hoth by exact Hki |]; assumption.
    + intros k tk Hn E. rewrite Hw. destruct (Nat.eq_dec k i) as [-> | Hki].
      * rewrite Hset in Hn. injection Hn as <-. apply J2. congruence.
      * rewrite Hoth in Hn by exact Hki. apply (I4 k tk Hn E).
    + intros k tk Hn E. rewrite Hr. destruct (Nat.eq_dec k i) as [-> | Hki].
      * rewrite Hset in Hn. injection Hn as <-. apply J3. congruence.
      * rewrite Hoth in Hn by exact Hki. apply (I5 k tk Hn E).
Qed.

Lemma thread_ok_frame s s' t :
  (fd (s_rl s) <> None -> fd (s_rl s') <> None) ->
  (s_next s <= s_next s')%nat ->
  (t_pc t = L_close -> fd (s_rl s') = fd (s_rl s)) ->
  thread_ok s t -> thread_ok s' t.
Proof.
  intros Hfd Hnx Hcl [K1 K2 K3 K4 K5 K6].
  constructor; try assumption.
  - intros E. apply Hfd, K4, E.
  - intros E o Ho. specialize (K5 E o Ho). lia.
  - intros E. rewrite (Hcl E). apply K6, E.
Qed.

(** The configuration after a step of thread [i]. *)
Lemma ok_update s s' ts i t t' :
  ok (s, ts) -> nth_error ts i = Some t ->
  lock_move i s (t_holds t) s' (t_holds t')
  \/ (s_writer s' = s_writer s /\ s_readers s' = s_readers s
      /\ t_holds t' = t_holds t) ->
  shared_ok s' ->
  (fd (s_rl s) <> None -> fd (s_rl s') <> None) ->
  (s_next s <= s_next s')%nat ->
  fd (s_rl s') = fd (s_rl s) \/ t_holds t = Some Exclusive ->
  files_ok s' (set_nth i t' ts) ->
  t_req t' = t_req t -> t_line t' = t_line t ->
  thread_ok s' t' ->
  ok (s', set_nth i t' ts).
Proof.
  intros [I1 I2 I3 I4 I5] Ht Hmove Hsh Hfd Hnx Hsame Hfiles Hrq Hln Hmine.
  cbn [fst snd] in *.
  constructor; cbn [fst snd].
  - eapply locks_step; eassumption.
  - exact Hsh.
  - exact Hfiles.
  - rewrite (map_set_nth_same _ ts i t' t Ht); [exact I4 |].
    rewrite Hrq, Hln. reflexivity.
  - intros k tk Hn. destruct (Nat.eq_dec i k) as [-> | Hik].
    + rewrite (nth_error_set_nth_eq ts k t' t Ht) in Hn.
      injection Hn as <-. exact Hmine.
    + rewrite nth_error_set_nth_neq in Hn by exact Hik.
      apply thread_ok_frame with (s := s); try assumption.
      * intros Hc. destruct Hsame as [E | E]; [exact E | exfalso].
        destruct (I5 k tk Hn) as [K1 _ _ _ _ _].
        rewrite Hc in K1. cbn in K1.
        destruct (t_holds tk) as [[|] |] eqn:Hh; try discriminate K1.
        pose proof (lk_holds_writer _ _ I1 k tk Hn Hh) as W1.
        pose proof (lk_holds_writer _ _ I1 i t Ht E) as W2.
        congruence.
      * apply (I5 k tk Hn).
Qed.

Lemma shared_ok_frame s s' :
  s_rl s' = s_rl s -> s_handles s' = s_handles s -> s_next s' = s_next s ->
  shared_ok s -> shared_ok s'.
Proof.
  intros H1 H2 H3 [S1 S2 S3 S4 S5].
  constructor; rewrite ?H1, ?H2, ?H3; assumption.
Qed.

Lemma files_ok_same s s' ts i t t' :
  files_ok s ts -> nth_error ts i = Some t ->
  s_files s' = s_files s -> wrote t' = wrote t -> t_line t' = t_line t ->
  files_ok s' (set_nth i t' ts).
Proof.
  intros (placed & Hp & Hn & Hf) Ht Hfs Hw Hl.
  exists placed. split; [| split].
  - rewrite (lines_written_same ts i t t' Ht Hw Hl). exact Hp.
  - exact Hn.
  - rewrite Hfs. exact Hf.
Qed.

(** A step that touches the lock and the thread only. *)
Lemma ok_plain s s' ts i t t' :
  ok (s, ts) -> nth_error ts i = Some t ->
  lock_move i s (t_holds t) s' (t_holds t')
  \/ (s_writer s' = s_writer s /\ s_readers s' = s_readers s
      /\ t_holds t' = t_holds t) ->
  s_rl s' = s_rl s -> s_files s' = s_files s ->
  s_handles s' = s_handles s -> s_next s' = s_next s ->
  t_req t' = t_req t -> t_line t' = t_line t -> wrote t' = wrote t ->
  thread_ok s t' ->
  ok (s', set_nth i t' ts).
Proof.
  intros I Ht Hmove Hrl Hfs Hhs Hnx Hrq Hln Hw Hmine.
  pose proof I as [I1 I2 I3 I4 I5]. cbn [fst snd] in *.
  apply ok_update with (s := s) (t := t); try assumption.
  - apply shared_ok_frame with (s := s); assumption.
  - rewrite Hrl. trivial.
  - rewrite Hnx. apply Nat.le_refl.
  - left. rewrite Hrl. reflexivity.
  - apply files_ok_same with (s := s) (t := t); assumption.
  - apply thread_ok_frame with (s := s); try assumption.
    + rewrite Hrl. trivial.
    + rewrite Hnx. apply Nat.le_refl.
    + intros _. rewrite Hrl. reflexivity.
Qed.

Lemma rdlock_move i s s' :
  rdlock i s = Some s' ->
  lock_move i s None s' (Some Shared)
  /\ s_rl s' = s_rl s /\ s_files s' = s_files s
  /\ s_handles s' = s_handles s /\ s_next s' = s_next s.
Proof.
  unfold rdlock. destruct (s_writer s) eqn:Hw; [discriminate |].
  intros E. injection E as <-. cbn.
  split; [apply take_shared; cbn; trivial | repeat split].
Qed.

Lemma wrlock_move i s s' :
  wrlock i s = Some s' ->
  lock_move i s None s' (Some Exclusive)
  /\ s_rl s' = s_rl s /\ s_files s' = s_files s
  /\ s_handles s' = s_handles s /\ s_next s' = s_next s.
Proof.
  unfold wrlock. destruct (s_writer s) eqn:Hw; [discriminate |].
  destruct (s_readers s) eqn:Hr; [| discriminate].
  intros E. injection E as <-. cbn.
  split; [apply take_exclusive; cbn; trivial | repeat split].
Qed.

Lemma unlock_move i s m :
  lock_move i s (Some m) (unlock i (Some m) s) None
  /\ s_rl (unlock i (Some m) s) = s_rl s
  /\ s_files (unlock i (Some m) s) = s_files s
  /\ s_handles (unlock i (Some m) s) = s_handles s
  /\ s_next (unlock i (Some m) s) = s_next s.
Proof.
  destruct m; cbn.
  - split; [apply drop_shared; cbn; trivial | repeat split].
  - split; [apply drop_exclusive; cbn; trivial | repeat split].
Qed.

Lemma valid_fresh s hd :
  shared_ok s -> fd (s_rl s) = Some hd -> (hd < s_next s)%nat.
Proof.
  intros [_ _ S3 S4 _] Hfd.
  destruct (lookup_handle hd (s_handles s)) as [n |] eqn:L.
  - apply lookup_in in L. apply (S4 (hd, n) L).
  - exfalso. apply (S3 hd Hfd L).
Qed.

Lemma current_fd logt rl : current logt rl = true -> fd rl <> None.
Proof.
  unfold current. intros H. apply andb_prop in H. destruct H as [_ H].
  destruct (fd rl); [discriminate | discriminate H].
Qed.

Lemma request_listed ts i t :
  map (fun t => (request_time (t_req t), t_line t)) ts = reqs ->
  nth_error ts i = Some t ->
  In (request_time (t_req t), t_line t) reqs.
Proof.
  intros <- Ht.
  apply (in_map (fun t => (request_time (t_req t), t_line t))).
  eapply nth_error_In. exact Ht.
Qed.

Ltac thread_fields :=
  cbn [t_pc t_req t_line t_logt t_ofd t_np t_holds goto holding] in *.

Ltac wrote_same Hpc :=
  unfold wrote; thread_fields; rewrite Hpc; reflexivity.

Ltac thread_easy Hpc Hh K3 :=
  constructor; thread_fields; rewrite ?Hh;
  [ reflexivity
  | reflexivity
  | try (intros _; apply K3; discriminate)
  | try discriminate; try (intros _)
  | try (intros [E | E]; discriminate E)
  | try discriminate ].

(** The step that writes the line. *)
Lemma ok_write s ts i t hd name :
  ok (s, ts) -> nth_error ts i = Some t ->
  t_pc t = L_write ->
  lookup_handle hd (s_handles s) = Some name ->
  ok (mk_shared (s_rl s) (s_writer s) (s_readers s)
        (append_file name (t_line t) (s_files s))
        (s_handles s) (s_next s) (s_opened s),
      set_nth i (goto t L_unlock4) ts).
Proof.
  intros I Ht Hpc Hlk.
  pose proof I as [I1 I2 I3 I4 I5]. cbn [fst snd] in *.
  pose proof (I5 i t Ht) as [K1 K2 K3 K4 K5 K6].
  pose proof I2 as [S1 S2 S3 S4 S5].
  apply ok_update with (s := s) (t := t); trivial.
  - right. repeat split.
  - apply shared_ok_frame with (s := s); trivial.
  - left. reflexivity.
  - destruct I3 as (placed & Hp & Hn & Hf).
    exists (placed ++ [(name, t_line t)])%list. split; [| split].
    + rewrite map_app. cbn [map snd].
      eapply Permutation_trans;
        [apply Permutation_sym, Permutation_cons_append |].
      eapply Permutation_trans; [apply perm_skip, Hp |].
      apply (lines_written_new ts i t (goto t L_unlock4) Ht);
        [unfold wrote; rewrite Hpc; reflexivity | reflexivity].
    + intros p Hin. apply in_app_or in Hin.
      destruct Hin as [Hin | [<- | []]]; [apply Hn, Hin |].
      cbn [fst]. apply (S5 (hd, name)). apply lookup_in, Hlk.
    + intros n. cbn [s_files]. unfold append_file.
      rewrite placed_in_snoc, Hf.
      destruct (String.eqb n name);
        [rewrite string_app_assoc | rewrite string_app_nil_r]; reflexivity.
  - constructor; thread_fields.
    + rewrite Hpc in K1. cbn in K1 |- *. exact K1.
    + reflexivity.
    + intros _. apply K3. rewrite Hpc. discriminate.
    + discriminate.
    + intros [E | E]; discriminate E.
    + discriminate.
Qed.

(** Every step keeps what holds. *)
Lemma ok_step c i c' : ok c -> step_at i c = Some c' -> ok c'.
Proof.
  destruct c as [s ts]. intros I Hs.
  unfold Concurrent.step_at in Hs. cbn [fst snd] in Hs.
  destruct (nth_error ts i) as [t |] eqn:Ht; [| discriminate].
  destruct (thread_step i s t) as [[s' t'] |] eqn:Hstep; [| discriminate].
  injection Hs as <-.
  pose proof I as [I1 I2 I3 I4 I5]. cbn [fst snd] in *.
  pose proof (I5 i t Ht) as [K1 K2 K3 K4 K5 K6].
  pose proof I2 as [S1 S2 S3 S4 S5].
  unfold Concurrent.thread_step in Hstep.
  destruct (t_pc t) eqn:Hpc; cbn [holds_ok live needs_fd] in K1, K2, K4;
    try discriminate K2; try discriminate Hstep;
    destruct (t_holds t) as [[|] |] eqn:Hh; try discriminate K1.
  - (* L_start *)
    injection Hstep as <- <-.
    apply ok_plain with (s := s) (t := t); trivial;
      [right; repeat split; thread_fields; congruence
      | wrote_same Hpc |].
    thread_easy Hpc Hh K3.
    intros _. unfold window. rewrite S1. reflexivity.
  - (* L_rdlock1 *)
    destruct (rdlock i s) as [s1 |] eqn:Hl; [| discriminate].
    injection Hstep as <- <-.
    destruct (rdlock_move i s s1 Hl) as (Hm & R1 & R2 & R3 & R4).
    apply ok_plain with (s := s) (t := t); trivial;
      [left; thread_fields; rewrite Hh; exact Hm
      | wrote_same Hpc |].
    thread_easy Hpc Hh K3.
  - (* L_check1 *)
    destruct (current (t_logt t) (s_rl s)) eqn:Hc;
      injection Hstep as <- <-;
      (apply ok_plain with (s := s) (t := t); trivial;
       [right; repeat split; thread_fields; congruence
       | wrote_same Hpc |]);
      thread_easy Hpc Hh K3.
    eapply current_fd. exact Hc.
  - (* L_unlock1 *)
    injection Hstep as <- <-.
    destruct (unlock_move i s Shared) as (Hm & R1 & R2 & R3 & R4).
    apply ok_plain with (s := s) (t := t); trivial;
      [left; thread_fields; rewrite Hh; exact Hm
      | wrote_same Hpc |].
    thread_easy Hpc Hh K3.
  - (* L_wrlock *)
    destruct (wrlock i s) as [s1 |] eqn:Hl; [| discriminate].
    injection Hstep as <- <-.
    destruct (wrlock_move i s s1 Hl) as (Hm & R1 & R2 & R3 & R4).
    apply ok_plain with (s := s) (t := t); trivial;
      [left; thread_fields; rewrite Hh; exact Hm
      | wrote_same Hpc |].
    thread_easy Hpc Hh K3.
  - (* L_check2 *)
    destruct (current (t_logt t) (s_rl s)) eqn:Hc;
      injection Hstep as <- <-;
      (apply ok_plain with (s := s) (t := t); trivial;
       [right; repeat split; thread_fields; congruence
       | wrote_same Hpc |]);
      thread_easy Hpc Hh K3.
    eapply current_fd. exact Hc.
  - (* L_unlock2 *)
    injection Hstep as <- <-.
    destruct (unlock_move i s Exclusive) as (Hm & R1 & R2 & R3 & R4).
    apply ok_plain with (s := s) (t := t); trivial;
      [left; thread_fields; rewrite Hh; exact Hm
      | wrote_same Hpc |].
    thread_easy Hpc Hh K3. apply K4. reflexivity.
  - (* L_relock *)
    destruct (wrlock i s) as [s1 |] eqn:Hl; [| discriminate].
    injection Hstep as <- <-.
    destruct (wrlock_move i s s1 Hl) as (Hm & R1 & R2 & R3 & R4).
    apply ok_plain with (s := s) (t := t); trivial;
      [left; thread_fields; rewrite Hh; exact Hm
      | wrote_same Hpc |].
    thread_easy Hpc Hh K3. apply K4. reflexivity.
  - (* L_swap *)
    injection Hstep as <- <-.
    apply ok_update with (s := s) (t := t); trivial.
    + right. repeat split; thread_fields; congruence.
    + constructor; cbn; assumption.
    + left. reflexivity.
    + apply files_ok_same with (s := s) (t := t); trivial.
      wrote_same Hpc.
    + thread_easy Hpc Hh K3.
      intros _ o Ho. cbn [s_next set_rl].
      apply valid_fresh; assumption.
  - (* L_pool *)
    injection Hstep as <- <-.
    apply ok_update with (s := s) (t := t); trivial.
    + right. repeat split; thread_fields; congruence.
    + constructor; cbn [s_rl s_handles s_next]; trivial.
      intros p Hp. specialize (S4 p Hp). lia.
    + cbn. lia.
    + left. reflexivity.
    + apply files_ok_same with (s := s) (t := t); trivial.
      wrote_same Hpc.
    + thread_easy Hpc Hh K3.
      intros _ o Ho. cbn [s_next].
      pose proof (K5 (or_introl eq_refl) o Ho). lia.
  - (* L_open *)
    cbv beta iota in Hstep. injection Hstep as <- <-.
    assert (Hname :
      log_file (log_name libc time_exp_gmt (fname (s_rl s)) (st (s_rl s))
                  (t_logt t))).
    { right. exists (request_time (t_req t), t_line t).
      split; [eapply request_listed; eassumption |].
      unfold window_name. cbn [fst]. rewrite S1, S2, K3; [reflexivity |].
      discriminate. }
    apply ok_update with (s := s) (t := t); trivial.
    + right. repeat split; thread_fields; congruence.
    + constructor; cbn [s_rl s_handles s_next with_fd fd st fname]; trivial.
      * intros hd E. injection E as <-. rewrite lookup_head. discriminate.
      * intros p [<- | Hp]; [cbn; lia | specialize (S4 p Hp); lia].
      * intros p [<- | Hp]; [exact Hname | exact (S5 p Hp)].
    + intros _. cbn. discriminate.
    + cbn. lia.
    + right. exact Hh.
    + apply files_ok_same with (s := s) (t := t); trivial.
      wrote_same Hpc.
    + thread_easy Hpc Hh K3.
      intros _. cbn [s_rl with_fd fd]. intros E.
      pose proof (K5 (or_intror eq_refl) (s_next s) E). lia.
  - (* L_close *)
    injection Hstep as <- <-.
    apply ok_update with (s := s) (t := t); trivial.
    + right. repeat split; thread_fields; congruence.
    + constructor; cbn [s_rl s_handles s_next with_pool fd st fname]; trivial.
      * intros hd E. rewrite lookup_close; [apply S3, E |].
        rewrite <- E. apply K6. reflexivity.
      * intros p Hp. apply S4. eapply in_close. exact Hp.
      * intros p Hp. apply S5. eapply in_close. exact Hp.
    + left. reflexivity.
    + apply files_ok_same with (s := s) (t := t); trivial.
      wrote_same Hpc.
    + thread_easy Hpc Hh K3. cbn [s_rl with_pool fd]. apply K4. reflexivity.
  - (* L_unlock3 *)
    injection Hstep as <- <-.
    destruct (unlock_move i s Exclusive) as (Hm & R1 & R2 & R3 & R4).
    apply ok_plain with (s := s) (t := t); trivial;
      [left; thread_fields; rewrite Hh; exact Hm
      | wrote_same Hpc |].
    thread_easy Hpc Hh K3. apply K4. reflexivity.
  - (* L_checkfd *)
    destruct (fd (s_rl s)) as [hd |] eqn:Hfd;
      [| exfalso; apply K4; reflexivity].
    cbn [is_null] in Hstep. injection Hstep as <- <-.
    apply ok_plain with (s := s) (t := t); trivial;
      [right; repeat split; thread_fields; congruence
      | wrote_same Hpc |].
    thread_easy Hpc Hh K3. rewrite Hfd. discriminate.
  - (* L_rdlock2 *)
    destruct (rdlock i s) as [s1 |] eqn:Hl; [| discriminate].
    injection Hstep as <- <-.
    destruct (rdlock_move i s s1 Hl) as (Hm & R1 & R2 & R3 & R4).
    apply ok_plain with (s := s) (t := t); trivial;
      [left; thread_fields; rewrite Hh; exact Hm
      | wrote_same Hpc |].
    thread_easy Hpc Hh K3. apply K4. reflexivity.
  - (* L_write, shared *)
    pose proof (S3 : forall hd, _) as V.
    destruct (fd (s_rl s)) as [hd |] eqn:Hfd;
      [| exfalso; apply K4; reflexivity].
    destruct (lookup_handle hd (s_handles s)) as [name |] eqn:Hlk;
      [| exfalso; exact (V hd eq_refl Hlk)].
    injection Hstep as <- <-.
    apply ok_write with (hd := hd); assumption.
  - (* L_write, exclusive *)
    pose proof (S3 : forall hd, _) as V.
    destruct (fd (s_rl s)) as [hd |] eqn:Hfd;
      [| exfalso; apply K4; reflexivity].
    destruct (lookup_handle hd (s_handles s)) as [name |] eqn:Hlk;
      [| exfalso; exact (V hd eq_refl Hlk)].
    injection Hstep as <- <-.
    apply ok_write with (hd := hd); assumption.
  - (* L_unlock4, shared *)
    injection Hstep as <- <-.
    destruct (unlock_move i s Shared) as (Hm & R1 & R2 & R3 & R4).
    apply ok_plain with (s := s) (t := t); trivial;
      [left; thread_fields; rewrite Hh; exact Hm
      | wrote_same Hpc |].
    thread_easy Hpc Hh K3.
  - (* L_unlock4, exclusive *)
    injection Hstep as <- <-.
    destruct (unlock_move i s Exclusive) as (Hm & R1 & R2 & R3 & R4).
    apply ok_plain with (s := s) (t := t); trivial;
      [left; thread_fields; rewrite Hh; exact Hm
      | wrote_same Hpc |].
    thread_easy Hpc Hh K3.
Qed.

Lemma ok_start : ok c0.
Proof.
  constructor; cbn [fst snd].
  - constructor; cbn.
    + discriminate.
    + discriminate.
    + contradiction.
    + intros i t Hn E. unfold spawn_all in Hn.
      apply nth_error_In, in_map_iff in Hn.
      destruct Hn as (q & <- & _). discriminate E.
    + intros i t Hn E. unfold spawn_all in Hn.
      apply nth_error_In, in_map_iff in Hn.
      destruct Hn as (q & <- & _). discriminate E.
  - constructor; cbn [boot s_rl s_handles s_next]; trivial.
    + intros hd E. rewrite E. rewrite lookup_head. discriminate.
    + destruct (fd rl0) as [hd |];
        [intros p [<- | []]; cbn; lia | intros p []].
    + destruct (fd rl0) as [hd |];
        [intros p [<- | []]; left; reflexivity | intros p []].
  - exists []. split; [| split].
    + rewrite spawn_all_not_written. constructor.
    + intros p [].
    + intros n. cbn. rewrite string_app_nil_r. reflexivity.
  - unfold spawn_all. rewrite map_map. cbn.
    rewrite <- (map_id reqs) at 2. apply map_ext. intros [tm l]. reflexivity.
  - intros i t Hn. unfold spawn_all in Hn.
    apply nth_error_In, in_map_iff in Hn. destruct Hn as (q & <- & _).
    constructor; cbn; try reflexivity; try discriminate.
    intros E. contradiction.
Qed.

Lemma ok_reachable c : reachable c0 c -> ok c.
Proof.
  induction 1 as [| c i c' _ IH Hs]; [exact ok_start |].
  exact (ok_step c i c' IH Hs).
Qed.

Lemma ok_holder_not_blocked s ts i t :
  ok (s, ts) -> nth_error ts i = Some t ->
  t_holds t <> None -> blocked s t = false.
Proof.
  intros I Ht Hh.
  destruct (ok_threads _ _ _ _ _ _ _ _ I i t Ht) as [K1 K2 _ _ _ _].
  cbn [fst snd] in *.
  unfold blocked. destruct (t_pc t); try reflexivity;
    try (cbn in K1; destruct (t_holds t); [discriminate | congruence]).
  cbn in K1, K2. rewrite K2 in K1.
  destruct (t_holds t); [discriminate | congruence].
Qed.

Lemma ok_no_deadlock c :
  ok c -> finished c \/ exists i c', step_at i c = Some c'.
Proof.
  destruct c as [s ts]. intros I.
  destruct (forallb is_done ts) eqn:Hall.
  { left. intros t Hin. cbn [snd] in Hin.
    rewrite forallb_forall in Hall. apply Hall, Hin. }
  right.
  assert (Hrun : forall i t, nth_error ts i = Some t ->
                             blocked s t = false ->
                             exists i c', step_at i (s, ts) = Some c').
  { intros i t Ht Hb.
    destruct (step_unless_blocked gmtoff libc time_exp_gmt (fun _ => true)
                i s t Hb) as ([s' t'] & Hs).
    exists i. eexists. unfold Concurrent.step_at. cbn [fst snd].
    rewrite Ht, Hs. reflexivity. }
  pose proof (ok_locks _ _ _ _ _ _ _ _ I) as [L1 L2 L3 _ _].
  cbn [fst snd] in *.
  destruct (s_writer s) as [k |] eqn:Hw.
  { destruct (L2 k eq_refl) as (tk & Hk & Hx).
    apply (Hrun k tk Hk). eapply ok_holder_not_blocked; try eassumption.
    congruence. }
  destruct (s_readers s) as [| k r] eqn:Hr.
  - destruct (forallb_false _ _ Hall) as (t & Hin & Hnd).
    destruct (In_nth_error ts t Hin) as (i & Hi).
    apply (Hrun i t Hi). unfold blocked. rewrite Hw, Hr.
    unfold is_done in Hnd. destruct (t_pc t); try reflexivity. discriminate.
  - destruct (L3 k (or_introl eq_refl)) as (tk & Hk & Hx).
    apply (Hrun k tk Hk). eapply ok_holder_not_blocked; try eassumption.
    congruence.
Qed.

Lemma ok_can_finish n c :
  (steps_left c <= n)%nat -> reachable c0 c ->
  exists c', reachable c0 c' /\ finished c'.
Proof.
  revert c. induction n as [| n IH]; intros c Hn Hr;
    destruct (ok_no_deadlock c (ok_reachable c Hr)) as [Hf | (i & c' & Hs)];
    try (exists c; split; assumption).
  - pose proof (step_decreases _ _ _ _ i c c' Hs). lia.
  - apply (IH c').
    + pose proof (step_decreases _ _ _ _ i c c' Hs). lia.
    + eapply reach_step; eassumption.
Qed.

Lemma ok_result c :
  ok c -> finished c ->
  (forall t, In t (snd c) -> t_pc t = L_done APR_SUCCESS)
  /\ s_writer (fst c) = None /\ s_readers (fst c) = []
  /\ exists placed,
       Permutation (map snd placed) (map snd reqs)
       /\ (forall p, In p placed -> log_file (fst p))
       /\ forall n, s_files (fst c) n = (fs0 n ++ placed_in n placed)%string.
Proof.
  destruct c as [s ts]. intros I Hfin.
  pose proof I as [I1 I2 I3 I4 I5]. cbn [fst snd] in *.
  unfold finished in Hfin. cbn [snd] in Hfin.
  assert (Hdone : forall t, In t ts ->
                    t_pc t = L_done APR_SUCCESS /\ t_holds t = None).
  { intros t Hin. destruct (In_nth_error ts t Hin) as (i & Hi).
    destruct (I5 i t Hi) as [K1 K2 _ _ _ _].
    specialize (Hfin t Hin). unfold is_done in Hfin.
    destruct (t_pc t); try discriminate.
    cbn in K1, K2. rewrite K2 in K1. apply Z.eqb_eq in K2. subst rv.
    destruct (t_holds t); [discriminate | auto]. }
  destruct I1 as [L1 L2 L3 _ _].
  split; [intros t Hin; apply (Hdone t Hin) |].
  split; [| split].
  - destruct (s_writer s) as [k |] eqn:Hw; [| reflexivity].
    destruct (L2 k eq_refl) as (tk & Hk & Hx).
    destruct (Hdone tk (nth_error_In _ _ Hk)) as [_ E]. congruence.
  - destruct (s_readers s) as [| k r] eqn:Hr; [reflexivity |].
    destruct (L3 k (or_introl eq_refl)) as (tk & Hk & Hx).
    destruct (Hdone tk (nth_error_In _ _ Hk)) as [_ E]. congruence.
  - destruct I3 as (placed & Hp & Hn & Hf).
    exists placed. split; [| split; assumption].
    unfold lines_written in Hp. rewrite filter_all in Hp.
    + rewrite <- I4, map_map. cbn [snd]. exact Hp.
    + intros t Hin. destruct (Hdone t Hin) as [E _].
      unfold wrote. rewrite E. reflexivity.
Qed.

(** A thread that holds the lock exclusively is alone with the log. *)
Lemma ok_exclusive c i j ti tj :
  ok c ->
  nth_error (snd c) i = Some ti -> nth_error (snd c) j = Some tj ->
  i <> j ->
  t_holds ti = Some Exclusive -> t_holds tj = None.
Proof.
  destruct c as [s ts]. intros I Hi Hj Hne Hx.
  pose proof (ok_locks _ _ _ _ _ _ _ _ I) as [L1 L2 L3 L4 L5].
  cbn [fst snd] in *.
  pose proof (L4 i ti Hi Hx) as Hw.
  destruct (t_holds tj) as [[|] |] eqn:Hh; [| | reflexivity].
  - pose proof (L5 j tj Hj Hh) as Hin. rewrite (L1 i Hw) in Hin.
    contradiction.
  - pose proof (L4 j tj Hj Hh). congruence.
Qed.

End Any.




End AnyWindowsProofs.
